(** * MolFileParser: a shallow embedding of the MDL molfile / CTAB parser

    Source: Code/GraphMol/FileParsers/MolFileParser.cpp.

    Conventions of the embedding
    - C++ [int] and [unsigned int] are [Z] with the wrap-around written out
      ([wrap_int], [wrap_uint]).
    - [std::string] is [string]; positions and sizes are [nat].
    - C++ exceptions are values of [exn]; a fallible pure expression has type
      [Res A]; a statement that reads the stream, bumps the line counter or
      writes to [rdWarningLog] lives in the state-and-error monad [M].
    - [double] values are modelled by the exact rational they denote;
      rounding is not modelled. *)

From Stdlib Require Import ZArith QArith String Ascii List Lia Bool DecimalString.
From stdpp Require Import base option list strings gmap.

Local Open Scope string_scope.
Local Open Scope list_scope.
Local Open Scope Z_scope.

(** ** Exceptions and the two monads *)

Inductive exn : Type :=
| FileParseException (msg : string)
| bad_lexical_cast
| Invariant (msg : string)
| out_of_range
| MolSanitizeException
| Undefined (what : string)
| OutOfFuel.

Definition Res (A : Type) : Type := exn + A.

Definition rbind {A B : Type} (m : Res A) (f : A -> Res B) : Res B :=
  match m with
  | inl e => inl e
  | inr a => f a
  end.

(** A loop over a container that stops at the first exception. *)
Definition mapRes {A B : Type} (f : A -> Res B) : list A -> Res (list B) :=
  fix go (l : list A) : Res (list B) :=
    match l with
    | [] => inr []
    | a :: l' =>
        match f a with
        | inl e => inl e
        | inr b =>
            match go l' with
            | inl e => inl e
            | inr bs => inr (b :: bs)
            end
        end
    end.

(** [std::istream]: the lines still to be read.  [pending] are the lines
    that end in a newline, [rest] is what follows the last newline, and
    [eofbit] is set once a read has hit the end of the input. *)
Record istream : Type := mkStream {
  pending : list string;
  rest : string;
  eofbit : bool
}.

Record St : Type := mkSt {
  inStream : istream;
  line : Z;
  rdWarningLog : list string
}.

Definition M (A : Type) : Type := St -> St * Res A.

Definition ret {A : Type} (a : A) : M A := fun st => (st, inr a).
Definition throw {A : Type} (e : exn) : M A := fun st => (st, inl e).
Definition bind {A B : Type} (m : M A) (f : A -> M B) : M B :=
  fun st =>
    match m st with
    | (st', inl e) => (st', inl e)
    | (st', inr a) => f a st'
    end.
Definition lift {A : Type} (r : Res A) : M A := fun st => (st, r).

Declare Scope mol_scope.
Delimit Scope mol_scope with mol.
Notation "'do' x <- m ; k" := (bind m (fun x => k))
  (at level 10, x name, m at level 100, k at level 200) : mol_scope.
Notation "'do' ' pat <- m ; k" := (bind m (fun x => match x with pat => k end))
  (at level 10, pat pattern, m at level 100, k at level 200) : mol_scope.
Notation "'exec' m ; k" := (bind m (fun _ => k))
  (at level 10, m at level 100, k at level 200) : mol_scope.
Notation "'let?' x := m 'in' k" := (rbind m (fun x => k))
  (at level 10, x name, m at level 100, k at level 200) : mol_scope.
Notation "'let?' ' pat := m 'in' k" :=
  (rbind m (fun x => match x with pat => k end))
  (at level 10, pat pattern, m at level 100, k at level 200) : mol_scope.
Notation "'check' m 'in' k" := (rbind m (fun _ => k))
  (at level 10, m at level 100, k at level 200) : mol_scope.
Local Open Scope mol_scope.

(** [try { m } catch (boost::bad_lexical_cast &) { throw h; }] where the
    handler [h] may itself throw while it builds its message. *)
Definition catch_blc {A : Type} (m : Res A) (h : Res exn) : Res A :=
  match m with
  | inl bad_lexical_cast =>
      match h with
      | inl e => inl e
      | inr e => inl e
      end
  | r => r
  end.

(** [try { m } catch (boost::bad_lexical_cast) { ; }] *)
Definition ignore_blc (m : M unit) : M unit :=
  fun st =>
    match m st with
    | (st', inl bad_lexical_cast) => (st', inr tt)
    | r => r
    end.

Definition BOOST_LOG (msg : string) : M unit :=
  fun st => (mkSt (inStream st) (line st) (rdWarningLog st ++ [msg]), inr tt).

(** ** Machine integers *)

Definition wrap_uint (z : Z) : Z := z mod 2 ^ 32.
Definition wrap_int (z : Z) : Z := (z + 2 ^ 31) mod 2 ^ 32 - 2 ^ 31.

(** The sentinel [-0xDEADBEEF]: the literal is an [unsigned int], negation
    wraps, and the result is passed where an [int] is expected. *)
Definition MAGIC : Z := wrap_int (wrap_uint (- 0xDEADBEEF)).

(** ** Strings *)

Definition s2l : string -> list ascii := list_ascii_of_string.
Definition l2s : list ascii -> string := string_of_list_ascii.

Definition str_size (s : string) : nat := List.length (s2l s).

(** [s.substr(pos, n)] *)
Definition substr (s : string) (pos n : nat) : Res string :=
  if (pos <=? str_size s)%nat then inr (l2s (take n (drop pos (s2l s))))
  else inl out_of_range.

(** [s[i]]; reading at or past the end is modelled as the terminating NUL. *)
Definition char_at (s : string) (i : nat) : ascii :=
  match s2l s !! i with
  | Some c => c
  | None => "000"%char
  end.

Definition isspace (c : ascii) : bool :=
  let n := nat_of_ascii c in
  ((n =? 32) || ((9 <=? n) && (n <=? 13)))%nat.

(** [boost::trim_copy] *)
Fixpoint trim_left (l : list ascii) : list ascii :=
  match l with
  | c :: l' => if isspace c then trim_left l' else l
  | [] => []
  end.
Definition trim_copy (s : string) : string :=
  l2s (rev (trim_left (rev (trim_left (s2l s))))).

Definition is_any_of (seps : string) (c : ascii) : bool :=
  existsb (Ascii.eqb c) (s2l seps).

(** [boost::split(out, s, pred)] with [token_compress_off]: one token more
    than there are separators. *)
Fixpoint split_aux (p : ascii -> bool) (cur : list ascii) (l : list ascii)
  : list string :=
  match l with
  | [] => [l2s (rev cur)]
  | c :: l' =>
      if p c then l2s (rev cur) :: split_aux p [] l'
      else split_aux p (c :: cur) l'
  end.
Definition boost_split (p : ascii -> bool) (s : string) : list string :=
  split_aux p [] (s2l s).

(** [boost::split(out, s, pred, token_compress_on)]: a run of adjacent
    separators counts as one. *)
Fixpoint split_compress_aux (p : ascii -> bool) (cur : list ascii)
  (insep : bool) (l : list ascii) : list string :=
  match l with
  | [] => [l2s (rev cur)]
  | c :: l' =>
      if p c then
        if insep then split_compress_aux p cur true l'
        else l2s (rev cur) :: split_compress_aux p [] true l'
      else split_compress_aux p (c :: cur) false l'
  end.
Definition split_compress (p : ascii -> bool) (s : string) : list string :=
  split_compress_aux p [] false (s2l s).

(** [s.find(' ')]: [None] is [npos]. *)
Fixpoint find_char (c : ascii) (l : list ascii) : option nat :=
  match l with
  | [] => None
  | d :: l' => if Ascii.eqb c d then Some 0%nat else S <$> find_char c l'
  end.

Definition to_upper_char (c : ascii) : ascii :=
  let n := nat_of_ascii c in
  if ((97 <=? n) && (n <=? 122))%nat then ascii_of_nat (n - 32) else c.
Definition to_upper (s : string) : string := l2s (map to_upper_char (s2l s)).

(** ** Numeric conversion helpers *)

Definition digit_val (c : ascii) : option Z :=
  let n := nat_of_ascii c in
  if ((48 <=? n) && (n <=? 57))%nat then Some (Z.of_nat n - 48) else None.

Fixpoint read_digits (acc : Z) (l : list ascii) : Z :=
  match l with
  | [] => acc
  | c :: l' =>
      match digit_val c with
      | Some d => read_digits (10 * acc + d) l'
      | None => acc
      end
  end.

Definition read_signed (l : list ascii) : Z :=
  match l with
  | "-"%char :: l' => - read_digits 0 l'
  | "+"%char :: l' => read_digits 0 l'
  | _ => read_digits 0 l
  end.

(** [strtol] saturates at [LONG_MIN] and [LONG_MAX]; [long] has 64 bits. *)
Definition clamp_long (z : Z) : Z := Z.max (- 2 ^ 63) (Z.min (2 ^ 63 - 1) z).

(** [atoi(s.c_str())], that is [(int) strtol(s, 0, 10)]: skips white space,
    reads an optional sign and the digits that follow, and returns 0 when
    there are none.  A value that does not fit a [long] saturates, and the
    conversion to [int] keeps the low 32 bits. *)
Definition atoi (s : string) : Z :=
  wrap_int (clamp_long (read_signed (trim_left (s2l s)))).

(** [boost::lexical_cast<unsigned int>]: the whole string must be an
    optional sign followed by digits; a minus sign negates modulo 2^32. *)
Definition all_digits (l : list ascii) : bool :=
  match l with
  | [] => false
  | _ => forallb (fun c => bool_decide (is_Some (digit_val c))) l
  end.
Definition lexical_cast_uint (s : string) : Res Z :=
  let body sign l :=
    if all_digits l then
      let v := read_digits 0 l in
      if v <=? 4294967295 then inr (wrap_uint (sign * v)) else inl bad_lexical_cast
    else inl bad_lexical_cast in
  match s2l s with
  | "-"%char :: l' => body (-1) l'
  | "+"%char :: l' => body 1 l'
  | l => body 1 l
  end.

Definition stripSpacesAndCast (input : string) (acceptSpaces : bool) : Res Z :=
  let trimmed := trim_copy input in
  if acceptSpaces && bool_decide (trimmed = "") then inr 0
  else lexical_cast_uint trimmed.

Definition toInt (input : string) (acceptSpaces : bool) : Res Z :=
  let res := atoi input in
  if bool_decide (res = 0) && negb acceptSpaces
     && bool_decide (char_at input 0 = " "%char) then
    let trimmed := trim_copy input in
    if bool_decide (str_size trimmed = 0%nat) then inl bad_lexical_cast else inr res
  else inr res.

(** [atof] on decimal numerals: optional sign, digits, optional fraction,
    optional decimal exponent; 0 when no number can be read.  The value is
    the exact rational that the numeral denotes.  Out of the model's scope:
    the rounding to a [double] (with overflow to infinity and underflow to
    zero), and the spellings [inf], [nan] and hexadecimal floats, which
    [strtod] reads as numbers and this function reads as 0 (or as the
    decimal digits they start with).  The properties below are about
    inputs whose real-valued fields (coordinates, [MASS=]) are decimal
    numerals within the range of a [double]. *)
Fixpoint span_digits (l : list ascii) : list ascii * list ascii :=
  match l with
  | [] => ([], [])
  | c :: l' =>
      match digit_val c with
      | Some _ => let '(ds, r) := span_digits l' in (c :: ds, r)
      | None => ([], l)
      end
  end.

Definition pow10Q (e : Z) : Q :=
  if 0 <=? e then inject_Z (10 ^ e) else Qmake 1 (Z.to_pos (10 ^ (- e))).

Definition atof_unsigned (l : list ascii) : Q :=
  let '(ip, r1) := span_digits l in
  let '(fp, r2) :=
    match r1 with
    | "."%char :: r => span_digits r
    | _ => ([], r1)
    end in
  match ip, fp with
  | [], [] => 0%Q
  | _, _ =>
      let mant := read_digits 0 (ip ++ fp) in
      let e10 :=
        match r2 with
        | c :: r3 =>
            if bool_decide (c = "e"%char \/ c = "E"%char) then
              match r3 with
              | "-"%char :: r4 =>
                  if all_digits (fst (span_digits r4))
                  then - read_digits 0 r4 else 0
              | "+"%char :: r4 => read_digits 0 r4
              | _ => read_digits 0 r3
              end
            else 0
        | [] => 0
        end in
      Qred (inject_Z mant * pow10Q (e10 - Z.of_nat (List.length fp)))
  end.

Definition atof (s : string) : Q :=
  match trim_left (s2l s) with
  | "-"%char :: l' => Qred (- atof_unsigned l')
  | "+"%char :: l' => atof_unsigned l'
  | l => atof_unsigned l
  end.

Definition toDouble (input : string) (acceptSpaces : bool) : Res Q :=
  let res := atof input in
  if Qeq_bool res 0 && negb acceptSpaces
     && bool_decide (char_at input 0 = " "%char) then
    let trimmed := trim_copy input in
    if bool_decide (str_size trimmed = 0%nat) then inl bad_lexical_cast else inr res
  else inr res.

(** [static_cast<int>(d)]: truncation toward zero. *)
Definition double_to_int (d : Q) : Z := wrap_int (Z.quot (Qnum d) (Z.pos (Qden d))).

(** ** Data model

    The molecular graph ([Atom], [Bond], [Conformer], [RWMol]) and the query
    classes are declared outside this file; the parser only goes through
    their interface.  The definitions below give that interface a concrete
    carrier. *)

Inductive PropVal : Type :=
| PInt (z : Z)
| PStr (s : string)
| PBool (b : bool).

Inductive QueryType : Type :=
| EqualityQuery | LessEqualQuery | AndQuery | OrQuery | XOrQuery | PlainQuery.

(** The function a query node applies to its candidate ([getDataFunc]). *)
Inductive DataFunc : Type :=
| queryAtomNum | queryAtomFormalCharge | queryAtomMass
| queryAtomExplicitDegree | queryAtomRingBondCount | queryAtomUnsaturated
| queryAtomHCount | nullDataFun
| queryBondOrder | queryIsBondInRing
| noDataFunc.

(** A query node.  [qval] is [Some v] for the equality and less-or-equal
    queries, which store a value, and [None] for the combinators and the
    null query, which do not. *)
#[local] Unset Elimination Schemes.
Inductive Query : Type :=
| mkQuery (qtype : QueryType) (qdescr : string) (qnegate : bool)
          (qfunc : DataFunc) (qval : option Z) (qchildren : list Query).
#[local] Set Elimination Schemes.

Definition qtype (q : Query) := let 'mkQuery t _ _ _ _ _ := q in t.
Definition qdescr (q : Query) := let 'mkQuery _ d _ _ _ _ := q in d.
Definition qnegate (q : Query) := let 'mkQuery _ _ n _ _ _ := q in n.
Definition qfunc (q : Query) := let 'mkQuery _ _ _ f _ _ := q in f.
Definition qval (q : Query) := let 'mkQuery _ _ _ _ v _ := q in v.
Definition qchildren (q : Query) := let 'mkQuery _ _ _ _ _ c := q in c.

Definition setNegation (n : bool) (q : Query) : Query :=
  let 'mkQuery t d _ f v c := q in mkQuery t d n f v c.
Definition setVal (v : Z) (q : Query) : Query :=
  let 'mkQuery t d n f _ c := q in mkQuery t d n f (Some v) c.
Definition addChild (child : Query) (q : Query) : Query :=
  let 'mkQuery t d n f v c := q in mkQuery t d n f v (c ++ [child]).

Inductive BondType : Type :=
| UNSPECIFIED | SINGLE | DOUBLE | TRIPLE | AROMATIC.
Inductive BondDir : Type :=
| NONE | BEGINWEDGE | BEGINDASH | EITHERDOUBLE | UNKNOWN.
Inductive BondStereo : Type :=
| STEREONONE | STEREOANY.

Definition bondTypeCode (t : BondType) : Z :=
  match t with
  | UNSPECIFIED => 0 | SINGLE => 1 | DOUBLE => 2 | TRIPLE => 3 | AROMATIC => 12
  end.

(** Modelled from the spec: the query factories of GraphMol/QueryOps (not in
    this file); spec 3 lists the leaves [AtomNumEquals(n)],
    [AtomFormalChargeEquals(c)], [AtomMassEquals(m)],
    [AtomExplicitDegreeEquals(d)], [AtomRingBondCountEquals(r)],
    [AtomUnsaturated], [AtomHCountEquals(h)], [AtomNull],
    [BondOrderEquals(o)], [BondIsInRing], [BondNull], each with a data
    function and a value. *)
Definition makeAtomSimpleQuery (descr : string) (f : DataFunc) (v : Z) : Query :=
  mkQuery EqualityQuery descr false f (Some v) [].
Definition makeAtomNumEqualsQuery := makeAtomSimpleQuery "AtomAtomicNum" queryAtomNum.
Definition makeAtomFormalChargeQuery :=
  makeAtomSimpleQuery "AtomFormalCharge" queryAtomFormalCharge.
Definition makeAtomMassQuery := makeAtomSimpleQuery "AtomMass" queryAtomMass.
Definition makeAtomExplicitDegreeQuery :=
  makeAtomSimpleQuery "AtomExplicitDegree" queryAtomExplicitDegree.
Definition makeAtomRingBondCountQuery :=
  makeAtomSimpleQuery "AtomRingBondCount" queryAtomRingBondCount.
Definition makeAtomHCountQuery := makeAtomSimpleQuery "AtomHCount" queryAtomHCount.
Definition makeAtomUnsaturatedQuery : Query :=
  makeAtomSimpleQuery "AtomUnsaturated" queryAtomUnsaturated 1.
Definition makeAtomNullQuery : Query :=
  mkQuery PlainQuery "AtomNull" false nullDataFun None [].
Definition makeBondOrderEqualsQuery (t : BondType) : Query :=
  mkQuery EqualityQuery "BondOrder" false queryBondOrder (Some (bondTypeCode t)) [].
Definition makeBondIsInRingQuery : Query :=
  mkQuery EqualityQuery "BondInRing" false queryIsBondInRing (Some 1) [].
Definition makeBondNullQuery : Query :=
  mkQuery PlainQuery "BondNull" false nullDataFun None [].

(** [new ATOM_OR_QUERY], [new BOND_OR_QUERY] *)
Definition new_OR_QUERY : Query := mkQuery OrQuery "" false noDataFunc None [].
Definition setDescription (d : string) (q : Query) : Query :=
  let 'mkQuery t _ n f v c := q in mkQuery t d n f v c.
Definition setDataFunc (f : DataFunc) (q : Query) : Query :=
  let 'mkQuery t d n _ v c := q in mkQuery t d n f v c.
(** [new ATOM_LESSEQUAL_QUERY] *)
Definition new_LESSEQUAL_QUERY : Query :=
  mkQuery LessEqualQuery "" false noDataFunc (Some 0) [].

Inductive CompositeQueryType : Type :=
| COMPOSITE_AND | COMPOSITE_OR | COMPOSITE_XOR.

(** Modelled from the spec: [QueryAtom::expandQuery] / [QueryBond::expandQuery]
    (GraphMol/QueryAtom, not in this file); spec 4.4 has the new leaf
    "appended ... under an [Or] combinator": the old query and the new one
    become the children of a fresh combinator node. *)
Definition expandQueryWith (prefix : string) (what : Query)
  (how : CompositeQueryType) (maintainOrder : bool) (orig : Query) : Query :=
  let '(t, d) :=
    match how with
    | COMPOSITE_AND => (AndQuery, prefix +:+ "And")
    | COMPOSITE_OR => (OrQuery, prefix +:+ "Or")
    | COMPOSITE_XOR => (XOrQuery, prefix +:+ "XOr")
    end in
  mkQuery t d false noDataFunc None
    (if maintainOrder then [orig; what] else [what; orig]).

Record Atom : Type := mkAtom {
  atomicNum : Z;
  formalCharge : Z;
  mass : Q;
  numRadicalElectrons : Z;
  noImplicit : bool;
  isAromatic : bool;
  explicitValence : option Z;
  aprops : gmap string PropVal;
  aquery : option Query
}.

(** [new Atom] *)
Definition newAtom : Atom := mkAtom 0 0 0%Q 0 false false None ∅ None.

Definition setAtomicNum (n : Z) (a : Atom) : Atom :=
  mkAtom n (formalCharge a) (mass a) (numRadicalElectrons a) (noImplicit a)
    (isAromatic a) (explicitValence a) (aprops a) (aquery a).
Definition setFormalCharge (c : Z) (a : Atom) : Atom :=
  mkAtom (atomicNum a) c (mass a) (numRadicalElectrons a) (noImplicit a)
    (isAromatic a) (explicitValence a) (aprops a) (aquery a).
Definition setMass (m : Q) (a : Atom) : Atom :=
  mkAtom (atomicNum a) (formalCharge a) m (numRadicalElectrons a) (noImplicit a)
    (isAromatic a) (explicitValence a) (aprops a) (aquery a).
Definition setNumRadicalElectrons (n : Z) (a : Atom) : Atom :=
  mkAtom (atomicNum a) (formalCharge a) (mass a) n (noImplicit a)
    (isAromatic a) (explicitValence a) (aprops a) (aquery a).
Definition setNoImplicit (b : bool) (a : Atom) : Atom :=
  mkAtom (atomicNum a) (formalCharge a) (mass a) (numRadicalElectrons a) b
    (isAromatic a) (explicitValence a) (aprops a) (aquery a).
Definition setIsAromatic (b : bool) (a : Atom) : Atom :=
  mkAtom (atomicNum a) (formalCharge a) (mass a) (numRadicalElectrons a)
    (noImplicit a) b (explicitValence a) (aprops a) (aquery a).
Definition setExplicitValence (v : Z) (a : Atom) : Atom :=
  mkAtom (atomicNum a) (formalCharge a) (mass a) (numRadicalElectrons a)
    (noImplicit a) (isAromatic a) (Some v) (aprops a) (aquery a).
Definition setAtomProp (k : string) (v : PropVal) (a : Atom) : Atom :=
  mkAtom (atomicNum a) (formalCharge a) (mass a) (numRadicalElectrons a)
    (noImplicit a) (isAromatic a) (explicitValence a) (<[k:=v]> (aprops a))
    (aquery a).
Definition setAtomQuery (q : Query) (a : Atom) : Atom :=
  mkAtom (atomicNum a) (formalCharge a) (mass a) (numRadicalElectrons a)
    (noImplicit a) (isAromatic a) (explicitValence a) (aprops a) (Some q).

Definition hasQuery (a : Atom) : bool := bool_decide (is_Some (aquery a)).
Definition hasAtomProp (k : string) (a : Atom) : bool :=
  bool_decide (is_Some (aprops a !! k)).

(** [QueryAtom(const Atom &)]: a query atom with the scalar state of the
    atom and a query on its atomic number (spec 4.4, "Promotion"). *)
Definition QueryAtom_of (a : Atom) : Atom :=
  setAtomQuery (makeAtomNumEqualsQuery (atomicNum a)) a.
(** [QueryAtom(int num)] *)
Definition QueryAtom_num (num : Z) : Atom :=
  setAtomQuery (makeAtomNumEqualsQuery num) (setAtomicNum num newAtom).

(** [atom->expandQuery(what, how, maintainOrder)]; a plain atom has no
    query to expand. *)
Definition expandAtomQuery (what : Query) (how : CompositeQueryType)
  (maintainOrder : bool) (a : Atom) : Res Atom :=
  match aquery a with
  | Some q => inr (setAtomQuery (expandQueryWith "Atom" what how maintainOrder q) a)
  | None => inl (Invariant "plain atoms have no Query")
  end.

Record Bond : Type := mkBond {
  beginAtomIdx : Z;
  endAtomIdx : Z;
  bondType : BondType;
  bondDir : BondDir;
  stereo : BondStereo;
  bIsAromatic : bool;
  bprops : gmap string PropVal;
  bquery : option Query
}.

(** [new Bond] and [new QueryBond] *)
Definition newBond : Bond := mkBond 0 0 UNSPECIFIED NONE STEREONONE false ∅ None.
Definition newQueryBond : Bond :=
  mkBond 0 0 UNSPECIFIED NONE STEREONONE false ∅
    (Some (makeBondOrderEqualsQuery SINGLE)).

Definition setBeginAtomIdx (i : Z) (b : Bond) : Bond :=
  mkBond i (endAtomIdx b) (bondType b) (bondDir b) (stereo b) (bIsAromatic b)
    (bprops b) (bquery b).
Definition setEndAtomIdx (i : Z) (b : Bond) : Bond :=
  mkBond (beginAtomIdx b) i (bondType b) (bondDir b) (stereo b) (bIsAromatic b)
    (bprops b) (bquery b).
Definition setBondType (t : BondType) (b : Bond) : Bond :=
  mkBond (beginAtomIdx b) (endAtomIdx b) t (bondDir b) (stereo b) (bIsAromatic b)
    (bprops b) (bquery b).
Definition setBondDir (d : BondDir) (b : Bond) : Bond :=
  mkBond (beginAtomIdx b) (endAtomIdx b) (bondType b) d (stereo b) (bIsAromatic b)
    (bprops b) (bquery b).
Definition setStereo (s : BondStereo) (b : Bond) : Bond :=
  mkBond (beginAtomIdx b) (endAtomIdx b) (bondType b) (bondDir b) s (bIsAromatic b)
    (bprops b) (bquery b).
Definition setBondIsAromatic (a : bool) (b : Bond) : Bond :=
  mkBond (beginAtomIdx b) (endAtomIdx b) (bondType b) (bondDir b) (stereo b) a
    (bprops b) (bquery b).
Definition setBondProp (k : string) (v : PropVal) (b : Bond) : Bond :=
  mkBond (beginAtomIdx b) (endAtomIdx b) (bondType b) (bondDir b) (stereo b)
    (bIsAromatic b) (<[k:=v]> (bprops b)) (bquery b).
Definition setBondQuery (q : Query) (b : Bond) : Bond :=
  mkBond (beginAtomIdx b) (endAtomIdx b) (bondType b) (bondDir b) (stereo b)
    (bIsAromatic b) (bprops b) (Some q).

Definition bondHasQuery (b : Bond) : bool := bool_decide (is_Some (bquery b)).

(** [QueryBond(const Bond &)]: the bond with a query on its bond order. *)
Definition QueryBond_of (b : Bond) : Bond :=
  setBondQuery (makeBondOrderEqualsQuery (bondType b)) b.

Definition expandBondQuery (what : Query) (b : Bond) : Res Bond :=
  match bquery b with
  | Some q => inr (setBondQuery (expandQueryWith "Bond" what COMPOSITE_AND true q) b)
  | None => inl (Invariant "plain bonds have no Query")
  end.

Definition Point3D : Type := Q * Q * Q.
Definition origin : Point3D := (0%Q, 0%Q, 0%Q).

Record Conformer : Type := mkConformer {
  positions : list Point3D;
  is3D : bool
}.

(** [new Conformer(n)] *)
Definition newConformer (n : Z) : Conformer :=
  mkConformer (replicate (Z.to_nat n) origin) true.
Definition set3D (b : bool) (c : Conformer) : Conformer :=
  mkConformer (positions c) b.
(** [conf->setAtomPos(aid, pos)]: the vector grows when [aid] is past its
    end. *)
Definition setAtomPos (aid : Z) (p : Point3D) (c : Conformer) : Conformer :=
  let i := Z.to_nat aid in
  let ps := positions c in
  let ps' :=
    if (List.length ps <=? i)%nat
    then ps ++ replicate (i + 1 - List.length ps) origin else ps in
  mkConformer (<[i:=p]> ps') (is3D c).

Record RWMol : Type := mkMol {
  atoms : list Atom;
  bonds : list Bond;
  conformers : list Conformer;
  mprops : gmap string PropVal;
  atomBookmarks : gmap Z (list nat);
  bondBookmarks : gmap Z (list nat)
}.

(** [new RWMol()] *)
Definition newRWMol : RWMol := mkMol [] [] [] ∅ ∅ ∅.

Definition with_atoms (l : list Atom) (m : RWMol) : RWMol :=
  mkMol l (bonds m) (conformers m) (mprops m) (atomBookmarks m) (bondBookmarks m).
Definition with_bonds (l : list Bond) (m : RWMol) : RWMol :=
  mkMol (atoms m) l (conformers m) (mprops m) (atomBookmarks m) (bondBookmarks m).
Definition with_conformers (l : list Conformer) (m : RWMol) : RWMol :=
  mkMol (atoms m) (bonds m) l (mprops m) (atomBookmarks m) (bondBookmarks m).
Definition with_mprops (p : gmap string PropVal) (m : RWMol) : RWMol :=
  mkMol (atoms m) (bonds m) (conformers m) p (atomBookmarks m) (bondBookmarks m).

Definition getNumAtoms (m : RWMol) : Z := Z.of_nat (List.length (atoms m)).
Definition getNumBonds (m : RWMol) : Z := Z.of_nat (List.length (bonds m)).

Definition setProp (k : string) (v : PropVal) (m : RWMol) : RWMol :=
  with_mprops (<[k:=v]> (mprops m)) m.
Definition hasProp (k : string) (m : RWMol) : bool :=
  bool_decide (is_Some (mprops m !! k)).
Definition clearProp (k : string) (m : RWMol) : RWMol :=
  with_mprops (delete k (mprops m)) m.

(** [RANGE_CHECK(lo, x, hi)] *)
Definition RANGE_CHECK (lo x hi : Z) : Res unit :=
  if (x <? lo) || (hi <? x) then inl (Invariant "Range Error") else inr tt.

(** [PRECONDITION], [POSTCONDITION], [ASSERT_INVARIANT] *)
Definition PRECONDITION (b : bool) (msg : string) : Res unit :=
  if b then inr tt else inl (Invariant msg).

(** Modelled from the spec: [ROMol::getAtomWithIdx] (GraphMol/ROMol, not in
    this file); spec 7 makes "an index out of range" an error.  The index
    is an [unsigned int] and so is the bound [getNumAtoms()-1]. *)
Definition getAtomWithIdx (m : RWMol) (idx : Z) : Res Atom :=
  check RANGE_CHECK 0 idx (wrap_uint (getNumAtoms m - 1)) in
  match atoms m !! Z.to_nat idx with
  | Some a => inr a
  | None => inl (Undefined "vertex out of range")
  end.

(** [mol->getAtomWithIdx(idx)->f(...)]: a setter called through the pointer
    that [getAtomWithIdx] returns. *)
Definition updAtomWithIdx (m : RWMol) (idx : Z) (f : Atom -> Atom) : Res RWMol :=
  let? a := getAtomWithIdx m idx in
  inr (with_atoms (<[Z.to_nat idx := f a]> (atoms m)) m).

(** Modelled from the spec: [RWMol::replaceAtom] (not in this file); spec
    4.4: "The replacement preserves the atom index". *)
Definition replaceAtom (m : RWMol) (idx : Z) (a : Atom) : Res RWMol :=
  check RANGE_CHECK 0 idx (wrap_uint (getNumAtoms m - 1)) in
  match atoms m !! Z.to_nat idx with
  | Some _ => inr (with_atoms (<[Z.to_nat idx := a]> (atoms m)) m)
  | None => inl (Undefined "vertex out of range")
  end.

(** Modelled from the spec: [RWMol::addAtom(atom, false, true)] (not in this
    file): the atom is appended and its index returned; a conformer already
    attached gets a position for it (spec 3: the conformer holds one point
    per atom). *)
Definition addAtom (m : RWMol) (a : Atom) : RWMol * Z :=
  let aid := getNumAtoms m in
  (mkMol (atoms m ++ [a]) (bonds m)
     (map (setAtomPos aid origin) (conformers m))
     (mprops m) (atomBookmarks m) (bondBookmarks m), aid).

Definition sameEnds (b1 b2 : Bond) : bool :=
  (bool_decide (beginAtomIdx b1 = beginAtomIdx b2)
   && bool_decide (endAtomIdx b1 = endAtomIdx b2))
  || (bool_decide (beginAtomIdx b1 = endAtomIdx b2)
      && bool_decide (endAtomIdx b1 = beginAtomIdx b2)).

(** Modelled from the spec: [RWMol::addBond(bond, true)] (not in this file).
    Spec 3 and 8 state the invariants the graph keeps: "Every bond's
    begin/end indices are in-range" and "b.begin ≠ b.end"; the graph holds
    at most one bond between two atoms.  A bond that would break them is
    refused. *)
Definition addBond (m : RWMol) (b : Bond) : Res RWMol :=
  check RANGE_CHECK 0 (beginAtomIdx b) (wrap_uint (getNumAtoms m - 1)) in
  check RANGE_CHECK 0 (endAtomIdx b) (wrap_uint (getNumAtoms m - 1)) in
  check PRECONDITION (negb (bool_decide (beginAtomIdx b = endAtomIdx b)))
              "attempt to add self-bond" in
  check PRECONDITION (negb (existsb (sameEnds b) (bonds m)))
              "bond already exists" in
  inr (with_bonds (bonds m ++ [b]) m).

(** Modelled from the spec: [ROMol::addConformer(conf, true)] (not in this
    file); spec 3: "The conformer's position count equals the atom count". *)
Definition addConformer (m : RWMol) (c : Conformer) : Res RWMol :=
  check PRECONDITION
              (bool_decide (List.length (positions c) = List.length (atoms m)))
              "Number of atom mismatch" in
  inr (with_conformers (conformers m ++ [c]) m).

(** Bookmarks (spec 3): [setAtomBookmark] appends to the list kept under the
    mark, [getAtomWithBookmark] returns the first atom of that list. *)
Definition setAtomBookmark (m : RWMol) (idx : nat) (mark : Z) : RWMol :=
  mkMol (atoms m) (bonds m) (conformers m) (mprops m)
    (<[mark := default [] (atomBookmarks m !! mark) ++ [idx]]> (atomBookmarks m))
    (bondBookmarks m).
Definition getAtomWithBookmark (m : RWMol) (mark : Z) : Res nat :=
  match atomBookmarks m !! mark with
  | Some (i :: _) => inr i
  | _ => inl (Invariant "atom bookmark not found")
  end.
Definition setBondBookmark (m : RWMol) (idx : nat) (mark : Z) : RWMol :=
  mkMol (atoms m) (bonds m) (conformers m) (mprops m) (atomBookmarks m)
    (<[mark := default [] (bondBookmarks m !! mark) ++ [idx]]> (bondBookmarks m)).

(** [atom->getDegree()]: the number of bonds at the atom. *)
Definition getDegree (m : RWMol) (idx : Z) : Z :=
  Z.of_nat (List.length
    (filter (fun b => beginAtomIdx b = idx \/ endAtomIdx b = idx) (bonds m))).

(** ** External collaborators

    The periodic table, the perception code behind the data functions of
    the query leaves and the downstream passes of [MolOps] are taken as
    parameters.  [indet_nSgroups] and [indet_n3DConstraints] are the values
    that the locals [nSgroups] and [n3DConstraints] of [ParseV3000MolBlock]
    hold when they are read without having been assigned, and [castVal] is
    what [getVal()] reads through the [ATOM_EQUALS_QUERY] cast on a node
    that stores no value. *)
Record Externals : Type := mkExternals {
  getAtomicNumber : string -> option Z;
  getAtomicWeight : Z -> Q;
  perceive : DataFunc -> RWMol -> nat -> Z;
  calcExplicitValence : RWMol -> nat -> Z;
  cleanUp : RWMol -> Res RWMol;
  DetectAtomStereoChemistry : RWMol -> Res RWMol;
  removeHs : RWMol -> Res RWMol;
  sanitizeMol : RWMol -> Res RWMol;
  ClearSingleBondDirFlags : RWMol -> Res RWMol;
  DetectBondStereoChemistry : RWMol -> Res RWMol;
  assignStereochemistry : RWMol -> Res RWMol;
  indet_nSgroups : Z;
  indet_n3DConstraints : Z;
  castVal : Z
}.

(** ** V2000 property records *)

Definition string_of_Z (z : Z) : string :=
  DecimalString.NilZero.string_of_int (Z.to_int z).

Definition string_of_char (c : ascii) : string := String c EmptyString.
Definition dquote : string := string_of_char (ascii_of_nat 34).
Definition endl : string := string_of_char (ascii_of_nat 10).

(** The handler [errout << "Cannot convert " << text.substr(pos,n) << " to int"]. *)
Definition cannot_convert (text : string) (pos n : nat) : Res exn :=
  let? f := substr text pos n in
  inr (FileParseException ("Cannot convert " +:+ f +:+ " to int")).

Definition line_too_short (what text : string) : exn :=
  FileParseException (what +:+ " line too short: '" +:+ text +:+ "'").

Section Parser.

Context (E : Externals).

Definition replaceAtomWithQueryAtom (mol : RWMol) (idx : Z) : Res RWMol :=
  let? atom := getAtomWithIdx mol idx in
  if hasQuery atom then inr mol
  else
    let qa := QueryAtom_of atom in
    let? qa :=
      if bool_decide (formalCharge atom ≠ 0)
      then expandAtomQuery (makeAtomFormalChargeQuery (formalCharge atom))
             COMPOSITE_AND true qa
      else inr qa in
    let? qa :=
      if hasAtomProp "_hasMassQuery" atom
      then expandAtomQuery (makeAtomMassQuery (double_to_int (mass atom)))
             COMPOSITE_AND true qa
      else inr qa in
    replaceAtom mol idx qa.

Fixpoint ParseOldAtomList_queries (text : string) (n : nat) (i : nat)
  (a : Atom) (q : Query) : Res (Atom * Query) :=
  match n with
  | O => inr (a, q)
  | S n' =>
      let pos := (11 + i * 4)%nat in
      let? atNum := catch_blc (let? f := substr text pos 3 in toInt f false)
                      (cannot_convert text pos 3) in
      check RANGE_CHECK 0 atNum 200 in
      let q := addChild (makeAtomNumEqualsQuery atNum) q in
      let a := if bool_decide (i = 0%nat) then setAtomicNum atNum a else a in
      ParseOldAtomList_queries text n' (S i) a q
  end.

Definition ParseOldAtomList (mol : RWMol) (text : string) : Res RWMol :=
  let? idx := catch_blc
                (let? f := substr text 0 3 in
                 let? v := stripSpacesAndCast f false in inr (wrap_uint (v - 1)))
                (cannot_convert text 0 3) in
  check RANGE_CHECK 0 idx (wrap_uint (getNumAtoms mol - 1)) in
  let? at0 := getAtomWithIdx mol idx in
  let a := QueryAtom_of at0 in
  let q := setDescription "AtomOr" new_OR_QUERY in
  let? q :=
    if bool_decide (char_at text 4 = "T"%char) then inr (setNegation true q)
    else if bool_decide (char_at text 4 = "F"%char) then inr (setNegation false q)
    else inl (FileParseException
                ("Unrecognized atom-list query modifier: "
                 +:+ string_of_char (char_at text 14))) in
  let? nQueries := catch_blc (let? f := substr text 9 1 in toInt f false)
                     (cannot_convert text 9 1) in
  check RANGE_CHECK 0 nQueries 5 in
  let? '(a, q) := ParseOldAtomList_queries text (Z.to_nat nQueries) 0 a q in
  replaceAtom mol idx (setAtomQuery q a).

Definition resetFormalCharges (mol : RWMol) : RWMol :=
  with_atoms (map (setFormalCharge 0) (atoms mol)) mol.

Fixpoint ParseChargeLine_entries (text : string) (n : nat) (spos : nat)
  (mol : RWMol) : Res RWMol :=
  match n with
  | O => inr mol
  | S n' =>
      let? aid := catch_blc (let? f := substr text spos 4 in toInt f false)
                    (cannot_convert text spos 4) in
      let spos := (spos + 4)%nat in
      let? chg := catch_blc (let? f := substr text spos 4 in toInt f false)
                    (cannot_convert text spos 4) in
      let spos := (spos + 4)%nat in
      let? mol := updAtomWithIdx mol (wrap_uint (aid - 1)) (setFormalCharge chg) in
      ParseChargeLine_entries text n' spos mol
  end.

Definition ParseChargeLine (mol : RWMol) (text : string) (firstCall : bool)
  : Res RWMol :=
  let? beg := substr text 0 6 in
  check PRECONDITION (bool_decide (beg = "M  CHG")) "bad charge line" in
  let mol := if firstCall then resetFormalCharges mol else mol in
  let? nent := catch_blc (let? f := substr text 6 3 in toInt f false)
                 (cannot_convert text 6 3) in
  ParseChargeLine_entries text (Z.to_nat nent) 9 mol.

Fixpoint ParseRadicalLine_entries (text : string) (n : nat) (spos : nat)
  (mol : RWMol) : Res RWMol :=
  match n with
  | O => inr mol
  | S n' =>
      let? aid := catch_blc (let? f := substr text spos 4 in toInt f false)
                    (cannot_convert text spos 4) in
      let spos := (spos + 4)%nat in
      let? rad := catch_blc (let? f := substr text spos 4 in toInt f false)
                    (cannot_convert text spos 4) in
      let spos := (spos + 4)%nat in
      let? mol :=
        match rad with
        | 1 => updAtomWithIdx mol (wrap_uint (aid - 1)) (setNumRadicalElectrons 2)
        | 2 => updAtomWithIdx mol (wrap_uint (aid - 1)) (setNumRadicalElectrons 1)
        | 3 => updAtomWithIdx mol (wrap_uint (aid - 1)) (setNumRadicalElectrons 2)
        | _ => inl (FileParseException
                      ("Unrecognized radical value " +:+ string_of_Z rad
                       +:+ " for atom " +:+ string_of_Z (aid - 1) +:+ endl))
        end in
      ParseRadicalLine_entries text n' spos mol
  end.

Definition ParseRadicalLine (mol : RWMol) (text : string) (firstCall : bool)
  : Res RWMol :=
  let? beg := substr text 0 6 in
  check PRECONDITION (bool_decide (beg = "M  RAD")) "bad charge line" in
  let mol := if firstCall then resetFormalCharges mol else mol in
  let? nent := catch_blc (let? f := substr text 6 3 in toInt f false)
                 (cannot_convert text 6 3) in
  ParseRadicalLine_entries text (Z.to_nat nent) 9 mol.

(** [text.size()>=spos+4 && text.substr(spos,4)!="    "] *)
Definition has_field (text : string) (spos : nat) : Res bool :=
  if (spos + 4 <=? str_size text)%nat then
    let? f := substr text spos 4 in inr (bool_decide (f ≠ "    "))
  else inr false.

Definition read_uint_field (text : string) (spos w : nat) : Res Z :=
  catch_blc (let? f := substr text spos w in stripSpacesAndCast f false)
    (cannot_convert text spos w).

Definition read_int_field (text : string) (spos w : nat) : Res Z :=
  catch_blc (let? f := substr text spos w in toInt f false)
    (cannot_convert text spos w).

Fixpoint ParseIsotopeLine_entries (text : string) (n : nat) (spos : nat)
  (mol : RWMol) : Res RWMol :=
  match n with
  | O => inr mol
  | S n' =>
      let? aid := read_uint_field text spos 4 in
      let spos := (spos + 4)%nat in
      let idx := wrap_uint (aid - 1) in
      let? atom := getAtomWithIdx mol idx in
      let? present := has_field text spos in
      if present then
        let? mass := read_int_field text spos 4 in
        let? mol := updAtomWithIdx mol idx (setMass (inject_Z mass)) in
        ParseIsotopeLine_entries text n' (spos + 4) mol
      else
        let? mol := updAtomWithIdx mol idx
                      (setMass (getAtomicWeight E (atomicNum atom))) in
        ParseIsotopeLine_entries text n' spos mol
  end.

Definition ParseIsotopeLine (mol : RWMol) (text : string) : Res RWMol :=
  let? beg := substr text 0 6 in
  check PRECONDITION (bool_decide (beg = "M  ISO")) "bad isotope line" in
  let? nent := read_uint_field text 6 3 in
  ParseIsotopeLine_entries text (Z.to_nat nent) 9 mol.

(** [if(!atom->hasQuery()) atom=replaceAtomWithQueryAtom(mol,atom);
     atom->expandQuery(q,Queries::COMPOSITE_AND);] *)
Definition addAtomQuery (mol : RWMol) (idx : Z) (q : Query) : Res RWMol :=
  let? atom := getAtomWithIdx mol idx in
  let? mol := if hasQuery atom then inr mol else replaceAtomWithQueryAtom mol idx in
  let? atom := getAtomWithIdx mol idx in
  let? atom := expandAtomQuery q COMPOSITE_AND true atom in
  inr (with_atoms (<[Z.to_nat idx := atom]> (atoms mol)) mol).

Fixpoint ParseSubstitutionCountLine_entries (text : string) (n : nat)
  (spos : nat) (mol : RWMol) : M RWMol :=
  match n with
  | O => ret mol
  | S n' =>
      do aid <- lift (read_uint_field text spos 4);
      let spos := (spos + 4)%nat in
      let idx := wrap_uint (aid - 1) in
      do atom <- lift (getAtomWithIdx mol idx);
      do present <- lift (has_field text spos);
      if present then
        do count <- lift (read_int_field text spos 4);
        if bool_decide (count = 0) then
          ParseSubstitutionCountLine_entries text n' spos mol
        else
          let q := makeAtomExplicitDegreeQuery 0 in
          do q <-
            match count with
            | -1 => ret (setVal 0 q)
            | -2 => ret (setVal (getDegree mol idx) q)
            | 1 | 2 | 3 | 4 | 5 => ret (setVal count q)
            | 6 =>
                exec BOOST_LOG " atom degree query with value 6 found. This will not match degree >6. The MDL spec says it should.";
                ret (setVal 6 q)
            | _ => throw (FileParseException
                            ("Value " +:+ string_of_Z count
                             +:+ " is not supported as a degree query."))
            end;
          do mol <- lift (addAtomQuery mol idx q);
          ParseSubstitutionCountLine_entries text n' (spos + 4) mol
      else ParseSubstitutionCountLine_entries text n' spos mol
  end.

Definition ParseSubstitutionCountLine (mol : RWMol) (text : string) : M RWMol :=
  do beg <- lift (substr text 0 6);
  exec lift (PRECONDITION (bool_decide (beg = "M  SUB")) "bad SUB line");
  do nent <- lift (read_uint_field text 6 3);
  ParseSubstitutionCountLine_entries text (Z.to_nat nent) 9 mol.

Fixpoint ParseUnsaturationLine_entries (text : string) (n : nat) (spos : nat)
  (mol : RWMol) : Res RWMol :=
  match n with
  | O => inr mol
  | S n' =>
      let? aid := read_uint_field text spos 4 in
      let spos := (spos + 4)%nat in
      let idx := wrap_uint (aid - 1) in
      let? atom := getAtomWithIdx mol idx in
      let? present := has_field text spos in
      if present then
        let? count := read_int_field text spos 4 in
        if bool_decide (count = 0) then
          ParseUnsaturationLine_entries text n' spos mol
        else if bool_decide (count = 1) then
          let? mol := addAtomQuery mol idx makeAtomUnsaturatedQuery in
          ParseUnsaturationLine_entries text n' spos mol
        else
          inl (FileParseException
                 ("Value " +:+ string_of_Z count
                  +:+ " is not supported as an unsaturation query (only 0 and 1 are allowed)."))
      else ParseUnsaturationLine_entries text n' spos mol
  end.

Definition ParseUnsaturationLine (mol : RWMol) (text : string) : Res RWMol :=
  let? beg := substr text 0 6 in
  check PRECONDITION (bool_decide (beg = "M  UNS")) "bad UNS line" in
  let? nent := read_uint_field text 6 3 in
  ParseUnsaturationLine_entries text (Z.to_nat nent) 9 mol.

Fixpoint ParseRingBondCountLine_entries (text : string) (n : nat) (spos : nat)
  (mol : RWMol) : Res RWMol :=
  match n with
  | O => inr mol
  | S n' =>
      let? aid := read_uint_field text spos 4 in
      let spos := (spos + 4)%nat in
      let idx := wrap_uint (aid - 1) in
      let? atom := getAtomWithIdx mol idx in
      let? present := has_field text spos in
      if present then
        let? count := read_int_field text spos 4 in
        if bool_decide (count = 0) then
          ParseRingBondCountLine_entries text n' spos mol
        else
          let q := makeAtomRingBondCountQuery 0 in
          let? '(q, mol) :=
            match count with
            | -1 => inr (setVal 0 q, mol)
            | -2 => inr (setVal MAGIC q, setProp "_NeedsQueryScan" (PInt 1) mol)
            | 1 | 2 | 3 => inr (setVal count q, mol)
            | 4 =>
                inr (setDataFunc queryAtomRingBondCount
                       (setDescription "AtomRingBondCount"
                          (setVal 4 new_LESSEQUAL_QUERY)), mol)
            | _ => inl (FileParseException
                          ("Value " +:+ string_of_Z count
                           +:+ " is not supported as a ring-bond count query."))
            end in
          let? mol := addAtomQuery mol idx q in
          ParseRingBondCountLine_entries text n' (spos + 4) mol
      else ParseRingBondCountLine_entries text n' spos mol
  end.

Definition ParseRingBondCountLine (mol : RWMol) (text : string) : Res RWMol :=
  let? beg := substr text 0 6 in
  check PRECONDITION (bool_decide (beg = "M  RBC")) "bad RBC line" in
  let? nent := read_uint_field text 6 3 in
  ParseRingBondCountLine_entries text (Z.to_nat nent) 9 mol.

(** [atSymb.erase(atSymb.find(" "), atSymb.size())] *)
Definition erase_from_space (s : string) : Res string :=
  match find_char " "%char (s2l s) with
  | Some k => inr (l2s (take k (s2l s)))
  | None => inl out_of_range
  end.

(** [PeriodicTable::getTable()->getAtomicNumber(symb)] *)
Definition lookupAtomicNumber (symb : string) : Res Z :=
  match getAtomicNumber E symb with
  | Some n => inr n
  | None => inl (Invariant ("Element '" +:+ symb +:+ "' not found"))
  end.

Fixpoint ParseNewAtomList_queries (mol : RWMol) (idx : Z) (text : string)
  (n : nat) (i : nat) (a : option Atom) : Res (option Atom) :=
  match n with
  | O => inr a
  | S n' =>
      let pos := (16 + i * 4)%nat in
      if (str_size text <? pos + 4)%nat then inl (line_too_short "Atom list" text)
      else
        let? atSymb := substr text pos 4 in
        let? atSymb := erase_from_space atSymb in
        let? atNum := lookupAtomicNumber atSymb in
        let? a :=
          if bool_decide (i = 0%nat) then
            let? at0 := getAtomWithIdx mol idx in
            inr (Some (setAtomicNum atNum (QueryAtom_of at0)))
          else
            match a with
            | Some a =>
                let? a := expandAtomQuery (makeAtomNumEqualsQuery atNum)
                            COMPOSITE_OR true a in
                inr (Some a)
            | None => inl (Undefined "null atom")
            end in
        ParseNewAtomList_queries mol idx text n' (S i) a
  end.

Definition ParseNewAtomList (mol : RWMol) (text : string) : Res RWMol :=
  if (str_size text <? 15)%nat then inl (line_too_short "Atom list" text)
  else
    let? beg := substr text 0 6 in
    check PRECONDITION (bool_decide (beg = "M  ALS")) "bad atom list line" in
    let? idx := catch_blc
                  (let? f := substr text 7 3 in
                   let? v := stripSpacesAndCast f false in inr (wrap_uint (v - 1)))
                  (cannot_convert text 7 3) in
    check RANGE_CHECK 0 idx (wrap_uint (getNumAtoms mol - 1)) in
    let? nQueries := read_int_field text 10 3 in
    check PRECONDITION (0 <? nQueries) "no queries provided" in
    let? a := ParseNewAtomList_queries mol idx text
                (Z.to_nat (wrap_uint nQueries)) 0 None in
    match a with
    | None => inl (Invariant "no atom built")
    | Some a =>
        let? q :=
          match aquery a with
          | Some q => inr q
          | None => inl (Undefined "null query")
          end in
        let? q :=
          if bool_decide (char_at text 14 = "T"%char) then inr (setNegation true q)
          else if bool_decide (char_at text 14 = "F"%char)
               then inr (setNegation false q)
          else inl (FileParseException
                      ("Unrecognized atom-list query modifier: "
                       +:+ string_of_char (char_at text 14))) in
        replaceAtom mol idx (setAtomQuery q a)
    end.

Fixpoint ParseRGroupLabels_labels (text : string) (n : nat) (i : nat)
  (mol : RWMol) : Res RWMol :=
  match n with
  | O => inr mol
  | S n' =>
      let pos := (10 + i * 8)%nat in
      let? atIdx := read_uint_field text pos 3 in
      let? rLabel := read_uint_field text (pos + 4) 3 in
      let atIdx := wrap_uint (atIdx - 1) in
      if getNumAtoms mol <? atIdx then
        inl (FileParseException
               ("Attempt to set R group label on nonexistent atom "
                +:+ string_of_Z atIdx))
      else
        let? at0 := getAtomWithIdx mol atIdx in
        let qatom := QueryAtom_of at0 in
        let qatom := setAtomProp "_MolFileRLabel" (PInt rLabel) qatom in
        let qatom :=
          if (0 <? rLabel) && (rLabel <? 999)
          then setMass (inject_Z rLabel) qatom else qatom in
        let qatom := setAtomQuery makeAtomNullQuery qatom in
        let? mol := replaceAtom mol atIdx qatom in
        ParseRGroupLabels_labels text n' (S i) mol
  end.

Definition ParseRGroupLabels (mol : RWMol) (text : string) : Res RWMol :=
  let? beg := substr text 0 6 in
  check PRECONDITION (bool_decide (beg = "M  RGP")) "bad R group label line" in
  let? nLabels := read_int_field text 6 3 in
  ParseRGroupLabels_labels text (Z.to_nat nLabels) 0 mol.

Definition ParseAtomAlias (mol : RWMol) (text nextLine : string) : Res RWMol :=
  let? beg := substr text 0 2 in
  check PRECONDITION (bool_decide (beg = "A ")) "bad atom alias line" in
  let? idx := catch_blc
                (let? f := substr text 3 3 in
                 let? v := stripSpacesAndCast f false in inr (wrap_uint (v - 1)))
                (cannot_convert text 3 3) in
  check RANGE_CHECK 0 idx (wrap_uint (getNumAtoms mol - 1)) in
  updAtomWithIdx mol idx (setAtomProp "molFileAlias" (PStr nextLine)).

Definition ParseAtomValue (mol : RWMol) (text : string) : Res RWMol :=
  let? beg := substr text 0 2 in
  check PRECONDITION (bool_decide (beg = "V ")) "bad atom value line" in
  let? idx := catch_blc
                (let? f := substr text 3 3 in
                 let? v := stripSpacesAndCast f false in inr (wrap_uint (v - 1)))
                (cannot_convert text 3 3) in
  check RANGE_CHECK 0 idx (wrap_uint (getNumAtoms mol - 1)) in
  check getAtomWithIdx mol idx in
  let? v := substr text 7 (str_size text - 7) in
  updAtomWithIdx mol idx (setAtomProp "molFileValue" (PStr v)).

(** ** Reading lines *)

Definition strip_cr (s : string) : string :=
  match rev (s2l s) with
  | "013"%char :: r => l2s (rev r)
  | _ => s
  end.

(** [getLine(inStream)]: [std::getline], then a trailing carriage return is
    dropped.  Reading the text after the last newline sets [eofbit]; a
    stream whose [eofbit] is set yields the empty string. *)
Definition getLine : M string :=
  fun st =>
    let s := inStream st in
    if eofbit s then (st, inr "")
    else
      match pending s with
      | l :: ls =>
          (mkSt (mkStream ls (rest s) false) (line st) (rdWarningLog st),
           inr (strip_cr l))
      | [] =>
          (mkSt (mkStream [] "" true) (line st) (rdWarningLog st),
           inr (strip_cr (rest s)))
      end.

Definition eof : M bool := fun st => (st, inr (eofbit (inStream st))).

(** [++line] on the [unsigned int &line] *)
Definition incr_line : M unit :=
  fun st => (mkSt (inStream st) (wrap_uint (line st + 1)) (rdWarningLog st), inr tt).

Definition get_line_no : M Z := fun st => (st, inr (line st)).

(** The number of reads after which the stream is certainly at its end. *)
Definition lines_left (st : St) : nat :=
  if eofbit (inStream st) then 0%nat else S (List.length (pending (inStream st))).

(** ** V2000 atom and bond lines *)

(** An optional fixed-width field: read only when the line is long enough
    and the text differs from the all-zero placeholder. *)
Definition optIntField (text : string) (lo w : nat) (zero : string)
  : Res (option Z) :=
  if (lo + w <=? str_size text)%nat then
    let? f := substr text lo w in
    if bool_decide (f ≠ zero) then
      let? v := catch_blc (toInt f true) (cannot_convert text lo w) in
      inr (Some v)
    else inr None
  else inr None.

Definition setOptProp (k : string) (v : option Z) (a : Atom) : Atom :=
  match v with
  | Some z => setAtomProp k (PInt z) a
  | None => a
  end.

Definition str_in (s : string) (l : list string) : bool :=
  existsb (String.eqb s) l.

Definition R_mass (symb : string) (a : Atom) : Atom :=
  if String.eqb symb "R1" then setMass 1 a
  else if String.eqb symb "R2" then setMass 2 a
  else if String.eqb symb "R3" then setMass 3 a
  else if String.eqb symb "R4" then setMass 4 a
  else if String.eqb symb "R5" then setMass 5 a
  else if String.eqb symb "R6" then setMass 6 a
  else if String.eqb symb "R7" then setMass 7 a
  else if String.eqb symb "R8" then setMass 8 a
  else if String.eqb symb "R9" then setMass 9 a
  else a.

(** The query atoms for the symbols [*], [Q] and [A]. *)
Definition wildcardAtom (symb : string) : Atom :=
  let query := QueryAtom_num 0 in
  let query :=
    if String.eqb symb "*" then setAtomQuery makeAtomNullQuery query
    else if String.eqb symb "Q" then
      setAtomQuery
        (addChild (makeAtomNumEqualsQuery 1)
           (addChild (makeAtomNumEqualsQuery 6)
              (setNegation true (setDescription "AtomOr" new_OR_QUERY))))
        query
    else if String.eqb symb "A" then
      setAtomQuery (setNegation true (makeAtomNumEqualsQuery 1)) query
    else query in
  setNoImplicit true query.

Definition ParseMolFileAtomLine (text : string) : Res (Atom * Point3D) :=
  let res := newAtom in
  if (str_size text <? 34)%nat then inl (line_too_short "Atom" text)
  else
    let? pos :=
      catch_blc
        (let? fx := substr text 0 10 in
         let? x := toDouble fx true in
         let? fy := substr text 10 10 in
         let? y := toDouble fy true in
         let? fz := substr text 20 10 in
         let? z := toDouble fz true in
         inr (x, y, z))
        (inr (FileParseException "Cannot process coordinates.")) in
    let? symb := substr text 31 3 in
    let symb :=
      match find_char " "%char (s2l symb) with
      | Some k => l2s (take k (s2l symb))
      | None => symb
      end in
    let? massDiff := optIntField text 34 2 " 0" in
    let massDiff := default 0 massDiff in
    let? chg := optIntField text 36 3 "  0" in
    let chg := default 0 chg in
    let? hCount := optIntField text 42 3 "  0" in
    let hCount := default 0 hCount in
    let? res :=
      if str_in symb ["L"; "A"; "Q"; "*"; "LP"; "R"; "R#"]
         || (String.leb "R0" symb && String.leb symb "R9") then
        let res :=
          if str_in symb ["A"; "Q"; "*"] then wildcardAtom symb
          else setAtomicNum 0 res in
        let res :=
          if bool_decide (massDiff = 0) && bool_decide (char_at symb 0 = "R"%char)
          then R_mass symb res else res in
        inr res
      else if String.eqb symb "D" then
        inr (setMass (2014 # 1000) (setAtomicNum 1 res))
      else if String.eqb symb "T" then
        inr (setMass (3016 # 1000) (setAtomicNum 1 res))
      else
        let? n := lookupAtomicNumber symb in
        inr (setMass (getAtomicWeight E n) (setAtomicNum n res)) in
    let res := if bool_decide (chg ≠ 0) then setFormalCharge (4 - chg) res else res in
    let res := if bool_decide (hCount = 1) then setNoImplicit true res else res in
    let res :=
      if bool_decide (massDiff ≠ 0) then
        setAtomProp "_hasMassQuery" (PBool true)
          (setMass (Qred (mass res + inject_Z massDiff)) res)
      else res in
    let? parity := optIntField text 39 3 "  0" in
    let res := setOptProp "molParity" parity res in
    let? stereoCare := optIntField text 45 3 "  0" in
    let res := setOptProp "molStereoCare" stereoCare res in
    let? totValence := optIntField text 48 3 "  0" in
    let res := setOptProp "molTotValence" totValence res in
    let? atomMapNumber := optIntField text 60 3 "  0" in
    let res := setOptProp "molAtomMapNumber" atomMapNumber res in
    let? inversionFlag := optIntField text 63 3 "  0" in
    let res := setOptProp "molInversionFlag" inversionFlag res in
    let? exactChangeFlag := optIntField text 66 3 "  0" in
    let res := setOptProp "molExactChangeFlag" exactChangeFlag res in
    inr (res, pos).

(** The bond-type switch of [ParseMolFileBondLine] and of the V3000 bond
    block: the fresh bond (or query bond) for a wire bond type. *)
Definition bondOrQuery (d1 d2 : BondType) : Query :=
  setDescription "BondOr"
    (addChild (makeBondOrderEqualsQuery d2)
       (addChild (makeBondOrderEqualsQuery d1) new_OR_QUERY)).

Definition bondOfType (bType : Z) : M Bond :=
  match bType with
  | 1 => ret (setBondType SINGLE newBond)
  | 2 => ret (setBondType DOUBLE newBond)
  | 3 => ret (setBondType TRIPLE newBond)
  | 4 => ret (setBondType AROMATIC newBond)
  | 0 =>
      exec BOOST_LOG ("bond with order 0 found. This is not part of the MDL specification."
                      +:+ endl);
      ret (setBondType UNSPECIFIED newBond)
  | 8 => ret (setBondQuery makeBondNullQuery newQueryBond)
  | 5 => ret (setBondQuery (bondOrQuery SINGLE DOUBLE) newQueryBond)
  | 6 => ret (setBondQuery (bondOrQuery SINGLE AROMATIC) newQueryBond)
  | 7 => ret (setBondQuery (bondOrQuery DOUBLE AROMATIC) newQueryBond)
  | _ =>
      exec BOOST_LOG ("unrecognized query bond type, " +:+ string_of_Z bType
                      +:+ ", found. Using an " +:+ dquote +:+ "any" +:+ dquote
                      +:+ " query." +:+ endl);
      ret (setBondQuery makeBondNullQuery newQueryBond)
  end.

Definition stereoSwitch (stereo : Z) (res : Bond) : Bond :=
  match stereo with
  | 0 => setBondDir NONE res
  | 1 => setBondDir BEGINWEDGE res
  | 6 => setBondDir BEGINDASH res
  | 3 => setStereo STEREOANY (setBondDir EITHERDOUBLE res)
  | 4 => setBondDir UNKNOWN res
  | _ => res
  end.

(** [try { m } catch (boost::bad_lexical_cast) { ; }] for a step that
    updates the bond under construction. *)
Definition swallow_blc (m : Res Bond) (res : Bond) : Res Bond :=
  match m with
  | inl bad_lexical_cast => inr res
  | r => r
  end.

(** [text.size() >= lo+3 && text.substr(lo,3) != "  0"] *)
Definition bondField (text : string) (lo : nat) : Res (option string) :=
  if (lo + 3 <=? str_size text)%nat then
    let? f := substr text lo 3 in
    inr (if bool_decide (f ≠ "  0") then Some f else None)
  else inr None.

Definition bondStereo (text : string) (res : Bond) : Res Bond :=
  let? f := bondField text 9 in
  match f with
  | Some f =>
      swallow_blc (let? stereo := toInt f false in inr (stereoSwitch stereo res)) res
  | None => inr res
  end.

Definition bondTopology (text : string) (res : Bond) : Res Bond :=
  let? f := bondField text 15 in
  match f with
  | Some f =>
      swallow_blc
        (let? topology := toInt f false in
         let qBond := QueryBond_of res in
         let q := makeBondIsInRingQuery in
         let? q :=
           match topology with
           | 1 => inr q
           | 2 => inr (setNegation true q)
           | _ => inl (FileParseException
                         ("Unrecognized bond topology specifier: "
                          +:+ string_of_Z topology))
           end in
         expandBondQuery q qBond) res
  | None => inr res
  end.

Definition bondReactStatus (text : string) (res : Bond) : Res Bond :=
  let? f := bondField text 18 in
  match f with
  | Some f =>
      swallow_blc
        (let? reactStatus := toInt f false in
         inr (setBondProp "molReactStatus" (PInt reactStatus) res)) res
  | None => inr res
  end.

(** The optional fields that follow the bond type: stereo, topology and
    reacting-centre status. *)
Definition bondTail (text : string) (res : Bond) : Res Bond :=
  let? res := bondStereo text res in
  let? res := bondTopology text res in
  bondReactStatus text res.

Definition ParseMolFileBondLine (text : string) : M Bond :=
  if (str_size text <? 9)%nat then throw (line_too_short "Bond" text)
  else
    do idx1 <- lift (read_int_field text 0 3);
    do idx2 <- lift (read_int_field text 3 3);
    do bType <- lift (read_int_field text 6 3);
    let idx1 := idx1 - 1 in
    let idx2 := idx2 - 1 in
    do res <- bondOfType bType;
    let type :=
      match bType with
      | 1 => SINGLE | 2 => DOUBLE | 3 => TRIPLE | 4 => AROMATIC
      | _ => UNSPECIFIED
      end in
    let res := setBeginAtomIdx (wrap_uint idx1) res in
    let res := setEndAtomIdx (wrap_uint idx2) res in
    let res := setBondType type res in
    lift (bondTail text res).

(** ** V2000 blocks *)

Fixpoint ParseMolBlockAtoms (nAtoms : nat) (mol : RWMol) (conf : Conformer)
  : M (RWMol * Conformer) :=
  match nAtoms with
  | O => ret (mol, conf)
  | S n =>
      exec incr_line;
      do tempStr <- getLine;
      do atEnd <- eof;
      if atEnd then throw (FileParseException "EOF hit while reading atoms")
      else
        do ap <- lift (ParseMolFileAtomLine tempStr);
        let '(mol, aid) := addAtom mol (fst ap) in
        ParseMolBlockAtoms n mol (setAtomPos aid (snd ap) conf)
  end.

Fixpoint ParseMolBlockBonds (nBonds : nat) (mol : RWMol)
  (chiralityPossible : bool) : M (RWMol * bool) :=
  match nBonds with
  | O => ret (mol, chiralityPossible)
  | S n =>
      exec incr_line;
      do tempStr <- getLine;
      do atEnd <- eof;
      if atEnd then throw (FileParseException "EOF hit while reading bonds")
      else
        do bond <- ParseMolFileBondLine tempStr;
        do bm <- lift
          (match bondType bond with
           | AROMATIC =>
               let bond := setBondIsAromatic true bond in
               let? mol := updAtomWithIdx mol (beginAtomIdx bond) (setIsAromatic true) in
               let? mol := updAtomWithIdx mol (endAtomIdx bond) (setIsAromatic true) in
               inr (bond, mol)
           | _ => inr (bond, mol)
           end);
        let '(bond, mol) := bm in
        let chiralityPossible :=
          match bondDir bond with
          | NONE | UNKNOWN => chiralityPossible
          | _ => true
          end in
        do mol <- lift (addBond mol bond);
        ParseMolBlockBonds n mol chiralityPossible
  end.

(** The state of the loop of [ParseMolBlockProperties]. *)
Record PropState : Type := mkPropState {
  ps_mol : RWMol;
  ps_tempStr : string;
  ps_firstChargeLine : bool
}.

Definition lineBeg (tempStr : string) : string := l2s (take 6 (s2l tempStr)).

(** [!inStream->eof() && lineBeg!="M  END" && tempStr.substr(0,4)!="$$$$"] *)
Definition props_continue (st : St) (ps : PropState) : bool :=
  negb (eofbit (inStream st))
  && negb (String.eqb (lineBeg (ps_tempStr ps)) "M  END")
  && negb (String.eqb (l2s (take 4 (s2l (ps_tempStr ps)))) "$$$$").

(** One turn of the loop: dispatch on the record, then read the next line. *)
Definition props_dispatch (ps : PropState) : M (RWMol * bool) :=
  let mol := ps_mol ps in
  let tempStr := ps_tempStr ps in
  let first := ps_firstChargeLine ps in
  let beg := lineBeg tempStr in
  if bool_decide (char_at tempStr 0 = "A"%char) then
    exec incr_line;
    do nextLine <- getLine;
    if negb (String.eqb beg "M  END") then
      do mol <- lift (ParseAtomAlias mol tempStr nextLine); ret (mol, first)
    else ret (mol, first)
  else if bool_decide (char_at tempStr 0 = "G"%char) then
    exec BOOST_LOG (" deprecated group abbreviation ignored" +:+ endl);
    ret (mol, first)
  else if bool_decide (char_at tempStr 0 = "V"%char) then
    do mol <- lift (ParseAtomValue mol tempStr); ret (mol, first)
  else if String.eqb beg "S  SKP" then ret (mol, first)
  else if String.eqb beg "M  ALS" then
    do mol <- lift (ParseNewAtomList mol tempStr); ret (mol, first)
  else if String.eqb beg "M  ISO" then
    do mol <- lift (ParseIsotopeLine mol tempStr); ret (mol, first)
  else if String.eqb beg "M  RGP" then
    do mol <- lift (ParseRGroupLabels mol tempStr); ret (mol, first)
  else if String.eqb beg "M  RBC" then
    do mol <- lift (ParseRingBondCountLine mol tempStr); ret (mol, first)
  else if String.eqb beg "M  SUB" then
    do mol <- ParseSubstitutionCountLine mol tempStr; ret (mol, first)
  else if String.eqb beg "M  UNS" then
    do mol <- lift (ParseUnsaturationLine mol tempStr); ret (mol, first)
  else if String.eqb beg "M  CHG" then
    do mol <- lift (ParseChargeLine mol tempStr first); ret (mol, false)
  else if String.eqb beg "M  RAD" then
    do mol <- lift (ParseRadicalLine mol tempStr first); ret (mol, false)
  else ret (mol, first).

Definition props_step (ps : PropState) : M PropState :=
  do mf <- props_dispatch ps;
  exec incr_line;
  do tempStr <- getLine;
  ret (mkPropState (fst mf) tempStr (snd mf)).

Fixpoint props_loop (fuel : nat) (ps : PropState) : M PropState :=
  fun st =>
    if props_continue st ps then
      match fuel with
      | O => (st, inl OutOfFuel)
      | S fuel' => bind (props_step ps) (props_loop fuel') st
      end
    else (st, inr ps).

Definition props_start (mol : RWMol) : M PropState :=
  do tempStr <- getLine;
  exec incr_line;
  do mol <-
    (let c := char_at tempStr 0 in
     if negb (bool_decide (c = "M"%char)) && negb (bool_decide (c = "A"%char))
        && negb (bool_decide (c = "V"%char)) && negb (bool_decide (c = "G"%char))
     then lift (ParseOldAtomList mol tempStr) else ret mol);
  ret (mkPropState mol tempStr true).

(** The loop of [ParseMolBlockProperties] together with its final state. *)
Definition ParseMolBlockProperties_run (mol : RWMol) : M PropState :=
  do ps <- props_start mol;
  fun st => props_loop (lines_left st) ps st.

Definition props_complete (ps : PropState) : bool :=
  bool_decide (char_at (ps_tempStr ps) 0 = "M"%char)
  && String.eqb (lineBeg (ps_tempStr ps)) "M  END".

Definition ParseMolBlockProperties (mol : RWMol) : M (bool * RWMol) :=
  do ps <- ParseMolBlockProperties_run mol;
  ret (props_complete ps, ps_mol ps).

(** ** V3000 *)

Definition starts_with (pre s : string) : bool :=
  String.eqb (l2s (take (str_size pre) (s2l s))) pre.

(** [tempStr.length()<n || tempStr.substr(0,n) != pre], with [n] the length
    of [pre]. *)
Definition lacks_prefix (pre s : string) : bool :=
  (str_size s <? str_size pre)%nat || negb (starts_with pre s).

Definition not_V30 {A : Type} : M A :=
  do l <- get_line_no;
  throw (FileParseException
           ("Line " +:+ string_of_Z l +:+ " does not start with 'M  V30 '" +:+ endl)).

Definition ends_with_dash (s : string) : bool :=
  bool_decide (char_at s (str_size s - 1) = "-"%char).

Fixpoint getV3000Line_join (fuel : nat) (res tempStr : string) : M string :=
  if ends_with_dash tempStr then
    match fuel with
    | O => throw OutOfFuel
    | S fuel' =>
        let res := res +:+ l2s (take (str_size tempStr - 8) (drop 7 (s2l tempStr))) in
        exec incr_line;
        do tempStr <- getLine;
        if lacks_prefix "M  V30 " tempStr then not_V30
        else getV3000Line_join fuel' res tempStr
    end
  else ret (res +:+ l2s (drop 7 (s2l tempStr))).

Definition getV3000Line : M string :=
  exec incr_line;
  do tempStr <- getLine;
  if lacks_prefix "M  V30 " tempStr then not_V30
  else fun st => getV3000Line_join (lines_left st) "" tempStr st.

(** [boost::tokenizer<boost::escaped_list_separator<char> >] with no escape
    character, the separators space and tab, and the single and the double
    quote as quote characters. *)
Definition is_quote (c : ascii) : bool :=
  bool_decide (c = "'"%char) || bool_decide (c = ascii_of_nat 34).

Fixpoint tokens_aux (cur : list ascii) (inQuote : bool) (l : list ascii)
  : list string :=
  match l with
  | [] => [l2s (rev cur)]
  | c :: l' =>
      if is_any_of " 	" c then
        if inQuote then tokens_aux (c :: cur) inQuote l'
        else l2s (rev cur) :: tokens_aux [] false l'
      else if is_quote c then tokens_aux cur (negb inQuote) l'
      else tokens_aux (c :: cur) inQuote l'
  end.

Definition tokenize (s : string) : list string :=
  match s2l s with
  | [] => []
  | l => tokens_aux [] false l
  end.

Fixpoint atomListQuery (syms : list string) (res : option Atom)
  : Res (option Atom) :=
  match syms with
  | [] => inr res
  | sym :: syms' =>
      let atSymb := trim_copy sym in
      if String.eqb atSymb "" then atomListQuery syms' res
      else
        let? atNum := lookupAtomicNumber atSymb in
        let? res :=
          match res with
          | None => inr (Some (QueryAtom_num atNum))
          | Some a =>
              let? a := expandAtomQuery (makeAtomNumEqualsQuery atNum)
                          COMPOSITE_OR true a in
              inr (Some a)
          end in
        atomListQuery syms' res
  end.

Definition ParseV3000AtomSymbol (token : string) (negate : bool) (line : Z)
  : Res Atom :=
  if bool_decide (char_at token 0 = "["%char) then
    if negb (bool_decide (char_at token (str_size token - 1) = "]"%char)) then
      inl (FileParseException
             ("Bad atom token '" +:+ token +:+ "' on line: " +:+ string_of_Z line))
    else
      let? token := substr token 1 (str_size token - 2) in
      let splitToken := boost_split (is_any_of ",") token in
      let? res := atomListQuery splitToken None in
      match res with
      | Some a =>
          match aquery a with
          | Some q => inr (setAtomQuery (setNegation negate q) a)
          | None => inl (Undefined "null query")
          end
      | None => inl (Undefined "null atom")
      end
  else if negate then
    inl (FileParseException "NOT tokens only supported for atom lists")
  else if str_in token ["R#"; "A"; "Q"; "*"] then
    if str_in token ["A"; "Q"; "*"] then inr (wildcardAtom token)
    else inl (Undefined "null atom")
  else if String.eqb token "D" then
    inr (setMass (2014 # 1000) (setAtomicNum 1 newAtom))
  else if String.eqb token "T" then
    inr (setMass (3016 # 1000) (setAtomicNum 1 newAtom))
  else
    let? n := lookupAtomicNumber token in
    inr (setMass (getAtomicWeight E n) (setAtomicNum n newAtom)).

Definition splitAssignToken (token : string) : option (string * string) :=
  match boost_split (is_any_of "=") token with
  | [prop; val] => Some (to_upper prop, val)
  | _ => None
  end.

(** [atom->expandQuery(q)] on the atom of the molecule. *)
Definition expandQueryAt (mol : RWMol) (idx : Z) (q : Query) : Res RWMol :=
  let? atom := getAtomWithIdx mol idx in
  let? atom := expandAtomQuery q COMPOSITE_AND true atom in
  inr (with_atoms (<[Z.to_nat idx := atom]> (atoms mol)) mol).

(** [if(!atom->hasQuery()) atom=replaceAtomWithQueryAtom(mol,atom);] *)
Definition promote (mol : RWMol) (idx : Z) : Res RWMol :=
  let? atom := getAtomWithIdx mol idx in
  if hasQuery atom then inr mol else replaceAtomWithQueryAtom mol idx.

Definition atomPropError (what val : string) (idx : Z) : exn :=
  FileParseException
    (what +:+ val +:+ " for atom " +:+ string_of_Z (idx + 1) +:+ endl).

Definition ParseV3000AtomProp (mol : RWMol) (idx : Z) (prop val : string)
  : Res RWMol :=
  if String.eqb prop "CHG" then
    let? charge := toInt val false in
    let? atom := getAtomWithIdx mol idx in
    if negb (hasQuery atom) then updAtomWithIdx mol idx (setFormalCharge charge)
    else expandQueryAt mol idx (makeAtomFormalChargeQuery charge)
  else if String.eqb prop "RAD" then
    let? rad := toInt val false in
    match rad with
    | 0 => inr mol
    | 1 => updAtomWithIdx mol idx (setNumRadicalElectrons 2)
    | 2 => updAtomWithIdx mol idx (setNumRadicalElectrons 1)
    | 3 => updAtomWithIdx mol idx (setNumRadicalElectrons 2)
    | _ => inl (atomPropError "Unrecognized RAD value " val idx)
    end
  else if String.eqb prop "MASS" then
    let? v := toDouble val true in
    if Qle_bool v 0 then inl (atomPropError "Bad value for MASS :" val idx)
    else
      let? atom := getAtomWithIdx mol idx in
      if negb (hasQuery atom) then updAtomWithIdx mol idx (setMass v)
      else expandQueryAt mol idx (makeAtomMassQuery (double_to_int v))
  else if String.eqb prop "CFG" then
    let? cfg := toInt val false in
    match cfg with
    | 0 => inr mol
    | 1 | 2 | 3 => updAtomWithIdx mol idx (setAtomProp "molParity" (PInt cfg))
    | _ => inl (atomPropError "Unrecognized CFG value : " val idx)
    end
  else if String.eqb prop "HCOUNT" then
    if negb (String.eqb val "0") then
      let? hcount := toInt val false in
      let? mol := promote mol idx in
      let hcount := if bool_decide (hcount = -1) then 0 else hcount in
      expandQueryAt mol idx (makeAtomHCountQuery hcount)
    else inr mol
  else if String.eqb prop "UNSAT" then
    if String.eqb val "1" then
      let? mol := promote mol idx in
      expandQueryAt mol idx makeAtomUnsaturatedQuery
    else inr mol
  else if String.eqb prop "RBCNT" then
    if negb (String.eqb val "0") then
      let? rbcount := toInt val false in
      let? mol := promote mol idx in
      let rbcount := if bool_decide (rbcount = -1) then 0 else rbcount in
      expandQueryAt mol idx (makeAtomRingBondCountQuery rbcount)
    else inr mol
  else if String.eqb prop "AAMAP" then
    if negb (String.eqb val "0") then
      let? mapno := toInt val false in
      updAtomWithIdx mol idx (setAtomProp "molAtomMapNumber" (PInt mapno))
    else inr mol
  else inr mol.

Fixpoint ParseV3000AtomProps (mol : RWMol) (idx : Z) (tokens : list string)
  : Res RWMol :=
  match tokens with
  | [] => inr mol
  | token :: tokens' =>
      match splitAssignToken token with
      | None => inl (atomPropError "Invalid atom property: " token idx)
      | Some (prop, val) =>
          let? mol := ParseV3000AtomProp mol idx prop val in
          ParseV3000AtomProps mol idx tokens'
      end
  end.

Definition badAtomLine (tempStr : string) : exn :=
  FileParseException ("Bad atom line : '" +:+ tempStr +:+ "'").

(** One record of the atom block. *)
Definition ParseV3000AtomLine (tempStr : string) (line : Z) (mol : RWMol)
  (conf : Conformer) : Res (RWMol * Conformer) :=
  let trimmed := trim_copy tempStr in
  match tokenize trimmed with
  | [] => inl (badAtomLine tempStr)
  | t0 :: ts =>
      let molIdx := wrap_uint (atoi t0) in
      let? '(negate, ts) :=
        match ts with
        | [] => inl (badAtomLine tempStr)
        | t :: ts' =>
            if String.eqb t "NOT" then
              match ts' with
              | [] => inl (badAtomLine tempStr)
              | _ => inr (true, ts')
              end
            else inr (false, ts)
        end in
      match ts with
      | symb :: ts =>
          let? atom := ParseV3000AtomSymbol symb negate line in
          match ts with
          | tx :: ty :: tz :: tm :: ts =>
              let pos := (atof tx, atof ty, atof tz) in
              let mapNum := atoi tm in
              let atom := setAtomProp "molAtomMapNumber" (PInt mapNum) atom in
              let '(mol, aid) := addAtom mol atom in
              let? mol := ParseV3000AtomProps mol aid ts in
              let mol := setAtomBookmark mol (Z.to_nat aid) (wrap_int molIdx) in
              inr (mol, setAtomPos aid pos conf)
          | _ => inl (badAtomLine tempStr)
          end
      | [] => inl (badAtomLine tempStr)
      end
  end.

Fixpoint ParseV3000AtomBlock_atoms (n : nat) (mol : RWMol) (conf : Conformer)
  : M (RWMol * Conformer) :=
  match n with
  | O => ret (mol, conf)
  | S n' =>
      do tempStr <- getV3000Line;
      do l <- get_line_no;
      do mc <- lift (ParseV3000AtomLine tempStr l mol conf);
      ParseV3000AtomBlock_atoms n' (fst mc) (snd mc)
  end.

(** [if(mol->hasProp("_2DConf")) ... else if(mol->hasProp("_3DConf")) ...] *)
Definition setDimension (mol : RWMol) (conf : Conformer) : RWMol * Conformer :=
  if hasProp "_2DConf" mol then (clearProp "_2DConf" mol, set3D false conf)
  else if hasProp "_3DConf" mol then (clearProp "_3DConf" mol, set3D true conf)
  else (mol, conf).

Definition ParseV3000AtomBlock (nAtoms : Z) (mol : RWMol) (conf : Conformer)
  : M (RWMol * Conformer) :=
  exec lift (PRECONDITION (0 <? nAtoms) "bad atom count");
  do tempStr <- getV3000Line;
  if lacks_prefix "BEGIN ATOM" tempStr
  then throw (FileParseException "BEGIN ATOM line not found")
  else
    do mc <- ParseV3000AtomBlock_atoms (Z.to_nat nAtoms) mol conf;
    do tempStr <- getV3000Line;
    if lacks_prefix "END ATOM" tempStr
    then throw (FileParseException "END ATOM line not found")
    else ret (setDimension (fst mc) (snd mc)).

Definition ParseV3000BondProp (line : Z) (bType : Z) (prop val : string)
  (bc : Bond * bool) : Res (Bond * bool) :=
  let '(bond, chiralityPossible) := bc in
  if String.eqb prop "CFG" then
    match wrap_uint (atoi val) with
    | 0 => inr bc
    | 1 => inr (setBondDir BEGINWEDGE bond, true)
    | 2 =>
        if bool_decide (bType = 1) then inr (setBondDir UNKNOWN bond, chiralityPossible)
        else if bool_decide (bType = 2) then
          inr (setStereo STEREOANY (setBondDir EITHERDOUBLE bond), chiralityPossible)
        else inr bc
    | 3 => inr (setBondDir BEGINDASH bond, true)
    | _ => inl (FileParseException
                  ("bad bond CFG " +:+ val +:+ "' on line " +:+ string_of_Z line))
    end
  else if String.eqb prop "TOPO" then
    if negb (String.eqb val "0") then
      let bond := if negb (bondHasQuery bond) then QueryBond_of bond else bond in
      let q := makeBondIsInRingQuery in
      let? q :=
        if String.eqb val "1" then inr q
        else if String.eqb val "2" then inr (setNegation true q)
        else inl (FileParseException
                    ("bad bond TOPO " +:+ val +:+ "' on line " +:+ string_of_Z line)) in
      let? bond := expandBondQuery q bond in
      inr (bond, chiralityPossible)
    else inr bc
  else if String.eqb prop "RXCTR" then
    let? reactStatus := toInt val false in
    inr (setBondProp "molReactStatus" (PInt reactStatus) bond, chiralityPossible)
  else inr bc.

Fixpoint ParseV3000BondProps (line : Z) (bType : Z) (toks : list string)
  (bc : Bond * bool) : Res (Bond * bool) :=
  match toks with
  | [] => inr bc
  | tok :: toks' =>
      match splitAssignToken tok with
      | None => inl (FileParseException
                       ("bad bond property '" +:+ tok +:+ "' on line "
                        +:+ string_of_Z line))
      | Some (prop, val) =>
          let? bc := ParseV3000BondProp line bType prop val bc in
          ParseV3000BondProps line bType toks' bc
      end
  end.

(** One record of the bond block. *)
Definition ParseV3000BondLine (tempStr : string) (mol : RWMol)
  (chiralityPossible : bool) : M (RWMol * bool) :=
  do line <- get_line_no;
  let splitLine := split_compress (is_any_of " 	") tempStr in
  match splitLine with
  | s0 :: s1 :: s2 :: s3 :: props =>
      let bondIdx := wrap_uint (atoi s0) in
      let bType := wrap_uint (atoi s1) in
      let a1Idx := wrap_uint (atoi s2) in
      let a2Idx := wrap_uint (atoi s3) in
      do bond <- bondOfType bType;
      let bond := if bool_decide (bType = 4) then setBondIsAromatic true bond else bond in
      do bc <- lift (ParseV3000BondProps line bType props (bond, chiralityPossible));
      let '(bond, chiralityPossible) := bc in
      do b <- lift (getAtomWithBookmark mol (wrap_int a1Idx));
      let bond := setBeginAtomIdx (Z.of_nat b) bond in
      do e <- lift (getAtomWithBookmark mol (wrap_int a2Idx));
      let bond := setEndAtomIdx (Z.of_nat e) bond in
      let bidx := List.length (bonds mol) in
      do mol <- lift (addBond mol bond);
      do mol <- lift
        (if bIsAromatic bond then
           let? mol := updAtomWithIdx mol (beginAtomIdx bond) (setIsAromatic true) in
           updAtomWithIdx mol (endAtomIdx bond) (setIsAromatic true)
         else inr mol);
      ret (setBondBookmark mol bidx (wrap_int bondIdx), chiralityPossible)
  | _ =>
      throw (FileParseException
               ("bond line : " +:+ string_of_Z line +:+ " is too short"))
  end.

Fixpoint ParseV3000BondBlock_bonds (n : nat) (mol : RWMol)
  (chiralityPossible : bool) : M (RWMol * bool) :=
  match n with
  | O => ret (mol, chiralityPossible)
  | S n' =>
      do tempStr <- getV3000Line;
      do mc <- ParseV3000BondLine (trim_copy tempStr) mol chiralityPossible;
      ParseV3000BondBlock_bonds n' (fst mc) (snd mc)
  end.

Definition ParseV3000BondBlock (nBonds : Z) (mol : RWMol)
  (chiralityPossible : bool) : M (RWMol * bool) :=
  exec lift (PRECONDITION (0 <? nBonds) "bad bond count");
  do tempStr <- getV3000Line;
  if lacks_prefix "BEGIN BOND" tempStr
  then throw (FileParseException "BEGIN BOND line not found")
  else
    do mc <- ParseV3000BondBlock_bonds (Z.to_nat nBonds) mol chiralityPossible;
    do tempStr <- getV3000Line;
    if lacks_prefix "END BOND" tempStr
    then throw (FileParseException "END BOND line not found")
    else ret mc.

(** [while(1){ tempStr = getV3000Line(...);
      if(tempStr.length()>=10 && tempStr.substr(0,10) != "END SGROUP") break; }] *)
Fixpoint skipSgroup (fuel : nat) : M string :=
  match fuel with
  | O => throw OutOfFuel
  | S fuel' =>
      do tempStr <- getV3000Line;
      if (10 <=? str_size tempStr)%nat && negb (starts_with "END SGROUP" tempStr)
      then ret tempStr
      else skipSgroup fuel'
  end.

(** [for(i=0;i<n3DConstraints;++i) tempStr = getV3000Line(inStream,line);] *)
Fixpoint skipObj3d (n : nat) : M unit :=
  match n with
  | O => ret tt
  | S n' => do _t <- getV3000Line; skipObj3d n'
  end.

(** [while(tempStr.length()>8 && tempStr.substr(0,8)=="LINKNODE")] *)
Fixpoint skipLinkNodes (fuel : nat) (tempStr : string) : M string :=
  if (8 <? str_size tempStr)%nat && starts_with "LINKNODE" tempStr then
    match fuel with
    | O => throw OutOfFuel
    | S fuel' => do tempStr <- getV3000Line; skipLinkNodes fuel' tempStr
    end
  else ret tempStr.

(** [while(tempStr.length()<3 || tempStr.substr(0,3)!="END")] *)
Fixpoint skipToEnd (fuel : nat) (tempStr : string) : M string :=
  if lacks_prefix "END" tempStr then
    match fuel with
    | O => throw OutOfFuel
    | S fuel' => do tempStr <- getV3000Line; skipToEnd fuel' tempStr
    end
  else ret tempStr.

(** [while(tempStr.length()>5 && tempStr.substr(0,5)=="BEGIN")] *)
Fixpoint skipBlocks (fuel : nat) (tempStr : string) : M string :=
  if (5 <? str_size tempStr)%nat && starts_with "BEGIN" tempStr then
    match fuel with
    | O => throw OutOfFuel
    | S fuel' =>
        exec BOOST_LOG ("skipping block: " +:+ tempStr +:+ endl);
        do tempStr <- getV3000Line;
        do _t <- (fun st => skipToEnd (lines_left st) tempStr st);
        do tempStr <- getV3000Line;
        skipBlocks fuel' tempStr
    end
  else ret tempStr.

Definition badCounts (tempStr : string) : exn :=
  FileParseException ("Bad counts line : '" +:+ tempStr +:+ "'").

(** The counts of the [COUNTS] line: [nAtoms] and [nBonds], and [nSgroups]
    and [n3DConstraints], which keep the value they happen to hold when the
    line is too short to assign them. *)
Definition V3000Counts (tempStr : string) : Res (Z * Z * Z * Z) :=
  if (str_size tempStr <? 8)%nat || negb (starts_with "COUNTS " tempStr)
  then inl (badCounts tempStr)
  else
    let trimmed := trim_copy (l2s (drop 7 (s2l tempStr))) in
    let splitLine := split_compress (is_any_of " 	") trimmed in
    match splitLine with
    | s0 :: s1 :: more =>
        let? nAtoms := toInt s0 false in
        let nAtoms := wrap_uint nAtoms in
        let? nBonds := toInt s1 false in
        let nBonds := wrap_uint nBonds in
        if nAtoms <=? 0 then inl (FileParseException "molecule has no atoms")
        else
          let? nSgroups :=
            match more with
            | s2 :: _ => let? v := toInt s2 false in inr (wrap_uint v)
            | [] => inr (indet_nSgroups E)
            end in
          let? n3DConstraints :=
            match more with
            | _ :: s3 :: _ => let? v := toInt s3 false in inr (wrap_uint v)
            | _ => inr (indet_n3DConstraints E)
            end in
          let? _chiralFlag :=
            match more with
            | _ :: _ :: s4 :: _ => let? v := toInt s4 false in inr (wrap_uint v)
            | _ => inr 0
            end in
          inr (nAtoms, nBonds, nSgroups, n3DConstraints)
    | _ => inl (badCounts tempStr)
    end.

(** The part of [ParseV3000MolBlock] after the bond block. *)
Definition ParseV3000Tail (nSgroups n3DConstraints : Z) : M unit :=
  exec (if bool_decide (nSgroups ≠ 0) then
          exec BOOST_LOG ("S group information in mol block igored" +:+ endl);
          do tempStr <- getV3000Line;
          if lacks_prefix "BEGIN SGROUP" tempStr
          then throw (FileParseException "BEGIN SGROUP line not found")
          else do _t <- (fun st => skipSgroup (lines_left st) st); ret tt
        else ret tt);
  exec (if bool_decide (n3DConstraints ≠ 0) then
          exec BOOST_LOG ("3d constraint information in mol block igored" +:+ endl);
          do tempStr <- getV3000Line;
          if lacks_prefix "BEGIN OBJ3D" tempStr
          then throw (FileParseException "BEGIN OBJ3D line not found")
          else
            exec skipObj3d (Z.to_nat n3DConstraints);
            do tempStr <- getV3000Line;
            if lacks_prefix "END OBJ3D" tempStr
            then throw (FileParseException "END OBJ3D line not found")
            else ret tt
        else ret tt);
  do tempStr <- getV3000Line;
  do tempStr <- (fun st => skipLinkNodes (lines_left st) tempStr st);
  do tempStr <- (fun st => skipBlocks (lines_left st) tempStr st);
  if lacks_prefix "END CTAB" tempStr
  then throw (FileParseException "END CTAB line not found")
  else ret tt.

Definition ParseV3000MolBlock (mol : RWMol) (chiralityPossible : bool)
  : M (bool * RWMol * bool) :=
  do tempStr <- getV3000Line;
  if lacks_prefix "BEGIN CTAB" tempStr
  then throw (FileParseException "BEGIN CTAB line not found")
  else
    do tempStr <- getV3000Line;
    do counts <- lift (V3000Counts tempStr);
    let '(nAtoms, nBonds, nSgroups, n3DConstraints) := counts in
    let conf := newConformer nAtoms in
    do mc <- ParseV3000AtomBlock nAtoms mol conf;
    do mb <- ParseV3000BondBlock nBonds (fst mc) chiralityPossible;
    exec ParseV3000Tail nSgroups n3DConstraints;
    do mol <- lift (addConformer (fst mb) (snd mc));
    ret (true, mol, snd mb).

(** ** The query completion pass *)

(** [query->getVal()] through the [ATOM_EQUALS_QUERY] cast. *)
Definition getVal (q : Query) : Z := default (castVal E) (qval q).

Fixpoint completeQueryAndChildren (df : DataFunc -> Z) (magicVal : Z)
  (query : Query) : Res Query :=
  let 'mkQuery t d n f v children := query in
  let? v :=
    if bool_decide (getVal query = magicVal) then
      match f with
      | noDataFunc => inl (Undefined "null data function")
      | _ => inr (Some (df f))
      end
    else inr v in
  let? children := mapRes (completeQueryAndChildren df magicVal) children in
  inr (mkQuery t d n f v children).

Fixpoint CompleteMolQueries_from (n : nat) (i : nat) (mol : RWMol)
  (magicVal : Z) : Res RWMol :=
  match n with
  | O => inr mol
  | S n' =>
      let? mol :=
        match atoms mol !! i with
        | Some a =>
            match aquery a with
            | Some query =>
                let? query := completeQueryAndChildren
                                (fun f => perceive E f mol i) magicVal query in
                inr (with_atoms (<[i := setAtomQuery query a]> (atoms mol)) mol)
            | None => inr mol
            end
        | None => inr mol
        end in
      CompleteMolQueries_from n' (S i) mol magicVal
  end.

Definition CompleteMolQueries (mol : RWMol) (magicVal : Z) : Res RWMol :=
  CompleteMolQueries_from (List.length (atoms mol)) 0 mol magicVal.

(** ** The orchestrator *)

(** The counts line: [nAtoms], [nBonds] and the CTAB version. *)
Definition optCount (tempStr : string) (spos : nat) : Res Z :=
  if (spos + 3 <=? str_size tempStr)%nat
  then let? f := substr tempStr spos 3 in toInt f false
  else inr 0.

Definition ignore_tail (m : Res Z) : Res unit :=
  match m with
  | inl bad_lexical_cast => inr tt
  | inl e => inl e
  | inr _ => inr tt
  end.

Definition countsLine (tempStr : string) : Res (Z * Z * Z) :=
  if (str_size tempStr <? 6)%nat then
    inl (FileParseException ("Counts line too short: '" +:+ tempStr +:+ "'"))
  else
    let? nAtoms := read_int_field tempStr 0 3 in
    let? nBonds := read_int_field tempStr 3 3 in
    check ignore_tail
      (let? _nLists := optCount tempStr 6 in
       let? _chiralFlag := optCount tempStr 12 in
       let? _nsText := optCount tempStr 15 in
       let? _nRxnComponents := optCount tempStr 18 in
       let? _nReactants := optCount tempStr 21 in
       let? _nProducts := optCount tempStr 24 in
       optCount tempStr 27) in
    let? ctabVersion :=
      if (35 <? str_size tempStr)%nat then
        if (str_size tempStr <? 39)%nat || negb (bool_decide (char_at tempStr 34 = "V"%char))
        then inl (FileParseException "CTAB version string invalid")
        else
          let? v := substr tempStr 34 5 in
          if String.eqb v "V3000" then inr 3000
          else if negb (String.eqb v "V2000") then
            inl (FileParseException ("Unsupported CTAB version: '" +:+ v +:+ "'"))
          else inr 2000
      else inr 2000 in
    inr (nAtoms, nBonds, ctabVersion).

(** The three header lines. *)
Definition readHeader : M (option RWMol) :=
  exec incr_line;
  do tempStr <- getLine;
  do atEnd <- eof;
  if atEnd then ret None
  else
    let res := setProp "_Name" (PStr tempStr) newRWMol in
    exec incr_line;
    do tempStr <- getLine;
    let res := setProp "_MolFileInfo" (PStr tempStr) res in
    let res :=
      if (22 <=? str_size tempStr)%nat then
        let dimLabel := l2s (take 2 (drop 20 (s2l tempStr))) in
        if String.eqb dimLabel "2d" || String.eqb dimLabel "2D"
        then setProp "_2DConf" (PInt 1) res
        else if String.eqb dimLabel "3d" || String.eqb dimLabel "3D"
        then setProp "_3DConf" (PInt 1) res
        else res
      else res in
    exec incr_line;
    do tempStr <- getLine;
    ret (Some (setProp "_MolFileComments" (PStr tempStr) res)).

(** The V2000 branch of the [try] block, up to the bond block. *)
Definition ParseV2000Graph (nAtoms nBonds : Z) (res : RWMol)
  (chiralityPossible : bool) : M (RWMol * bool) :=
  if nAtoms <=? 0 then throw (FileParseException "molecule has no atoms")
  else
    let conf := newConformer nAtoms in
    do mc <- ParseMolBlockAtoms (Z.to_nat (wrap_uint nAtoms)) res conf;
    let '(res, conf) := setDimension (fst mc) (snd mc) in
    do res <- lift (addConformer res conf);
    ParseMolBlockBonds (Z.to_nat (wrap_uint nBonds)) res chiralityPossible.

(** The V2000 branch of the [try] block. *)
Definition ParseV2000MolBlock (nAtoms nBonds : Z) (res : RWMol)
  (chiralityPossible : bool) : M (bool * RWMol * bool) :=
  do mb <- ParseV2000Graph nAtoms nBonds res chiralityPossible;
  do fm <- ParseMolBlockProperties (fst mb);
  ret (fst fm, snd fm, snd mb).

(** The [try] block: dispatch on the CTAB version. *)
Definition parseCTAB (nAtoms nBonds ctabVersion : Z) (res : RWMol)
  : M (bool * RWMol * bool) :=
  if bool_decide (ctabVersion = 2000) then ParseV2000MolBlock nAtoms nBonds res false
  else if negb (bool_decide (nAtoms = 0)) || negb (bool_decide (nBonds = 0)) then
    throw (FileParseException
             "V3000 mol blocks should have 0s in the initial counts line.")
  else ParseV3000MolBlock res false.

Fixpoint calcExplicitValences (n : nat) (i : nat) (mol : RWMol) : RWMol :=
  match n with
  | O => mol
  | S n' =>
      let mol :=
        match atoms mol !! i with
        | Some a =>
            with_atoms
              (<[i := setExplicitValence (calcExplicitValence E mol i) a]> (atoms mol))
              mol
        | None => mol
        end in
      calcExplicitValences n' (S i) mol
  end.

(** [if (res && sanitize) { ... }] *)
Definition sanitizeStep (res : RWMol) (chiralityPossible removeHsFlag : bool)
  : Res RWMol :=
  let? res :=
    if chiralityPossible then
      let? res := cleanUp E res in DetectAtomStereoChemistry E res
    else inr res in
  let? res := if removeHsFlag then removeHs E res else sanitizeMol E res in
  let? res := ClearSingleBondDirFlags E res in
  let? res := DetectBondStereoChemistry E res in
  assignStereochemistry E res.

(** What follows the [try] block. *)
Definition finishMol (fileComplete : bool) (res : RWMol)
  (chiralityPossible sanitize removeHsFlag : bool) : Res RWMol :=
  if negb fileComplete then
    inl (FileParseException "Problems encountered parsing Mol data, M  END ")
  else
    let res := calcExplicitValences (List.length (atoms res)) 0 res in
    let? res :=
      if sanitize then sanitizeStep res chiralityPossible removeHsFlag
      else inr res in
    if hasProp "_NeedsQueryScan" res then
      CompleteMolQueries (clearProp "_NeedsQueryScan" res) MAGIC
    else inr res.

(** The header and the counts line. *)
Definition readCounts : M (option (RWMol * (Z * Z * Z))) :=
  do hdr <- readHeader;
  match hdr with
  | None => ret None
  | Some res =>
      exec incr_line;
      do tempStr <- getLine;
      do counts <- lift (countsLine tempStr);
      ret (Some (res, counts))
  end.

Definition MolDataStreamToMol (sanitize removeHsFlag : bool) : M (option RWMol) :=
  do hc <- readCounts;
  match hc with
  | None => ret None
  | Some (res, (nAtoms, nBonds, ctabVersion)) =>
      do parsed <- parseCTAB nAtoms nBonds ctabVersion res;
      let '(fileComplete, res, chiralityPossible) := parsed in
      do res <- lift (finishMol fileComplete res chiralityPossible sanitize removeHsFlag);
      ret (Some res)
  end.

End Parser.

(** [std::istringstream inStream(molBlock)] *)
Fixpoint split_lines (cur : list ascii) (l : list ascii) : list string * string :=
  match l with
  | [] => ([], l2s (rev cur))
  | c :: l' =>
      if Ascii.eqb c (ascii_of_nat 10) then
        let '(ls, r) := split_lines [] l' in (l2s (rev cur) :: ls, r)
      else split_lines (c :: cur) l'
  end.

Definition istringstream (molBlock : string) : istream :=
  let '(ls, r) := split_lines [] (s2l molBlock) in mkStream ls r false.

Definition MolBlockToMol (E : Externals) (molBlock : string)
  (sanitize removeHsFlag : bool) : St * Res (option RWMol) :=
  MolDataStreamToMol E sanitize removeHsFlag (mkSt (istringstream molBlock) 0 []).

(** ** Notions used to state the properties *)

(** A field that holds nothing but white space. *)
Definition blank (input : string) : bool := forallb isspace (s2l input).

(** A concrete instance of the external collaborators, used to run the
    parser on examples: a periodic table with a few elements, downstream
    passes that leave the molecule alone, and the given values for the
    locals that [ParseV3000MolBlock] may read before they are assigned. *)
Definition sampleTable (s : string) : option Z :=
  if String.eqb s "H" then Some 1
  else if String.eqb s "C" then Some 6
  else if String.eqb s "N" then Some 7
  else if String.eqb s "O" then Some 8
  else None.

Definition sampleWeight (n : Z) : Q :=
  match n with
  | 1 => 1008 # 1000
  | 6 => 12011 # 1000
  | 7 => 14007 # 1000
  | 8 => 15999 # 1000
  | _ => 0
  end.

Definition sampleExternals (nSgroups0 n3DConstraints0 : Z) : Externals :=
  mkExternals sampleTable sampleWeight (fun _ _ _ => 2) (fun _ _ => 0)
    inr inr inr inr inr inr inr nSgroups0 n3DConstraints0 0.

Definition unlines (l : list string) : string :=
  fold_right (fun a b => a +:+ endl +:+ b) "" l.

(** The bond line with its stereo field (columns 9 to 11) set to the
    placeholder [  0]. *)
Definition clearStereo (text : string) : string :=
  if (12 <=? str_size text)%nat
  then l2s (take 9 (s2l text) ++ s2l "  0" ++ drop 12 (s2l text))
  else text.

(** The value of the stereo field, 0 when it is absent, the placeholder
    or not convertible. *)
Definition stereoCode (text : string) : Z :=
  match bondField text 9 with
  | inr (Some f) =>
      match toInt f false with
      | inr v => v
      | inl _ => 0
      end
  | _ => 0
  end.

Definition eraseStereo (b : Bond) : Bond := setStereo STEREONONE (setBondDir NONE b).

(** A molecule of two plain atoms. *)
Definition twoAtoms : RWMol :=
  with_atoms [setAtomicNum 6 newAtom; setAtomicNum 8 newAtom] newRWMol.

(** Two bonds that agree on everything but the direction and the stereo
    tag. *)
Definition sameButStereo (b1 b2 : Bond) : Prop := eraseStereo b1 = eraseStereo b2.

Definition relStep (r1 r2 : Res Bond) (b1 b2 : Bond) : Prop :=
  match r1, r2 with
  | inl e1, inl e2 => e1 = e2
  | inr c1, inr c2 =>
      sameButStereo c1 c2
      /\ bondDir c1 = bondDir b1 /\ stereo c1 = stereo b1
      /\ bondDir c2 = bondDir b2 /\ stereo c2 = stereo b2
  | _, _ => False
  end.


(** Scenario 3 of the spec (a nitro group with a charge record), closed by
    [terminator]. *)
Definition nitroBlock (terminator : string) : string :=
  unlines
    ["nitro"; ""; "";
     "  4  3  0  0  0  0  0  0  0  0999 V2000";
     "    0.0000    0.0000    0.0000 N   0  0  0  0  0  0  0  0  0  0  0  0";
     "    1.0000    0.0000    0.0000 O   0  0  0  0  0  0  0  0  0  0  0  0";
     "    0.0000    1.0000    0.0000 O   0  0  0  0  0  0  0  0  0  0  0  0";
     "    0.0000    0.0000    1.0000 C   0  0  0  0  0  0  0  0  0  0  0  0";
     "  1  2  1  0"; "  1  3  2  0"; "  1  4  1  0";
     "M  CHG  2   1   1   2  -1";
     terminator].

(** Scenario 5 of the spec (V3000 water) with the given [COUNTS] record and
    the given lines between the bond block and [END CTAB]. *)
Definition waterBlock (counts : string) (extra : list string) : string :=
  unlines
    (["water"; ""; "";
      "  0  0  0  0  0  0  0  0  0  0999 V3000";
      "M  V30 BEGIN CTAB";
      counts;
      "M  V30 BEGIN ATOM";
      "M  V30 1 O 0 0 0 0";
      "M  V30 2 H 0 1 0 0";
      "M  V30 3 H 1 0 0 0";
      "M  V30 END ATOM";
      "M  V30 BEGIN BOND";
      "M  V30 1 1 1 2";
      "M  V30 2 1 1 3";
      "M  V30 END BOND"]
     ++ extra ++ ["M  V30 END CTAB"; "M  END"]).

Definition sgroupBlock : list string :=
  ["M  V30 BEGIN SGROUP";
   "M  V30 1 SUP 0 ATOMS=(1 1) LABEL=OH";
   "M  V30 END SGROUP"].

Definition initialState (molBlock : string) : St :=
  mkSt (istringstream molBlock) 0 [].

Definition atomCount (r : St * Res (option RWMol)) : option nat :=
  match snd r with
  | inr (Some m) => Some (List.length (atoms m))
  | _ => None
  end.

(** *** Invariants of the molecule under construction *)

(** The values stored in the nodes of a query tree. *)
Fixpoint qvals (q : Query) : list Z :=
  let 'mkQuery _ _ _ _ v children := q in
  option_list v ++ flat_map qvals children.

(** No node of the atom's query tree stores the sentinel. *)
Definition magicFree (q : Query) : Prop := MAGIC ∉ qvals q.
Definition clean (a : Atom) : Prop :=
  match aquery a with
  | Some q => magicFree q
  | None => True
  end.

Definition small (z : Z) : Prop := -100000000 < z < 100000000.
Definition mass_ok (m : Q) : Prop := (-10000000 <= m /\ m <= 10000000)%Q.

(** The scalar state of an atom cannot seed the sentinel into a query. *)
Definition atom_ok (a : Atom) : Prop :=
  small (formalCharge a) /\ small (atomicNum a) /\ mass_ok (mass a).

(** What is assumed of the external collaborators when the sentinel is
    traced: atomic numbers and weights of the periodic table are of
    ordinary size, and no data function returns the sentinel. *)
Definition TableOK (E : Externals) : Prop :=
  (forall s n, getAtomicNumber E s = Some n -> 0 <= n < 1000000)
  /\ (forall n, (-1000000 <= getAtomicWeight E n /\ getAtomicWeight E n <= 1000000)%Q)
  /\ (forall f mol i, perceive E f mol i <> MAGIC).

Definition needsScan (mol : RWMol) : bool := hasProp "_NeedsQueryScan" mol.

(** The number of bonds is of ordinary size, so that no degree can be
    mistaken for the sentinel. *)
Definition fewBonds (mol : RWMol) : Prop :=
  Z.of_nat (List.length (bonds mol)) < 100000000.

(** What a step of the parser may do to an atom: [kc] says whether the
    formal charge is kept. *)
Definition atomStep (E : Externals) (kc : bool) (a a' : Atom) : Prop :=
  (kc = true -> formalCharge a' = formalCharge a)
  /\ (TableOK E -> atom_ok a -> atom_ok a').

Definition cleanStep (a a' : Atom) : Prop := atom_ok a -> clean a -> clean a'.

(** What a step of the property block may do to the molecule: bonds and
    conformers stay, atoms are changed in place, the scan flag is only ever
    set, and the sentinel is stored only together with the flag. *)
Definition Pres (E : Externals) (kc : bool) (mol mol' : RWMol) : Prop :=
  bonds mol' = bonds mol
  /\ conformers mol' = conformers mol
  /\ Forall2 (atomStep E kc) (atoms mol) (atoms mol')
  /\ (needsScan mol = true -> needsScan mol' = true)
  /\ (TableOK E -> fewBonds mol ->
      Forall2 cleanStep (atoms mol) (atoms mol') \/ needsScan mol' = true).

Definition Inv (mol : RWMol) : Prop :=
  Forall atom_ok (atoms mol)
  /\ fewBonds mol
  /\ (Forall clean (atoms mol) \/ needsScan mol = true).

(** *** The charge records, as the spec words them *)

(** The [(aid, chg)] entries of a [M  CHG] record. *)
Fixpoint entries_from (text : string) (n : nat) (spos : nat) : list (Z * Z) :=
  match n with
  | O => []
  | S n' =>
      match read_int_field text spos 4, read_int_field text (spos + 4) 4 with
      | inr aid, inr chg => (aid, chg) :: entries_from text n' (spos + 8)
      | _, _ => []
      end
  end.

Definition chargeEntries (text : string) : list (Z * Z) :=
  match read_int_field text 6 3 with
  | inr nent => entries_from text (Z.to_nat nent) 9
  | inl _ => []
  end.

(** "apply the listed charges" *)
Definition applyCharges (entries : list (Z * Z)) (cs : list Z) : list Z :=
  fold_left (fun cs e => <[Z.to_nat (wrap_uint (fst e - 1)) := snd e]> cs) entries cs.

(** "On the first [CHG] (or [RAD]) encountered, reset every atom's formal
    charge to 0; then apply the listed charges." *)
Definition chargeStep (l : string) (fc : bool * list Z) : bool * list Z :=
  let '(first, cs) := fc in
  let reset := if first then map (fun _ => 0) cs else cs in
  if String.eqb (lineBeg l) "M  CHG"
  then (false, applyCharges (chargeEntries l) reset)
  else if String.eqb (lineBeg l) "M  RAD" then (false, reset)
  else (first, cs).

Definition chargesSpec (records : list string) (first : bool) (cs : list Z)
  : list Z :=
  snd (fold_left (fun fc l => chargeStep l fc) records (first, cs)).

(** The records that the loop of [ParseMolBlockProperties] dispatches, in
    order: the line held by [tempStr] at the start of each turn. *)
Fixpoint props_trace (E : Externals) (fuel : nat) (ps : PropState) (st : St)
  : list string :=
  if props_continue st ps then
    match fuel with
    | O => []
    | S fuel' =>
        ps_tempStr ps ::
        match props_step E ps st with
        | (st', inr ps') => props_trace E fuel' ps' st'
        | _ => []
        end
    end
  else [].

Definition propRecords (E : Externals) (mol : RWMol) (st : St) : list string :=
  match props_start mol st with
  | (st1, inr ps) => props_trace E (lines_left st1) ps st1
  | _ => []
  end.

(** The atom that an [(aid, chg)] entry of a charge record addresses. *)
Definition listedCharge (records : list string) (i : nat) (c : Z) : Prop :=
  exists l aid, l ∈ records /\ String.eqb (lineBeg l) "M  CHG" = true
    /\ (aid, c) ∈ chargeEntries l /\ Z.to_nat (wrap_uint (aid - 1)) = i.

(** The formal charges of the atoms, in atom order. *)
Definition charges (mol : RWMol) : list Z := map formalCharge (atoms mol).

(** The molecule as the V2000 atom and bond blocks leave it, with the
    state in which the property block starts. *)
Definition v2000Graph (E : Externals) (st : St) : option (RWMol * St) :=
  match
    (do hc <- readCounts;
     match hc with
     | Some (res, (nAtoms, nBonds, ctabVersion)) =>
         if bool_decide (ctabVersion = 2000)
         then ParseV2000Graph E nAtoms nBonds res false
         else throw OutOfFuel
     | None => throw OutOfFuel
     end) st
  with
  | (st1, inr mb) => Some (fst mb, st1)
  | _ => None
  end.

(** The property records of a V2000 input. *)
Definition inputRecords (E : Externals) (st : St) : list string :=
  match v2000Graph E st with
  | Some (mol, st1) => propRecords E mol st1
  | None => []
  end.

Definition isChargeRecord (l : string) : bool := String.eqb (lineBeg l) "M  CHG".

(** The atom up to its query. *)
Definition sameScalars (a a' : Atom) : Prop :=
  a' = a \/ exists q, a' = setAtomQuery q a.

(** A mass of the size of an atomic weight. *)
Definition tableMass (m : Q) : Prop := (-1000000 <= m /\ m <= 1000000)%Q.

(** The atom as the symbol of an atom line or of a V3000 record gives it. *)
Definition freshAtom (a : Atom) : Prop :=
  formalCharge a = 0 /\ small (atomicNum a) /\ tableMass (mass a) /\ clean a.

(** Bonds, conformers and the number of atoms stay. *)
Definition Frame (mol mol' : RWMol) : Prop :=
  bonds mol' = bonds mol
  /\ conformers mol' = conformers mol
  /\ List.length (atoms mol') = List.length (atoms mol).

Definition ends (b : Bond) : Z * Z := (beginAtomIdx b, endAtomIdx b).

(** The bond's atoms are atoms of a molecule of [n] atoms, and they are two. *)
Definition bondInRange (n : Z) (b : Bond) : Prop :=
  0 <= beginAtomIdx b < n /\ 0 <= endAtomIdx b < n
  /\ beginAtomIdx b <> endAtomIdx b.

Definition bondsOK (n : Z) (bs : list Bond) : Prop :=
  Forall (bondInRange n) bs /\ NoDup (map ends bs).

(** Two atoms that agree on what a query can be seeded from, and on the
    query. *)
Definition sameCore (a a' : Atom) : Prop :=
  formalCharge a' = formalCharge a /\ atomicNum a' = atomicNum a
  /\ mass a' = mass a /\ aquery a' = aquery a.

(** The number that a token starts with, as it is written: an optional
    sign and the digits that follow, 0 when there are none. *)
Definition numeral (s : string) : Z := read_signed (trim_left (s2l s)).


(** The fields of a V3000 [COUNTS] record. *)
Definition countsTokens (tempStr : string) : list string :=
  split_compress (is_any_of " 	") (trim_copy (l2s (drop 7 (s2l tempStr)))).

(** The counts that the input declares.  For a V2000 input, [nAtoms] and
    [nBonds] of the counts line: two fields of three characters, which
    [atoi] reads exactly.  For a V3000 input, the first two numbers of the
    [COUNTS] record as they are written, however large. *)
Definition declaredCounts (E : Externals) (st : St) : option (Z * Z) :=
  match readCounts st with
  | (st1, inr (Some (_, (nAtoms, nBonds, ctabVersion)))) =>
      if bool_decide (ctabVersion = 2000) then Some (nAtoms, nBonds)
      else
        match (do _b <- getV3000Line; getV3000Line) st1 with
        | (_, inr tempStr) =>
            match countsTokens tempStr with
            | s0 :: s1 :: _ => Some (numeral s0, numeral s1)
            | _ => None
            end
        | _ => None
        end
  | _ => None
  end.

(** The CTAB version of the input. *)
Definition inputVersion (st : St) : option Z :=
  match readCounts st with
  | (_, inr (Some (_, (_, _, ctabVersion)))) => Some ctabVersion
  | _ => None
  end.

(** The shape that the spec promises for a parsed molecule. *)
Definition wellShaped (nAtoms nBonds : Z) (mol : RWMol) : Prop :=
  getNumAtoms mol = nAtoms
  /\ getNumBonds mol = nBonds
  /\ (exists conf, conformers mol = [conf]
        /\ List.length (positions conf) = List.length (atoms mol))
  /\ Forall (bondInRange (getNumAtoms mol)) (bonds mol).

(** The atom, possibly flagged aromatic by the bond block. *)
Definition aromatized (a a' : Atom) : Prop :=
  a' = a \/ a' = setIsAromatic true a.

(** A three-membered ring of carbons whose first atom carries a ring-bond
    count query "as drawn" ([M  RBC] with count -2). *)
Definition ringBlock : string :=
  unlines
    ["ring"; ""; "";
     "  3  3  0  0  0  0  0  0  0  0999 V2000";
     "    0.0000    0.0000    0.0000 C   0  0  0  0  0  0  0  0  0  0  0  0";
     "    1.0000    0.0000    0.0000 C   0  0  0  0  0  0  0  0  0  0  0  0";
     "    0.0000    1.0000    0.0000 C   0  0  0  0  0  0  0  0  0  0  0  0";
     "  1  2  1  0"; "  2  3  1  0"; "  1  3  1  0";
     "M  RBC  1   1  -2";
     "M  END"].

(** The molecule with some of its atoms given another query, and nothing
    else changed in its graph. *)
Definition Refines (mol mol' : RWMol) : Prop :=
  bonds mol' = bonds mol
  /\ conformers mol' = conformers mol
  /\ Forall2 sameScalars (atoms mol) (atoms mol').

(** A property record that the dispatch of [ParseMolBlockProperties] has
    no branch for: an [M] record with none of the known tags. *)
Definition ignoredRecord (l : string) : bool :=
  bool_decide (char_at l 0 = "M"%char)
  && negb (str_in (lineBeg l)
             ["M  END"; "S  SKP"; "M  ALS"; "M  ISO"; "M  RGP"; "M  RBC";
              "M  SUB"; "M  UNS"; "M  CHG"; "M  RAD"]).

(** The symbol of a V2000 atom line: columns 31 to 33, up to the first
    space. *)
Definition atomSymbol (text : string) : string :=
  let symb := l2s (take 3 (drop 31 (s2l text))) in
  match find_char " "%char (s2l symb) with
  | Some k => l2s (take k (s2l symb))
  | None => symb
  end.

(** The symbols that the atom line decodes without the periodic table:
    [L], [A], [Q], [*], [LP], [R], [R#], [D], [T], and every symbol that lies
    between [R0] and [R9] in the order of strings.  The last test is the
    source's [symb >= "R0" && symb <= "R9"]: it holds for [R0] to [R9], and
    also for longer symbols such as [R10] or [R5x]. *)
Definition specialSymbol (symb : string) : bool :=
  str_in symb ["L"; "A"; "Q"; "*"; "LP"; "R"; "R#"; "D"; "T"]
  || (String.leb "R0" symb && String.leb symb "R9").

(** The charge code of a V2000 atom line: what [atoi] reads in columns 36
    to 38, 0 when the line stops before them. *)
Definition chargeCode (text : string) : Z :=
  if (36 + 3 <=? str_size text)%nat
  then atoi (l2s (take 3 (drop 36 (s2l text)))) else 0.

(** A field that [toInt] refuses: it starts with a space and holds nothing
    but white space. *)
Definition blankStart (f : string) : bool :=
  bool_decide (char_at f 0 = " "%char) && blank f.

(** The three characters of a line from column [lo] on. *)
Definition field3 (text : string) (lo : nat) : string :=
  l2s (take 3 (drop lo (s2l text))).

(** The topology field of a bond line holds a number other than 1 and 2. *)
Definition topologyRejected (text : string) : bool :=
  match bondField text 15 with
  | inr (Some f) =>
      match toInt f false with
      | inr v => negb (bool_decide (v = 1)) && negb (bool_decide (v = 2))
      | inl _ => false
      end
  | _ => false
  end.

Definition bondLineAccepted (text : string) : bool :=
  (9 <=? str_size text)%nat
  && negb (blankStart (field3 text 0))
  && negb (blankStart (field3 text 3))
  && negb (blankStart (field3 text 6))
  && negb (topologyRejected text).

(** The stream [st'] is the stream [st] with its first [n] lines read, and
    the line counter advanced by as much. *)
Definition Consumed (n : nat) (st st' : St) : Prop :=
  (n <= List.length (pending (inStream st)))%nat
  /\ pending (inStream st') = drop n (pending (inStream st))
  /\ rest (inStream st') = rest (inStream st)
  /\ eofbit (inStream st') = eofbit (inStream st)
  /\ wrap_uint (line st') = wrap_uint (line st + Z.of_nat n).

(** * Properties *)

Lemma s2l_l2s l : s2l (l2s l) = l.
Proof. apply list_ascii_of_string_of_list_ascii. Qed.

Lemma l2s_s2l s : l2s (s2l s) = s.
Proof. apply string_of_list_ascii_of_string. Qed.

Lemma str_size_l2s l : str_size (l2s l) = List.length l.
Proof. unfold str_size. by rewrite s2l_l2s. Qed.

Lemma trim_left_nil l : trim_left l = [] <-> forallb isspace l = true.
Proof.
  induction l as [|c l IH]; simpl; [done|].
  destruct (isspace c); simpl; [done|]. split; discriminate.
Qed.

Lemma trim_left_head l c l' : trim_left l = c :: l' -> isspace c = false.
Proof.
  induction l as [|d l IH]; simpl; [done|].
  destruct (isspace d) eqn:Hd; [done|]. intros [= -> _]. done.
Qed.

Lemma trim_left_suffix l : exists p, l = p ++ trim_left l.
Proof.
  induction l as [|d l [p IH]]; simpl; [by exists []|].
  destruct (isspace d); [|by exists []].
  exists (d :: p). simpl. by rewrite <- IH.
Qed.

Lemma forallb_rev {A} (f : A -> bool) l : forallb f (rev l) = forallb f l.
Proof.
  induction l as [|a l IH]; simpl; [done|].
  rewrite forallb_app, IH. simpl. rewrite andb_true_r. apply andb_comm.
Qed.

Lemma trim_copy_empty s : str_size (trim_copy s) = 0%nat <-> blank s = true.
Proof.
  unfold trim_copy, blank. rewrite str_size_l2s, length_rev.
  rewrite length_zero_iff_nil, trim_left_nil, forallb_rev.
  split.
  - intros H. destruct (trim_left (s2l s)) as [|c l'] eqn:Ht.
    + by apply trim_left_nil.
    + apply trim_left_head in Ht. simpl in H. rewrite Ht in H. done.
  - intros H. apply trim_left_nil in H. by rewrite H.
Qed.

Lemma atoi_blank s : blank s = true -> atoi s = 0.
Proof.
  unfold blank, atoi. intros H. apply trim_left_nil in H. by rewrite H.
Qed.

(** C6 as amended: [toInt] fails exactly when [acceptSpaces] is false and the
    field starts with a space and holds nothing but white space; in every
    other case it returns what [atoi] reads, which is 0 for a blank field
    and for a field whose first non-blank character is neither a digit nor
    a sign. *)
Theorem toInt_fails_only_on_blank (input : string) (acceptSpaces : bool) :
  toInt input acceptSpaces =
    (if negb acceptSpaces && bool_decide (char_at input 0 = " "%char) && blank input
     then inl bad_lexical_cast else inr (atoi input))
  /\ (blank input = true -> atoi input = 0)
  /\ (forall c l, trim_left (s2l input) = c :: l -> digit_val c = None ->
      c <> "-"%char -> c <> "+"%char -> atoi input = 0).
Proof.
  split; [|split].
  - unfold toInt.
    destruct acceptSpaces; simpl; [by rewrite andb_false_r|].
    rewrite andb_true_r.
    destruct (bool_decide (char_at input 0 = " "%char)) eqn:Hc; simpl;
      [|by rewrite andb_false_r].
    destruct (blank input) eqn:Hb.
    + rewrite (atoi_blank _ Hb). simpl.
      apply trim_copy_empty in Hb. rewrite Hb. done.
    + destruct (bool_decide (atoi input = 0)); simpl; [|done].
      destruct (bool_decide (str_size _ = _)) eqn:Ht; [|done].
      apply bool_decide_eq_true in Ht.
      apply trim_copy_empty in Ht. congruence.
  - apply atoi_blank.
  - intros c l Ht Hd Hm Hp. unfold atoi. rewrite Ht.
    unfold read_signed.
    assert (read_digits 0 (c :: l) = 0) as Hz by (simpl; by rewrite Hd).
    destruct c as [[] [] [] [] [] [] [] []]; try done.
Qed.

(** C6, the claim as stated fails: a field that is neither a number nor
    white space is not rejected, [toInt] returns 0 for it. *)
Lemma toInt_accepts_malformed_field :
  toInt "abc" false = inr 0 /\ toInt "abc" false <> inl bad_lexical_cast.
Proof. split; [reflexivity | discriminate]. Qed.

Lemma toInt_fails_only_on_blank_witness :
  blank "   " = true /\ atoi "   " = 0.
Proof.
  split; [reflexivity|].
  apply (proj1 (proj2 (toInt_fails_only_on_blank "   " false))). reflexivity.
Defined.

(** C7, the code at the failing input: on a molecule of two atoms the
    entry for atom 3, the first index past the last atom, passes the guard
    [atIdx > getNumAtoms()] and ends in the range check of
    [getAtomWithIdx], not in a [FileParseException]; atom 4 is reported as
    intended. *)
Theorem rgroup_label_first_index_past_end :
  ParseRGroupLabels twoAtoms "M  RGP  1   3   5" = inl (Invariant "Range Error")
  /\ ParseRGroupLabels twoAtoms "M  RGP  1   4   5"
     = inl (FileParseException
              "Attempt to set R group label on nonexistent atom 3").
Proof. split; vm_compute; reflexivity. Qed.

(** *** The bond line and its stereo field *)

Lemma toInt_error input a e : toInt input a = inl e -> e = bad_lexical_cast.
Proof.
  unfold toInt. repeat case_match; intros; simplify_eq; done.
Qed.

Lemma lookup_clearStereo (l s : list ascii) (i : nat) :
  (12 <= List.length l)%nat -> List.length s = 3%nat -> (i < 9 \/ 12 <= i)%nat ->
  (take 9 l ++ s ++ drop 12 l) !! i = l !! i.
Proof.
  intros Hl Hs Hi.
  assert (List.length (take 9 l) = 9%nat) as H9 by (rewrite length_take; lia).
  destruct Hi as [Hi|Hi].
  - rewrite lookup_app_l by lia. apply lookup_take_lt. lia.
  - rewrite lookup_app_r by lia. rewrite lookup_app_r by lia.
    rewrite lookup_drop. f_equal. lia.
Qed.

Lemma length_clearStereo (l s : list ascii) :
  (12 <= List.length l)%nat -> List.length s = 3%nat ->
  List.length (take 9 l ++ s ++ drop 12 l) = List.length l.
Proof.
  intros Hl Hs. rewrite !length_app, length_take, length_drop. lia.
Qed.

Lemma slice_clearStereo (l s : list ascii) (pos n : nat) :
  (12 <= List.length l)%nat -> List.length s = 3%nat ->
  (pos + n <= 9 \/ 12 <= pos)%nat ->
  take n (drop pos (take 9 l ++ s ++ drop 12 l)) = take n (drop pos l).
Proof.
  intros Hl Hs Hp. apply list_eq. intros i.
  destruct (decide (i < n)%nat) as [Hi|Hi].
  - rewrite !lookup_take_lt, !lookup_drop by done.
    apply lookup_clearStereo; [done..|lia].
  - rewrite !lookup_take_ge by lia. done.
Qed.

Lemma str_size_clearStereo text : str_size (clearStereo text) = str_size text.
Proof.
  unfold clearStereo. destruct (12 <=? str_size text)%nat eqn:H; [|done].
  apply Nat.leb_le in H. unfold str_size in *. rewrite s2l_l2s.
  by apply length_clearStereo.
Qed.

Lemma substr_clearStereo text pos n :
  (pos + n <= 9 \/ 12 <= pos)%nat ->
  substr (clearStereo text) pos n = substr text pos n.
Proof.
  intros Hp. unfold substr. rewrite str_size_clearStereo.
  unfold clearStereo. destruct (12 <=? str_size text)%nat eqn:H; [|done].
  apply Nat.leb_le in H. unfold str_size in *. rewrite s2l_l2s.
  by rewrite slice_clearStereo.
Qed.

Lemma read_int_field_clearStereo text pos :
  (pos + 3 <= 9)%nat ->
  read_int_field (clearStereo text) pos 3 = read_int_field text pos 3.
Proof.
  intros Hp. unfold read_int_field, cannot_convert.
  by rewrite substr_clearStereo by lia.
Qed.

Lemma bondField_clearStereo text lo :
  (12 <= lo)%nat -> bondField (clearStereo text) lo = bondField text lo.
Proof.
  intros Hp. unfold bondField.
  by rewrite str_size_clearStereo, substr_clearStereo by lia.
Qed.

Lemma bondField_stereo_cleared text :
  (12 <= str_size text)%nat -> bondField (clearStereo text) 9 = inr None.
Proof.
  intros H. unfold bondField. rewrite str_size_clearStereo.
  destruct (9 + 3 <=? str_size text)%nat eqn:Hs; [|apply Nat.leb_gt in Hs; lia].
  unfold substr. rewrite str_size_clearStereo.
  destruct (9 <=? str_size text)%nat eqn:H9; [|apply Nat.leb_gt in H9; lia].
  unfold clearStereo. apply Nat.leb_le in H. rewrite H.
  apply Nat.leb_le in H. unfold str_size in H. rewrite s2l_l2s. simpl.
  rewrite drop_app_length'; [|rewrite length_take; lia].
  simpl. done.
Qed.

Lemma bondField_short text lo :
  (str_size text < lo + 3)%nat -> bondField text lo = inr None.
Proof.
  intros H. unfold bondField.
  destruct (lo + 3 <=? str_size text)%nat eqn:Hs; [apply Nat.leb_le in Hs; lia|done].
Qed.

Lemma bondTopology_rel text b1 b2 :
  sameButStereo b1 b2 ->
  relStep (bondTopology text b1) (bondTopology text b2) b1 b2.
Proof.
  intros Hs. unfold bondTopology.
  destruct (bondField text 15) as [e|[f|]]; simpl; [done| |done].
  destruct (toInt f false) as [e|v] eqn:Hv; simpl.
  - apply toInt_error in Hv as ->. simpl. done.
  - unfold sameButStereo, eraseStereo in *.
    destruct b1, b2. simpl in Hs. injection Hs as -> -> -> -> -> ->.
    destruct v as [|[[]|[]|]|]; simpl.
    all: done.
Qed.

Lemma bondReactStatus_rel text b1 b2 :
  sameButStereo b1 b2 ->
  relStep (bondReactStatus text b1) (bondReactStatus text b2) b1 b2.
Proof.
  intros Hs. unfold bondReactStatus.
  destruct (bondField text 18) as [e|[f|]]; simpl; [done| |done].
  destruct (toInt f false) as [e|v] eqn:Hv; simpl.
  - apply toInt_error in Hv as ->. simpl. done.
  - unfold sameButStereo, eraseStereo in *.
    destruct b1, b2. simpl in Hs. injection Hs as -> -> -> -> -> ->. done.
Qed.

Lemma bondStereo_total text res :
  (12 <= str_size text)%nat ->
  exists res', bondStereo text res = inr res' /\ sameButStereo res' res
    /\ (stereoCode text ∉ [1; 3; 4; 6] ->
        bondDir res = NONE -> stereo res = STEREONONE ->
        bondDir res' = NONE /\ stereo res' = STEREONONE).
Proof.
  intros Hl. unfold bondStereo, stereoCode, bondField.
  destruct (9 + 3 <=? str_size text)%nat eqn:Hs; [|apply Nat.leb_gt in Hs; lia].
  unfold substr.
  destruct (9 <=? str_size text)%nat eqn:H9; [|apply Nat.leb_gt in H9; lia].
  simpl. set (f := l2s _).
  destruct (bool_decide (f ≠ "  0")); simpl; [|by exists res].
  destruct (toInt f false) as [e|v] eqn:Hv; simpl.
  - apply toInt_error in Hv as ->. simpl. by exists res.
  - eexists. split; [done|]. split.
    + destruct res. unfold stereoSwitch.
      destruct v as [|[[[]|[]|]|[[]|[]|]|]|]; done.
    + intros Hn Hd Ht. unfold stereoSwitch.
      destruct v as [|[[[]|[]|]|[[]|[]|]|]|]; try done;
        exfalso; apply Hn; set_solver.
Qed.

Lemma bondOfType_plain bType st st' b :
  bondOfType bType st = (st', inr b) ->
  bondDir b = NONE /\ stereo b = STEREONONE.
Proof.
  unfold bondOfType, bind, ret, BOOST_LOG.
  intros H. repeat case_match.
  all: injection H as <- <-; done.
Qed.

Lemma eraseStereo_plain b :
  bondDir b = NONE -> stereo b = STEREONONE -> eraseStereo b = b.
Proof. destruct b. simpl. intros -> ->. done. Qed.

Lemma bondTopology_clearStereo text res :
  bondTopology (clearStereo text) res = bondTopology text res.
Proof. unfold bondTopology. by rewrite bondField_clearStereo by lia. Qed.

Lemma bondReactStatus_clearStereo text res :
  bondReactStatus (clearStereo text) res = bondReactStatus text res.
Proof. unfold bondReactStatus. by rewrite bondField_clearStereo by lia. Qed.

Lemma bondStereo_skipped text res :
  (str_size text < 12)%nat -> bondStereo text res = inr res.
Proof. intros H. unfold bondStereo. by rewrite bondField_short. Qed.

Lemma stereoCode_short text : (str_size text < 12)%nat -> stereoCode text = 0.
Proof. intros H. unfold stereoCode. by rewrite bondField_short. Qed.

Lemma clearStereo_short text : (str_size text < 12)%nat -> clearStereo text = text.
Proof.
  intros H. unfold clearStereo.
  destruct (12 <=? str_size text)%nat eqn:Hs; [apply Nat.leb_le in Hs; lia|done].
Qed.

Lemma bondStereo_cleared text res :
  (12 <= str_size text)%nat -> bondStereo (clearStereo text) res = inr res.
Proof. intros H. unfold bondStereo. by rewrite bondField_stereo_cleared. Qed.

Lemma bondRest_rel text b1 b2 :
  sameButStereo b1 b2 ->
  relStep (let? r := bondTopology text b1 in bondReactStatus text r)
          (let? r := bondTopology text b2 in bondReactStatus text r) b1 b2.
Proof.
  intros Hs. pose proof (bondTopology_rel text b1 b2 Hs) as Ht.
  unfold relStep in Ht.
  destruct (bondTopology text b1) as [e1|c1], (bondTopology text b2) as [e2|c2];
    simpl; try done.
  destruct Ht as (Hc & Hd1 & Hs1 & Hd2 & Hs2).
  pose proof (bondReactStatus_rel text c1 c2 Hc) as Hr.
  unfold relStep in *.
  destruct (bondReactStatus text c1), (bondReactStatus text c2); try done.
  destruct Hr as (? & ? & ? & ? & ?). repeat split; congruence.
Qed.

Lemma bondTail_clearStereo text res :
  bondDir res = NONE -> stereo res = STEREONONE ->
  match bondTail text res, bondTail (clearStereo text) res with
  | inl e, inl e0 => e = e0
  | inr b, inr b0 =>
      eraseStereo b = b0
      /\ (stereoCode text ∉ [1; 3; 4; 6] -> bondDir b = NONE /\ stereo b = STEREONONE)
  | _, _ => False
  end.
Proof.
  intros Hd Ht. unfold bondTail.
  destruct (decide (12 <= str_size text)%nat) as [Hl|Hl].
  - destruct (bondStereo_total text res Hl) as (res' & -> & Hs & Hn).
    rewrite (bondStereo_cleared _ _ Hl). simpl.
    pose proof (bondRest_rel text res' res Hs) as Hr. unfold relStep in Hr.
    simpl in Hr.
    assert ((let? r := bondTopology (clearStereo text) res in
             bondReactStatus (clearStereo text) r)
            = (let? r := bondTopology text res in bondReactStatus text r)) as ->.
    { rewrite bondTopology_clearStereo.
      destruct (bondTopology text res); simpl; [done|].
      by rewrite bondReactStatus_clearStereo. }
    destruct (let? r := bondTopology text res in bondReactStatus text r) as [e0|b0];
      destruct (let? r := bondTopology text res' in bondReactStatus text r) as [e|b];
      try done.
    destruct Hr as (Hsb & Hdb & Hstb & Hd0 & Hs0). split.
    + rewrite Hsb. apply eraseStereo_plain; congruence.
    + intros Hcode. destruct (Hn Hcode Hd Ht) as [? ?]. split; congruence.
  - assert (str_size text < 12)%nat as Hlt by lia.
    rewrite (clearStereo_short _ Hlt), (bondStereo_skipped _ _ Hlt). simpl.
    pose proof (bondRest_rel text res res eq_refl) as Hr. unfold relStep in Hr.
    simpl in Hr.
    destruct (let? r := bondTopology text res in bondReactStatus text r) as [e|b];
      [done|].
    destruct Hr as (_ & Hdb & Hstb & _). split.
    + apply eraseStereo_plain; congruence.
    + intros _. split; congruence.
Qed.

(** The line decodes as the same line with the stereo field set to the
    placeholder does: same final state, same error if any, same bond up to
    direction and stereo tag. *)
Lemma stereo_field_rel (text : string) (st : St) :
  let r := ParseMolFileBondLine text st in
  let r0 := ParseMolFileBondLine (clearStereo text) st in
  fst r = fst r0 /\
  match snd r, snd r0 with
  | inl e, inl e0 => e = e0
  | inr b, inr b0 =>
      eraseStereo b = b0 /\
      (stereoCode text ∉ [1; 3; 4; 6] -> bondDir b = NONE /\ stereo b = STEREONONE)
  | _, _ => False
  end.
Proof.
  unfold ParseMolFileBondLine. rewrite str_size_clearStereo.
  destruct (str_size text <? 9)%nat eqn:Hs.
  { apply Nat.ltb_lt in Hs. rewrite clearStereo_short by lia. simpl. done. }
  rewrite !read_int_field_clearStereo by lia.
  unfold bind, lift; simpl.
  destruct (read_int_field text 0 3) as [e|idx1]; simpl; [done|].
  destruct (read_int_field text 3 3) as [e|idx2]; simpl; [done|].
  destruct (read_int_field text 6 3) as [e|bType]; simpl; [done|].
  destruct (bondOfType bType st) as [st1 [e|res]] eqn:Hb; simpl; [done|].
  apply bondOfType_plain in Hb as [Hd Ht].
  split; [done|].
  apply bondTail_clearStereo; destruct res; simpl in *; done.
Qed.

Lemma stereoSwitch_dir code res :
  bondDir res = NONE -> stereo res = STEREONONE ->
  bondDir (stereoSwitch code res) = bondDir (stereoSwitch code newBond)
  /\ stereo (stereoSwitch code res) = stereo (stereoSwitch code newBond).
Proof. intros Hd Hs. unfold stereoSwitch. repeat case_match; simpl; done. Qed.

Lemma bondStereo_dir text res r :
  bondStereo text res = inr r ->
  bondDir res = NONE -> stereo res = STEREONONE ->
  bondDir r = bondDir (stereoSwitch (stereoCode text) newBond)
  /\ stereo r = stereo (stereoSwitch (stereoCode text) newBond).
Proof.
  unfold bondStereo, stereoCode. intros H Hd Hs.
  destruct (bondField text 9) as [e|[f|]]; simpl in H; [done| |by injection H as <-].
  destruct (toInt f false) as [e|v] eqn:Hv; simpl in H.
  - apply toInt_error in Hv as ->. simpl in H. by injection H as <-.
  - injection H as <-. by apply stereoSwitch_dir.
Qed.

Lemma bondTopology_dir text res r :
  bondTopology text res = inr r -> bondDir r = bondDir res /\ stereo r = stereo res.
Proof.
  intros H. pose proof (bondTopology_rel text res res eq_refl) as Hr.
  rewrite H in Hr. simpl in Hr. tauto.
Qed.

Lemma bondReactStatus_dir text res r :
  bondReactStatus text res = inr r ->
  bondDir r = bondDir res /\ stereo r = stereo res.
Proof.
  intros H. pose proof (bondReactStatus_rel text res res eq_refl) as Hr.
  rewrite H in Hr. simpl in Hr. tauto.
Qed.

Lemma bond_line_direction text st st' b :
  ParseMolFileBondLine text st = (st', inr b) ->
  bondDir b = bondDir (stereoSwitch (stereoCode text) newBond)
  /\ stereo b = stereo (stereoSwitch (stereoCode text) newBond).
Proof.
  unfold ParseMolFileBondLine. destruct (_ <? _)%nat; [done|].
  unfold bind, lift; simpl.
  destruct (read_int_field text 0 3) as [e|idx1]; simpl; [done|].
  destruct (read_int_field text 3 3) as [e|idx2]; simpl; [done|].
  destruct (read_int_field text 6 3) as [e|bType]; simpl; [done|].
  destruct (bondOfType bType st) as [st1 [e|res]] eqn:Hb; simpl; [done|].
  apply bondOfType_plain in Hb as [Hd Hs].
  unfold bondTail. intros H.
  match type of H with
  | (_, rbind (bondStereo text ?r) _) = _ =>
      destruct (bondStereo text r) as [e|r1] eqn:H1; simpl in H; [done|];
      apply bondStereo_dir in H1 as [Hd1 Hs1]; [|destruct res; done..]
  end.
  destruct (bondTopology text r1) as [e|r2] eqn:H2; simpl in H; [done|].
  apply bondTopology_dir in H2 as [Hd2 Hs2].
  destruct (bondReactStatus text r2) as [e|r3] eqn:H3; [done|].
  apply bondReactStatus_dir in H3 as [Hd3 Hs3].
  injection H as _ <-. split; congruence.
Qed.

(** C9, the claim as stated fails in its last clause: a stereo field that
    is not an integer is not ignored when it starts with a number.  The
    field [ 1x] is read as 1 and the bond gets direction BEGINWEDGE. *)
Lemma stereo_text_with_numeric_prefix_sets_direction :
  stereoCode "  1  2  1 1x" = 1
  /\ exists b,
       snd (ParseMolFileBondLine "  1  2  1 1x" (mkSt (mkStream [] "" false) 0 []))
       = inr b
       /\ bondDir b = BEGINWEDGE.
Proof. split; [reflexivity|]. eexists. split; vm_compute; reflexivity. Qed.

(** C9 as amended: the stereo field of a V2000 bond line never makes the
    decoder fail and never logs anything: the line decodes exactly as the
    same line with the stereo field set to the placeholder does, same
    error if any, same warnings, same bond up to direction and stereo tag.
    The value of the field is what [atoi] reads in it, the number it
    starts with, and 0 when it starts with none or is blank; direction and
    stereo tag of the bond are those that the switch gives for that value,
    so that a value that is none of 1, 3, 4, 6 leaves the bond with
    direction NONE and no stereo tag. *)
Theorem stereo_field_never_fails (text : string) (st : St) :
  let r := ParseMolFileBondLine text st in
  let r0 := ParseMolFileBondLine (clearStereo text) st in
  fst r = fst r0 /\
  match snd r, snd r0 with
  | inl e, inl e0 => e = e0
  | inr b, inr b0 =>
      eraseStereo b = b0 /\
      (stereoCode text ∉ [1; 3; 4; 6] -> bondDir b = NONE /\ stereo b = STEREONONE)
      /\ bondDir b = bondDir (stereoSwitch (stereoCode text) newBond)
      /\ stereo b = stereo (stereoSwitch (stereoCode text) newBond)
  | _, _ => False
  end.
Proof.
  pose proof (stereo_field_rel text st) as [Hst Hrel].
  cbv zeta in *. split; [exact Hst|].
  destruct (ParseMolFileBondLine text st) as [st1 [e|b]] eqn:Hrun;
    destruct (ParseMolFileBondLine (clearStereo text) st) as [st2 [e0|b0]];
    simpl in *; try done.
  destruct Hrel as [He Hn]. split; [done|]. split; [done|].
  by eapply bond_line_direction.
Qed.

Lemma stereo_field_never_fails_witness :
(stereoCode "  1  2  1  7" ∉ [1; 3; 4; 6]) /\
  (exists b, snd (ParseMolFileBondLine "  1  2  1  7" (mkSt (mkStream [] "" false) 0 []))
             = inr b /\ bondDir b = NONE).
Proof.
  assert (stereoCode "  1  2  1  7" ∉ [1; 3; 4; 6]) as Hc.
  { vm_compute. intros H. repeat (apply elem_of_cons in H as [H|H]; [discriminate|]).
    by apply elem_of_nil in H. }
  split; [exact Hc|].
  pose proof (stereo_field_never_fails "  1  2  1  7"
                (mkSt (mkStream [] "" false) 0 [])) as [_ H].
  destruct (snd (ParseMolFileBondLine "  1  2  1  7" _)) as [e|b] eqn:Hb;
    [vm_compute in Hb; discriminate|].
  exists b. split; [done|].
  destruct (snd (ParseMolFileBondLine (clearStereo "  1  2  1  7") _)); [done|].
  destruct H as (_ & H & _). by apply H.
Defined.

(** *** Whole-input runs *)









(** C2, the code at the failing input: V3000 water whose [COUNTS] record
    declares one sgroup and whose CTAB has a one-line sgroup block between
    the bond block and [END CTAB].  The loop that should skip the block
    leaves it at the first line that is not [END SGROUP], so the parse
    fails with "END CTAB line not found".  With a declared count of 0 the
    same block is skipped by the generic block skipper and the parse
    succeeds. *)
Theorem declared_sgroup_block_breaks_the_parse (u1 u2 : Z) :
  snd (MolBlockToMol (sampleExternals u1 u2)
         (waterBlock "M  V30 COUNTS 3 2 1 0 0" sgroupBlock) false false)
  = inl (FileParseException "END CTAB line not found")
  /\ rdWarningLog (fst (MolBlockToMol (sampleExternals u1 u2)
         (waterBlock "M  V30 COUNTS 3 2 1 0 0" sgroupBlock) false false))
     = ["S group information in mol block igored" +:+ endl]
  /\ atomCount (MolBlockToMol (sampleExternals u1 u2)
         (waterBlock "M  V30 COUNTS 3 2 0 0 0" sgroupBlock) false false)
     = Some 3%nat.
Proof. repeat split; vm_compute; reflexivity. Qed.

(** C10, the code at the failing input: V3000 water whose [COUNTS] record
    has only the two mandatory fields.  [nSgroups] and [n3DConstraints] are
    then read without having been assigned; the parse goes straight to
    [END CTAB] only when both happen to hold 0, otherwise the sgroup or the
    obj3d branch is taken and the parse fails. *)
Theorem two_field_counts_reads_unassigned_locals :
  atomCount (MolBlockToMol (sampleExternals 0 0)
               (waterBlock "M  V30 COUNTS 3 2" []) false false) = Some 3%nat
  /\ snd (MolBlockToMol (sampleExternals 1 0)
            (waterBlock "M  V30 COUNTS 3 2" []) false false)
     = inl (FileParseException "BEGIN SGROUP line not found")
  /\ snd (MolBlockToMol (sampleExternals 0 1)
            (waterBlock "M  V30 COUNTS 3 2" []) false false)
     = inl (FileParseException "BEGIN OBJ3D line not found").
Proof. repeat split; vm_compute; reflexivity. Qed.

(** C8, the code at the failing input: two runs on the same bytes with the
    same flags, in environments that differ only in what the unassigned
    local [nSgroups] holds; the first returns a molecule, the second
    fails. *)
Theorem same_bytes_two_outcomes :
  let input := waterBlock "M  V30 COUNTS 3 2" [] in
  (exists m, snd (MolBlockToMol (sampleExternals 0 0) input false false)
             = inr (Some m))
  /\ (exists e, snd (MolBlockToMol (sampleExternals 1 0) input false false)
                = inl e).
Proof. split; eexists; vm_compute; reflexivity. Qed.

(** *** Primitive steps on the molecule *)

Lemma rbind_inr {A B} (m : Res A) (f : A -> Res B) b :
  rbind m f = inr b -> exists a, m = inr a /\ f a = inr b.
Proof. destruct m; simpl; [done|]. eauto. Qed.

Lemma catch_blc_inr {A} (m : Res A) h a : catch_blc m h = inr a -> m = inr a.
Proof. unfold catch_blc. repeat case_match; intros; simplify_eq; done. Qed.

Lemma getAtomWithIdx_inr mol idx a :
  getAtomWithIdx mol idx = inr a -> atoms mol !! Z.to_nat idx = Some a.
Proof.
  unfold getAtomWithIdx. intros H. apply rbind_inr in H as (_ & _ & H).
  destruct (atoms mol !! Z.to_nat idx); by simplify_eq.
Qed.

Lemma updAtomWithIdx_inr mol idx f mol' :
  updAtomWithIdx mol idx f = inr mol' ->
  exists a, atoms mol !! Z.to_nat idx = Some a
    /\ mol' = with_atoms (<[Z.to_nat idx := f a]> (atoms mol)) mol.
Proof.
  unfold updAtomWithIdx. intros H. apply rbind_inr in H as (a & Ha & H).
  apply getAtomWithIdx_inr in Ha. exists a. by simplify_eq.
Qed.

Lemma replaceAtom_inr mol idx a' mol' :
  replaceAtom mol idx a' = inr mol' ->
  exists a, atoms mol !! Z.to_nat idx = Some a
    /\ mol' = with_atoms (<[Z.to_nat idx := a']> (atoms mol)) mol.
Proof.
  unfold replaceAtom. intros H. apply rbind_inr in H as (_ & _ & H).
  destruct (atoms mol !! Z.to_nat idx) as [a|]; [|done].
  exists a. by simplify_eq.
Qed.

Lemma atomStep_refl E kc a : atomStep E kc a a.
Proof. by split. Qed.

Lemma atomStep_trans E kc a b c :
  atomStep E kc a b -> atomStep E kc b c -> atomStep E kc a c.
Proof.
  intros [H1 H2] [H3 H4]. split; [|eauto].
  intros Hk. by rewrite (H3 Hk), (H1 Hk).
Qed.

Lemma atomStep_weaken E kc a b : atomStep E kc a b -> atomStep E false a b.
Proof. intros [_ H]. by split. Qed.

Lemma Forall2_diag {A} (R : A -> A -> Prop) (l : list A) :
  (forall a, R a a) -> Forall2 R l l.
Proof. intros H. induction l; constructor; done. Qed.

Lemma Forall2_insert_self {A} (R : A -> A -> Prop) (l : list A) i a a' :
  (forall x, R x x) -> l !! i = Some a -> R a a' -> Forall2 R l (<[i:=a']> l).
Proof.
  intros Hr Hl Ha. rewrite <- (list_insert_id l i a) at 1 by done.
  apply Forall2_insert; [by apply Forall2_diag|done].
Qed.

Lemma Forall2_trans' {A} (R : A -> A -> Prop) (l1 l2 l3 : list A) :
  (forall a b c, R a b -> R b c -> R a c) ->
  Forall2 R l1 l2 -> Forall2 R l2 l3 -> Forall2 R l1 l3.
Proof.
  intros Ht H. revert l3. induction H; intros l3 H3; inversion H3; subst;
    constructor; eauto.
Qed.

Lemma Pres_refl E kc mol : Pres E kc mol mol.
Proof.
  repeat split; try done.
  - apply Forall2_diag, atomStep_refl.
  - intros _ _. left. apply Forall2_diag. by intros a ??.
Qed.

Lemma cleanStep_chain E kc (l1 l2 l3 : list Atom) :
  TableOK E ->
  Forall2 (atomStep E kc) l1 l2 ->
  Forall2 cleanStep l1 l2 -> Forall2 cleanStep l2 l3 -> Forall2 cleanStep l1 l3.
Proof.
  intros HE Ha. revert l3.
  induction Ha as [|a b l1 l2 [_ Hab] _ IH]; intros l3 H1 H2;
    inversion H1; inversion H2; subst; constructor.
  - intros Hok Hcl. auto.
  - auto.
Qed.

Lemma Pres_trans E kc m1 m2 m3 :
  Pres E kc m1 m2 -> Pres E kc m2 m3 -> Pres E kc m1 m3.
Proof.
  intros (Hb1 & Hc1 & Ha1 & Hf1 & Hq1) (Hb2 & Hc2 & Ha2 & Hf2 & Hq2).
  repeat split; try congruence; [| by auto |].
  - eapply Forall2_trans'; [apply atomStep_trans|done..].
  - intros HE Hfb.
    assert (fewBonds m2) as Hfb2 by (unfold fewBonds in *; congruence).
    destruct (Hq2 HE Hfb2) as [H2|H2]; [|by right].
    destruct (Hq1 HE Hfb) as [H1|H1]; [|right; by apply Hf2].
    left. by eapply cleanStep_chain.
Qed.

Lemma Pres_weaken E kc mol mol' : Pres E kc mol mol' -> Pres E false mol mol'.
Proof.
  intros (Hb & Hc & Ha & Hf & Hq). repeat split; try done.
  eapply Forall2_impl; [done|]. intros a b. apply atomStep_weaken.
Qed.

Lemma Pres_insert E kc mol i a a' :
  atoms mol !! i = Some a ->
  atomStep E kc a a' ->
  (TableOK E -> fewBonds mol -> cleanStep a a' \/ needsScan mol = true) ->
  Pres E kc mol (with_atoms (<[i:=a']> (atoms mol)) mol).
Proof.
  intros Hi Ha Hc. repeat split; try done; simpl.
  - eapply Forall2_insert_self; [apply atomStep_refl|done..].
  - intros HE Hfb. destruct (Hc HE Hfb) as [H|H]; [left|by right].
    eapply Forall2_insert_self; [by intros x ??|done..].
Qed.

Lemma Pres_setProp E kc mol k v : Pres E kc mol (setProp k v mol).
Proof.
  repeat split; try done; simpl.
  - apply Forall2_diag, atomStep_refl.
  - unfold needsScan, hasProp, setProp. simpl. intros H.
    apply bool_decide_eq_true in H. apply bool_decide_eq_true.
    destruct (decide (k = "_NeedsQueryScan")) as [->|Hk].
    + rewrite lookup_insert_eq. eauto.
    + by rewrite lookup_insert_ne.
  - intros _ _. left. apply Forall2_diag. by intros a ??.
Qed.

Lemma needsScan_setProp mol v : needsScan (setProp "_NeedsQueryScan" v mol) = true.
Proof.
  unfold needsScan, hasProp, setProp. simpl. apply bool_decide_eq_true.
  rewrite lookup_insert_eq. eauto.
Qed.

Lemma Pres_Inv E kc mol mol' : TableOK E -> Pres E kc mol mol' -> Inv mol -> Inv mol'.
Proof.
  intros HE (Hb & Hc & Ha & Hf & Hq) (Hok & Hfb & Hcl).
  assert (Forall atom_ok (atoms mol')) as Hok'.
  { clear -Ha Hok HE. induction Ha; inversion Hok; subst; constructor; auto.
    match goal with H : atomStep _ _ _ _ |- _ => by apply H end. }
  split; [done|]. split; [unfold fewBonds in *; congruence|].
  destruct Hcl as [Hcl|Hcl]; [|right; auto].
  destruct (Hq HE Hfb) as [H|H]; [left|by right].
  clear -H Hok Hcl. induction H; inversion Hok; inversion Hcl; subst;
    constructor; auto.
Qed.

Lemma Pres_length E kc mol mol' :
  Pres E kc mol mol' -> List.length (atoms mol') = List.length (atoms mol).
Proof. intros (_ & _ & Ha & _). symmetry. by eapply Forall2_length. Qed.

Lemma Pres_charges E mol mol' :
  Pres E true mol mol' ->
  map formalCharge (atoms mol') = map formalCharge (atoms mol).
Proof.
  intros (_ & _ & Ha & _). induction Ha as [|a b l k [H _] _ IH]; simpl; [done|].
  rewrite IH, H; done.
Qed.

(** *** Bounds on what the fixed-width fields can hold *)

Lemma digit_val_range c d : digit_val c = Some d -> 0 <= d <= 9.
Proof.
  unfold digit_val. destruct (_ && _) eqn:H; [|done].
  apply andb_true_iff in H as [H1 H2].
  apply Nat.leb_le in H1, H2. intros [= <-]. lia.
Qed.

Lemma read_digits_bound l acc :
  0 <= acc ->
  acc <= read_digits acc l /\ read_digits acc l < (acc + 1) * 10 ^ Z.of_nat (List.length l).
Proof.
  revert acc. induction l as [|c l IH]; intros acc Hacc; simpl List.length.
  - simpl. lia.
  - rewrite Nat2Z.inj_succ, Z.pow_succ_r by lia. simpl.
    assert (0 < 10 ^ Z.of_nat (List.length l)) by (apply Z.pow_pos_nonneg; lia).
    destruct (digit_val c) as [d|] eqn:Hd.
    + apply digit_val_range in Hd.
      destruct (IH (10 * acc + d)) as [H1 H2]; [lia|]. split; [lia|nia].
    + nia.
Qed.

Lemma read_signed_bound l :
  - 10 ^ Z.of_nat (List.length l) < read_signed l < 10 ^ Z.of_nat (List.length l).
Proof.
  assert (forall k, 0 <= read_digits 0 k < 10 ^ Z.of_nat (List.length k)) as Hd.
  { intros k. destruct (read_digits_bound k 0) as [H1 H2]; lia. }
  assert (forall (c : ascii) k,
            10 ^ Z.of_nat (List.length k) <= 10 ^ Z.of_nat (List.length (c :: k))) as Hm.
  { intros c k. simpl List.length. apply Z.pow_le_mono_r; lia. }
  unfold read_signed.
  destruct l as [|c k]; [simpl; lia|].
  pose proof (Hd k) as Hk. pose proof (Hd (c :: k)) as Hck. pose proof (Hm c k).
  repeat case_match; lia.
Qed.

Lemma trim_left_length l : (List.length (trim_left l) <= List.length l)%nat.
Proof.
  induction l as [|c l IH]; simpl; [lia|]. destruct (isspace c); simpl; lia.
Qed.

Lemma atoi_bound s :
  (str_size s <= 4)%nat -> -10000 < atoi s < 10000.
Proof.
  intros Hs. unfold atoi.
  pose proof (read_signed_bound (trim_left (s2l s))) as Hb.
  pose proof (trim_left_length (s2l s)) as Hl. unfold str_size in Hs.
  assert (10 ^ Z.of_nat (List.length (trim_left (s2l s))) <= 10 ^ 4) as Hp.
  { apply Z.pow_le_mono_r; lia. }
  change (10 ^ 4) with 10000 in Hp.
  assert (clamp_long (read_signed (trim_left (s2l s)))
          = read_signed (trim_left (s2l s))) as ->.
  { unfold clamp_long. change (2 ^ 63) with 9223372036854775808. lia. }
  unfold wrap_int. change (2 ^ 31) with 2147483648. change (2 ^ 32) with 4294967296.
  rewrite Z.mod_small by lia. lia.
Qed.

Lemma toInt_inr input a v : toInt input a = inr v -> v = atoi input.
Proof. unfold toInt. repeat case_match; intros; simplify_eq; done. Qed.

Lemma substr_size text pos n f : substr text pos n = inr f -> (str_size f <= n)%nat.
Proof.
  unfold substr. case_match; [|done]. intros [= <-].
  rewrite str_size_l2s, length_take. lia.
Qed.

Lemma read_int_field_bound text spos w v :
  read_int_field text spos w = inr v -> (w <= 4)%nat -> -10000 < v < 10000.
Proof.
  unfold read_int_field. intros H Hw. apply catch_blc_inr in H.
  apply rbind_inr in H as (f & Hf & H). apply substr_size in Hf.
  apply toInt_inr in H as ->. apply atoi_bound. lia.
Qed.

Lemma optIntField_bound text lo w zero v :
  optIntField text lo w zero = inr (Some v) -> (w <= 4)%nat -> -10000 < v < 10000.
Proof.
  unfold optIntField. intros H Hw. case_match; [|done].
  apply rbind_inr in H as (f & Hf & H). apply substr_size in Hf.
  case_match; [|done].
  apply rbind_inr in H as (v' & H & [= <-]). apply catch_blc_inr in H.
  apply toInt_inr in H as ->. apply atoi_bound. lia.
Qed.

Lemma MAGIC_value : MAGIC = 559038737.
Proof. reflexivity. Qed.

Lemma small_not_MAGIC z : small z -> z <> MAGIC.
Proof. unfold small. rewrite MAGIC_value. lia. Qed.

Lemma mass_ok_inject_Z z : -10000000 <= z <= 10000000 -> mass_ok (inject_Z z).
Proof.
  intros H. unfold mass_ok, Qle, inject_Z. simpl. lia.
Qed.

Lemma mass_ok_Qred m : mass_ok m -> mass_ok (Qred m).
Proof.
  unfold mass_ok. intros [H1 H2]. by rewrite Qred_correct.
Qed.

Lemma double_to_int_small m : mass_ok m -> small (double_to_int m).
Proof.
  unfold mass_ok, Qle, double_to_int, small. destruct m as [n d]. simpl.
  intros [H1 H2].
  assert (-10000000 <= n ÷ Z.pos d <= 10000000) as Hq.
  { split.
    - rewrite <- (Z.quot_mul (-10000000) (Z.pos d)) by lia.
      apply Z.quot_le_mono; lia.
    - rewrite <- (Z.quot_mul 10000000 (Z.pos d)) by lia.
      apply Z.quot_le_mono; lia. }
  unfold wrap_int. change (2 ^ 31) with 2147483648. change (2 ^ 32) with 4294967296.
  rewrite Z.mod_small by lia. lia.
Qed.

(** *** Steps on a single atom *)

Ltac scalar_step :=
  let a := fresh "a" in
  intros a; destruct a;
  unfold atomStep, cleanStep, atom_ok, clean; simpl; intuition (try done; try congruence).

Lemma atomStep_setMass E kc m a :
  (TableOK E -> mass_ok m) -> atomStep E kc a (setMass m a).
Proof. revert a. scalar_step. Qed.

Lemma atomStep_setAtomicNum E kc n a :
  (TableOK E -> small n) -> atomStep E kc a (setAtomicNum n a).
Proof. revert a. scalar_step. Qed.

Lemma atomStep_setFormalCharge E c a :
  small c -> atomStep E false a (setFormalCharge c a).
Proof. revert a. scalar_step. Qed.

Lemma atomStep_setNumRadicalElectrons E kc n a :
  atomStep E kc a (setNumRadicalElectrons n a).
Proof. revert a. scalar_step. Qed.

Lemma atomStep_setAtomProp E kc k v a : atomStep E kc a (setAtomProp k v a).
Proof. revert a. scalar_step. Qed.

Lemma atomStep_setIsAromatic E kc b a : atomStep E kc a (setIsAromatic b a).
Proof. revert a. scalar_step. Qed.

Lemma atomStep_setExplicitValence E kc v a :
  atomStep E kc a (setExplicitValence v a).
Proof. revert a. scalar_step. Qed.

Lemma atomStep_setNoImplicit E kc b a : atomStep E kc a (setNoImplicit b a).
Proof. revert a. scalar_step. Qed.

Lemma atomStep_setAtomQuery E kc q a : atomStep E kc a (setAtomQuery q a).
Proof. revert a. scalar_step. Qed.

Lemma clean_setAtomQuery q a : clean (setAtomQuery q a) <-> magicFree q.
Proof. done. Qed.

Lemma clean_setMass m a : clean (setMass m a) <-> clean a.
Proof. done. Qed.

Lemma clean_setAtomicNum n a : clean (setAtomicNum n a) <-> clean a.
Proof. done. Qed.

Lemma clean_setFormalCharge c a : clean (setFormalCharge c a) <-> clean a.
Proof. done. Qed.

Lemma clean_setNumRadicalElectrons n a :
  clean (setNumRadicalElectrons n a) <-> clean a.
Proof. done. Qed.

Lemma clean_setAtomProp k v a : clean (setAtomProp k v a) <-> clean a.
Proof. done. Qed.

Lemma clean_setIsAromatic b a : clean (setIsAromatic b a) <-> clean a.
Proof. done. Qed.

Lemma clean_setExplicitValence v a : clean (setExplicitValence v a) <-> clean a.
Proof. done. Qed.

Lemma clean_setNoImplicit b a : clean (setNoImplicit b a) <-> clean a.
Proof. done. Qed.

Lemma magicFree_simple d f v : magicFree (makeAtomSimpleQuery d f v) <-> v <> MAGIC.
Proof.
  unfold magicFree, makeAtomSimpleQuery. simpl. rewrite list_elem_of_singleton.
  split; intros H Hm; apply H; done.
Qed.

Lemma magicFree_expand p what how mo q :
  magicFree (expandQueryWith p what how mo q) <-> magicFree q /\ magicFree what.
Proof.
  unfold magicFree, expandQueryWith.
  destruct how, mo; simpl; rewrite ?app_nil_r, !elem_of_app; tauto.
Qed.

Lemma magicFree_setNegation n q : magicFree (setNegation n q) <-> magicFree q.
Proof. by destruct q. Qed.

Lemma magicFree_setDescription d q : magicFree (setDescription d q) <-> magicFree q.
Proof. by destruct q. Qed.

Lemma magicFree_setDataFunc f q : magicFree (setDataFunc f q) <-> magicFree q.
Proof. by destruct q. Qed.

Lemma magicFree_addChild c q : magicFree (addChild c q) <-> magicFree q /\ magicFree c.
Proof.
  unfold magicFree. destruct q as [t d n f v ch]. simpl.
  rewrite flat_map_app. simpl. rewrite app_nil_r, !elem_of_app. tauto.
Qed.

Lemma expandAtomQuery_inr what how mo a a' :
  expandAtomQuery what how mo a = inr a' ->
  exists q, aquery a = Some q
    /\ a' = setAtomQuery (expandQueryWith "Atom" what how mo q) a.
Proof.
  unfold expandAtomQuery. destruct (aquery a) as [q|]; [|done].
  intros [= <-]. eauto.
Qed.

Lemma expandAtomQuery_step E kc what how mo a a' :
  expandAtomQuery what how mo a = inr a' ->
  atomStep E kc a a' /\ (magicFree what -> cleanStep a a').
Proof.
  intros H. apply expandAtomQuery_inr in H as (q & Hq & ->).
  split; [apply atomStep_setAtomQuery|].
  intros Hw _ Hc. apply clean_setAtomQuery, magicFree_expand.
  unfold clean in Hc. rewrite Hq in Hc. done.
Qed.

Lemma QueryAtom_of_step E kc a :
  atomStep E kc a (QueryAtom_of a)
  /\ (atom_ok a -> clean (QueryAtom_of a)).
Proof.
  split; [apply atomStep_setAtomQuery|].
  intros (_ & Hn & _). apply clean_setAtomQuery, magicFree_simple.
  by apply small_not_MAGIC.
Qed.

(** *** Promotion to a query atom *)

Lemma replaceAtomWithQueryAtom_pres E mol idx mol' :
  replaceAtomWithQueryAtom mol idx = inr mol' -> Pres E true mol mol'.
Proof.
  unfold replaceAtomWithQueryAtom. intros H.
  apply rbind_inr in H as (a & Ha & H). apply getAtomWithIdx_inr in Ha.
  destruct (hasQuery a); [simplify_eq; apply Pres_refl|].
  apply rbind_inr in H as (qa1 & H1 & H).
  apply rbind_inr in H as (qa2 & H2 & H).
  apply replaceAtom_inr in H as (a0 & Ha0 & ->).
  assert (atomStep E true a qa1 /\ (TableOK E -> atom_ok a -> clean qa1))
    as [Hs1 Hc1].
  { pose proof (QueryAtom_of_step E true a) as [Hq Hc].
    case_bool_decide; [|by simplify_eq].
    pose proof (expandAtomQuery_step E true _ _ _ _ _ H1) as [Hs Hcs].
    split; [by eapply atomStep_trans|].
    intros HE Hok. apply Hcs; [| |by apply Hc].
    - apply magicFree_simple, small_not_MAGIC, Hok.
    - by apply Hq. }
  assert (atomStep E true a qa2 /\ (TableOK E -> atom_ok a -> clean qa2))
    as [Hs2 Hc2].
  { destruct (hasAtomProp "_hasMassQuery" a); [|by simplify_eq].
    pose proof (expandAtomQuery_step E true _ _ _ _ _ H2) as [Hs Hcs].
    split; [by eapply atomStep_trans|].
    intros HE Hok. apply Hcs; [| |by apply Hc1].
    - apply magicFree_simple, small_not_MAGIC, double_to_int_small, Hok.
    - by apply Hs1. }
  apply Pres_insert with a; [done|done|].
  intros HE _. left. intros Hok _. by apply Hc2.
Qed.

Lemma addAtomQuery_pres E mol idx q mol' :
  addAtomQuery mol idx q = inr mol' ->
  (TableOK E -> fewBonds mol -> magicFree q \/ needsScan mol = true) ->
  Pres E true mol mol'.
Proof.
  unfold addAtomQuery. intros H Hq.
  apply rbind_inr in H as (a & Ha & H).
  apply rbind_inr in H as (mol1 & H1 & H).
  apply rbind_inr in H as (a1 & Ha1 & H).
  apply rbind_inr in H as (a2 & Ha2 & H). simplify_eq.
  assert (Pres E true mol mol1) as HP1.
  { destruct (hasQuery a); [simplify_eq; apply Pres_refl|].
    by eapply replaceAtomWithQueryAtom_pres. }
  eapply Pres_trans; [exact HP1|].
  apply getAtomWithIdx_inr in Ha1.
  pose proof (expandAtomQuery_step E true _ _ _ _ _ Ha2) as [Hs Hcs].
  apply Pres_insert with a1; [done|done|].
  intros HE Hfb.
  assert (fewBonds mol) as Hfb0.
  { destruct HP1 as (Hb & _). unfold fewBonds in *. congruence. }
  destruct (Hq HE Hfb0) as [Hq'|Hq']; [left; auto|right].
  by apply HP1.
Qed.

(** *** The property records keep the invariants *)

Lemma RANGE_CHECK_inr lo x hi u : RANGE_CHECK lo x hi = inr u -> lo <= x <= hi.
Proof.
  unfold RANGE_CHECK. destruct (_ || _) eqn:H; [done|]. intros _.
  apply orb_false_iff in H as [H1 H2]. lia.
Qed.

Lemma PRECONDITION_inr b msg u : PRECONDITION b msg = inr u -> b = true.
Proof. unfold PRECONDITION. by destruct b. Qed.

Lemma Pres_upd E kc mol idx f mol' :
  updAtomWithIdx mol idx f = inr mol' ->
  (forall a, atomStep E kc a (f a)) ->
  (forall a, clean a -> clean (f a)) ->
  Pres E kc mol mol'.
Proof.
  intros H Hs Hc. apply updAtomWithIdx_inr in H as (a & Ha & ->).
  apply Pres_insert with a; [done|done|].
  intros _ _. left. intros _. apply Hc.
Qed.

Lemma Pres_replace E kc mol idx a' mol' :
  replaceAtom mol idx a' = inr mol' ->
  (forall a, atoms mol !! Z.to_nat idx = Some a ->
     atomStep E kc a a'
     /\ (TableOK E -> fewBonds mol -> cleanStep a a' \/ needsScan mol = true)) ->
  Pres E kc mol mol'.
Proof.
  intros H Hs. apply replaceAtom_inr in H as (a & Ha & ->).
  destruct (Hs a Ha) as [H1 H2]. by apply Pres_insert with a.
Qed.

Lemma map_insert {A B} (f : A -> B) (l : list A) i x :
  map f (<[i:=x]> l) = <[i:=f x]> (map f l).
Proof.
  revert i. induction l as [|a l IH]; intros [|i]; simpl; [done..|].
  by rewrite IH.
Qed.

Lemma ParseOldAtomList_queries_step E kc text n i a q a' q' :
  ParseOldAtomList_queries text n i a q = inr (a', q') ->
  atomStep E kc a a' /\ aquery a' = aquery a /\ (magicFree q -> magicFree q').
Proof.
  revert i a q. induction n as [|n IH]; intros i a q H; simpl in H.
  { simplify_eq. split; [apply atomStep_refl|done]. }
  apply rbind_inr in H as (atNum & Hn & H).
  apply rbind_inr in H as (u & Hr & H). apply RANGE_CHECK_inr in Hr.
  apply IH in H as (Hs & Hq & Hm).
  assert (small atNum) as Hsm by (unfold small; lia).
  split; [|split].
  - eapply atomStep_trans; [|exact Hs].
    case_bool_decide; [by apply atomStep_setAtomicNum|apply atomStep_refl].
  - rewrite Hq. by case_bool_decide.
  - intros Hf. apply Hm, magicFree_addChild. split; [done|].
    by apply magicFree_simple, small_not_MAGIC.
Qed.

Lemma ParseOldAtomList_pres E mol text mol' :
  ParseOldAtomList mol text = inr mol' -> Pres E true mol mol'.
Proof.
  unfold ParseOldAtomList. intros H.
  apply rbind_inr in H as (idx & _ & H).
  apply rbind_inr in H as (u & _ & H).
  apply rbind_inr in H as (at0 & Hat & H). apply getAtomWithIdx_inr in Hat.
  apply rbind_inr in H as (q & Hq & H).
  apply rbind_inr in H as (nQ & _ & H).
  apply rbind_inr in H as (u' & _ & H).
  apply rbind_inr in H as ([a q'] & Hl & H).
  apply (ParseOldAtomList_queries_step E true) in Hl as (Hs & Haq & Hm).
  eapply Pres_replace; [done|]. intros a0 Ha0. simplify_eq.
  split.
  - eapply atomStep_trans; [apply atomStep_setAtomQuery|].
    eapply atomStep_trans; [exact Hs|apply atomStep_setAtomQuery].
  - intros _ _. left. intros _ _. apply clean_setAtomQuery, Hm.
    repeat case_bool_decide; simplify_eq;
      apply magicFree_setNegation, magicFree_setDescription; unfold magicFree;
      simpl; apply not_elem_of_nil.
Qed.

Lemma Pres_reset E mol : Pres E false mol (resetFormalCharges mol).
Proof.
  repeat split; try done; simpl.
  - induction (atoms mol); constructor; [|done].
    apply atomStep_setFormalCharge. unfold small. lia.
  - intros _ _. left. induction (atoms mol); constructor; [|done].
    by intros ??.
Qed.

Lemma charges_reset mol :
  map formalCharge (atoms (resetFormalCharges mol))
  = map (fun _ => 0) (map formalCharge (atoms mol)).
Proof. simpl. induction (atoms mol); simpl; [done|]. by f_equal. Qed.

Lemma ParseChargeLine_entries_spec E text n spos mol mol' :
  ParseChargeLine_entries text n spos mol = inr mol' ->
  Pres E false mol mol'
  /\ map formalCharge (atoms mol')
     = applyCharges (entries_from text n spos) (map formalCharge (atoms mol)).
Proof.
  revert spos mol. induction n as [|n IH]; intros spos mol H; simpl in H.
  { simplify_eq. split; [apply Pres_refl|done]. }
  apply rbind_inr in H as (aid & Haid & H).
  apply rbind_inr in H as (chg & Hchg & H).
  apply rbind_inr in H as (mol1 & Hu & H).
  replace (spos + 4 + 4)%nat with (spos + 8)%nat in H by lia.
  apply IH in H as [HP Hc].
  fold (read_int_field text spos 4) in Haid.
  fold (read_int_field text (spos + 4) 4) in Hchg.
  pose proof (read_int_field_bound _ _ _ _ Hchg ltac:(lia)) as Hb.
  split.
  - eapply Pres_trans; [|exact HP].
    eapply Pres_upd; [done| |done].
    intros a. apply atomStep_setFormalCharge. unfold small. lia.
  - rewrite Hc. simpl. rewrite Haid, Hchg. simpl.
    apply updAtomWithIdx_inr in Hu as (a & Ha & ->). simpl.
    by rewrite map_insert.
Qed.

Lemma ParseChargeLine_spec E mol text first mol' :
  ParseChargeLine mol text first = inr mol' ->
  Pres E false mol mol'
  /\ map formalCharge (atoms mol')
     = applyCharges (chargeEntries text)
         (if first then map (fun _ => 0) (map formalCharge (atoms mol))
          else map formalCharge (atoms mol)).
Proof.
  unfold ParseChargeLine. intros H.
  apply rbind_inr in H as (beg & _ & H).
  apply rbind_inr in H as (u & _ & H).
  apply rbind_inr in H as (nent & Hn & H).
  fold (read_int_field text 6 3) in Hn.
  apply (ParseChargeLine_entries_spec E) in H as [HP Hc].
  unfold chargeEntries. rewrite Hn. split.
  - eapply Pres_trans; [|exact HP].
    destruct first; [apply Pres_reset|apply Pres_refl].
  - rewrite Hc. destruct first; [by rewrite charges_reset|done].
Qed.

Lemma ParseRadicalLine_entries_pres E text n spos mol mol' :
  ParseRadicalLine_entries text n spos mol = inr mol' -> Pres E true mol mol'.
Proof.
  revert spos mol. induction n as [|n IH]; intros spos mol H; simpl in H.
  { simplify_eq. apply Pres_refl. }
  apply rbind_inr in H as (aid & _ & H).
  apply rbind_inr in H as (rad & _ & H).
  apply rbind_inr in H as (mol1 & Hu & H).
  apply IH in H. eapply Pres_trans; [|exact H].
  repeat case_match; try done;
    (eapply Pres_upd; [done| |done]; intros a;
     apply atomStep_setNumRadicalElectrons).
Qed.

Lemma ParseRadicalLine_spec E mol text first mol' :
  ParseRadicalLine mol text first = inr mol' ->
  Pres E false mol mol'
  /\ map formalCharge (atoms mol')
     = (if first then map (fun _ => 0) (map formalCharge (atoms mol))
        else map formalCharge (atoms mol)).
Proof.
  unfold ParseRadicalLine. intros H.
  apply rbind_inr in H as (beg & _ & H).
  apply rbind_inr in H as (u & _ & H).
  apply rbind_inr in H as (nent & Hn & H).
  apply (ParseRadicalLine_entries_pres E) in H.
  split.
  - eapply Pres_trans; [|eapply Pres_weaken; exact H].
    destruct first; [apply Pres_reset|apply Pres_refl].
  - rewrite (Pres_charges _ _ _ H).
    destruct first; [by rewrite charges_reset|done].
Qed.

Lemma ParseIsotopeLine_entries_pres E text n spos mol mol' :
  ParseIsotopeLine_entries E text n spos mol = inr mol' -> Pres E true mol mol'.
Proof.
  revert spos mol. induction n as [|n IH]; intros spos mol H; simpl in H.
  { simplify_eq. apply Pres_refl. }
  apply rbind_inr in H as (aid & _ & H).
  apply rbind_inr in H as (atom & _ & H).
  apply rbind_inr in H as (present & _ & H).
  destruct present.
  - apply rbind_inr in H as (m & Hm & H).
    apply rbind_inr in H as (mol1 & Hu & H).
    apply IH in H. eapply Pres_trans; [|exact H].
    pose proof (read_int_field_bound _ _ _ _ Hm ltac:(lia)) as Hb.
    eapply Pres_upd; [done| |done]. intros a.
    apply atomStep_setMass. intros _. apply mass_ok_inject_Z. lia.
  - apply rbind_inr in H as (mol1 & Hu & H).
    apply IH in H. eapply Pres_trans; [|exact H].
    eapply Pres_upd; [done| |done]. intros a.
    apply atomStep_setMass. intros (_ & Hw & _).
    specialize (Hw (atomicNum atom)). unfold mass_ok, Qle in *. simpl in *. lia.
Qed.

Lemma ParseIsotopeLine_pres E mol text mol' :
  ParseIsotopeLine E mol text = inr mol' -> Pres E true mol mol'.
Proof.
  unfold ParseIsotopeLine. intros H.
  apply rbind_inr in H as (beg & _ & H).
  apply rbind_inr in H as (u & _ & H).
  apply rbind_inr in H as (nent & Hn & H).
  by eapply ParseIsotopeLine_entries_pres.
Qed.

(** *** Inverting the state-and-error monad *)

Lemma bind_inr {A B} (m : M A) (f : A -> M B) st st' b :
  bind m f st = (st', inr b) ->
  exists st1 a, m st = (st1, inr a) /\ f a st1 = (st', inr b).
Proof.
  unfold bind. destruct (m st) as [st1 [e|a]]; [done|]. eauto.
Qed.

Lemma lift_inr {A} (r : Res A) st st' a :
  lift r st = (st', inr a) -> r = inr a /\ st' = st.
Proof. unfold lift. by intros [= -> ->]. Qed.

Lemma ret_inr {A} (a : A) st st' b : ret a st = (st', inr b) -> a = b /\ st' = st.
Proof. unfold ret. by intros [= -> ->]. Qed.

Lemma throw_inr {A} e st st' (a : A) : throw e st = (st', inr a) -> False.
Proof. done. Qed.

Lemma BOOST_LOG_inr msg st st' u :
  BOOST_LOG msg st = (st', inr u) ->
  inStream st' = inStream st /\ line st' = line st.
Proof. unfold BOOST_LOG. by intros [= <- _]. Qed.

Lemma getDegree_bound mol idx :
  0 <= getDegree mol idx <= Z.of_nat (List.length (bonds mol)).
Proof.
  unfold getDegree. split; [lia|]. apply inj_le, length_filter.
Qed.

Lemma magicFree_setVal v q :
  qchildren q = [] -> v <> MAGIC -> magicFree (setVal v q).
Proof.
  destruct q as [t d n f v0 ch]. simpl. intros -> Hv. unfold magicFree. simpl.
  rewrite list_elem_of_singleton. congruence.
Qed.

Lemma ParseSubstitutionCountLine_entries_pres E text n spos mol st st' mol' :
  ParseSubstitutionCountLine_entries text n spos mol st = (st', inr mol') ->
  Pres E true mol mol'.
Proof.
  revert spos mol st. induction n as [|n IH]; intros spos mol st H; simpl in H.
  { apply ret_inr in H as [-> _]. apply Pres_refl. }
  apply bind_inr in H as (st1 & aid & Haid & H). apply lift_inr in Haid as [_ ->].
  apply bind_inr in H as (st1 & atom & Hat & H). apply lift_inr in Hat as [_ ->].
  apply bind_inr in H as (st1 & present & Hp & H). apply lift_inr in Hp as [_ ->].
  destruct present; [|by eapply IH].
  apply bind_inr in H as (st1 & count & Hc & H). apply lift_inr in Hc as [_ ->].
  case_bool_decide; [by eapply IH|].
  apply bind_inr in H as (st1 & q & Hq & H).
  apply bind_inr in H as (st2 & mol1 & Hm & H). apply lift_inr in Hm as [Hm ->].
  apply IH in H. eapply Pres_trans; [|exact H].
  eapply addAtomQuery_pres; [done|]. intros _ Hfb. left.
  pose proof (getDegree_bound mol (wrap_uint (aid - 1))) as Hd.
  unfold fewBonds in Hfb.
  repeat case_match; try (by apply throw_inr in Hq);
    try (apply bind_inr in Hq as (? & ? & _ & Hq));
    apply ret_inr in Hq as [<- _];
    unfold magicFree; simpl; rewrite list_elem_of_singleton, MAGIC_value; lia.
Qed.

Lemma ParseSubstitutionCountLine_pres E mol text st st' mol' :
  ParseSubstitutionCountLine mol text st = (st', inr mol') -> Pres E true mol mol'.
Proof.
  unfold ParseSubstitutionCountLine. intros H.
  apply bind_inr in H as (st1 & beg & _ & H).
  apply bind_inr in H as (st2 & u & _ & H).
  apply bind_inr in H as (st3 & nent & _ & H).
  by eapply ParseSubstitutionCountLine_entries_pres.
Qed.

Lemma ParseUnsaturationLine_entries_pres E text n spos mol mol' :
  ParseUnsaturationLine_entries text n spos mol = inr mol' -> Pres E true mol mol'.
Proof.
  revert spos mol. induction n as [|n IH]; intros spos mol H; simpl in H.
  { simplify_eq. apply Pres_refl. }
  apply rbind_inr in H as (aid & _ & H).
  apply rbind_inr in H as (atom & _ & H).
  apply rbind_inr in H as (present & _ & H).
  destruct present; [|by eapply IH].
  apply rbind_inr in H as (count & _ & H).
  case_bool_decide; [by eapply IH|].
  case_bool_decide; [|done].
  apply rbind_inr in H as (mol1 & Hm & H).
  apply IH in H. eapply Pres_trans; [|exact H].
  eapply addAtomQuery_pres; [done|]. intros _ _. left.
  apply magicFree_simple. rewrite MAGIC_value. lia.
Qed.

Lemma ParseUnsaturationLine_pres E mol text mol' :
  ParseUnsaturationLine mol text = inr mol' -> Pres E true mol mol'.
Proof.
  unfold ParseUnsaturationLine. intros H.
  apply rbind_inr in H as (beg & _ & H).
  apply rbind_inr in H as (u & _ & H).
  apply rbind_inr in H as (nent & Hn & H).
  by eapply ParseUnsaturationLine_entries_pres.
Qed.

Lemma ParseRingBondCountLine_entries_pres E text n spos mol mol' :
  ParseRingBondCountLine_entries text n spos mol = inr mol' -> Pres E true mol mol'.
Proof.
  revert spos mol. induction n as [|n IH]; intros spos mol H; simpl in H.
  { simplify_eq. apply Pres_refl. }
  apply rbind_inr in H as (aid & _ & H).
  apply rbind_inr in H as (atom & _ & H).
  apply rbind_inr in H as (present & _ & H).
  destruct present; [|by eapply IH].
  apply rbind_inr in H as (count & _ & H).
  case_bool_decide; [by eapply IH|].
  apply rbind_inr in H as ([q mol0] & Hq & H).
  apply rbind_inr in H as (mol1 & Hm & H).
  apply IH in H. eapply Pres_trans; [|exact H].
  assert (Pres E true mol mol0
          /\ (magicFree q \/ needsScan mol0 = true)) as [HP Hc].
  { repeat case_match; simplify_eq;
      first [ by (split; [apply Pres_setProp|right; apply needsScan_setProp])
            | split; [apply Pres_refl|left]; unfold magicFree; simpl;
              rewrite list_elem_of_singleton, MAGIC_value; lia ]. }
  eapply Pres_trans; [exact HP|].
  eapply addAtomQuery_pres; [done|]. by intros _ _.
Qed.

Lemma ParseRingBondCountLine_pres E mol text mol' :
  ParseRingBondCountLine mol text = inr mol' -> Pres E true mol mol'.
Proof.
  unfold ParseRingBondCountLine. intros H.
  apply rbind_inr in H as (beg & _ & H).
  apply rbind_inr in H as (u & _ & H).
  apply rbind_inr in H as (nent & Hn & H).
  by eapply ParseRingBondCountLine_entries_pres.
Qed.

Lemma lookupAtomicNumber_small E symb n :
  lookupAtomicNumber E symb = inr n -> TableOK E -> small n.
Proof.
  unfold lookupAtomicNumber. destruct (getAtomicNumber E symb) as [m|] eqn:Hm;
    [|done].
  intros [= <-] (Hn & _). apply Hn in Hm. unfold small. lia.
Qed.

Lemma ParseNewAtomList_queries_step E mol idx text n i a a' at0 :
  ParseNewAtomList_queries E mol idx text n i a = inr a' ->
  atoms mol !! Z.to_nat idx = Some at0 ->
  (forall x, a = Some x ->
     atomStep E true at0 x /\ (TableOK E -> atom_ok at0 -> clean x)) ->
  forall x', a' = Some x' ->
    atomStep E true at0 x' /\ (TableOK E -> atom_ok at0 -> clean x').
Proof.
  revert i a. induction n as [|n IH]; intros i a H Hat Ha; simpl in H.
  { by simplify_eq. }
  case_match; [done|].
  apply rbind_inr in H as (s1 & _ & H).
  apply rbind_inr in H as (atSymb & _ & H).
  apply rbind_inr in H as (atNum & Hn & H).
  apply rbind_inr in H as (a1 & Ha1 & H).
  eapply IH; [exact H|done|].
  intros x ->.
  pose proof (lookupAtomicNumber_small _ _ _ Hn) as Hsm.
  case_bool_decide.
  - apply rbind_inr in Ha1 as (at1 & Hat1 & Ha1).
    apply getAtomWithIdx_inr in Hat1.
    assert (at1 = at0) as -> by congruence. clear Hat1.
    injection Ha1 as <-.
    pose proof (QueryAtom_of_step E true at0) as [Hs Hc].
    split.
    + eapply atomStep_trans; [exact Hs|by apply atomStep_setAtomicNum].
    + intros HE Hok. apply clean_setAtomicNum. by apply Hc.
  - destruct a as [y|]; [|done].
    apply rbind_inr in Ha1 as (y' & Hy & Ha1). simplify_eq.
    destruct (Ha y eq_refl) as [Hs Hc].
    pose proof (expandAtomQuery_step E true _ _ _ _ _ Hy) as [Hs' Hc'].
    split; [by eapply atomStep_trans|].
    intros HE Hok. apply Hc'.
    + by apply magicFree_simple, small_not_MAGIC, Hsm.
    + by apply Hs.
    + by apply Hc.
Qed.

Lemma ParseNewAtomList_pres E mol text mol' :
  ParseNewAtomList E mol text = inr mol' -> Pres E true mol mol'.
Proof.
  unfold ParseNewAtomList. intros H. case_match; [done|].
  apply rbind_inr in H as (beg & _ & H).
  apply rbind_inr in H as (u & _ & H).
  apply rbind_inr in H as (idx & _ & H).
  apply rbind_inr in H as (u1 & _ & H).
  apply rbind_inr in H as (nQ & _ & H).
  apply rbind_inr in H as (u2 & _ & H).
  apply rbind_inr in H as (a & Hl & H).
  destruct a as [a|]; [|done].
  apply rbind_inr in H as (q & Hq & H).
  apply rbind_inr in H as (q' & Hq' & H).
  eapply Pres_replace; [done|]. intros at0 Hat0.
  destruct (ParseNewAtomList_queries_step _ _ _ _ _ _ _ _ at0 Hl Hat0
              ltac:(done) a eq_refl) as [Hs Hc].
  split; [eapply atomStep_trans; [exact Hs|apply atomStep_setAtomQuery]|].
  intros HE _. left. intros Hok _. apply clean_setAtomQuery.
  specialize (Hc HE Hok). unfold clean in Hc.
  destruct (aquery a) as [q0|]; [|done]. simplify_eq.
  repeat case_bool_decide; simplify_eq; by apply magicFree_setNegation.
Qed.

Lemma ParseRGroupLabels_labels_pres E text n i mol mol' :
  ParseRGroupLabels_labels text n i mol = inr mol' -> Pres E true mol mol'.
Proof.
  revert i mol. induction n as [|n IH]; intros i mol H; simpl in H.
  { simplify_eq. apply Pres_refl. }
  apply rbind_inr in H as (atIdx & _ & H).
  apply rbind_inr in H as (rLabel & _ & H).
  case_match; [done|].
  apply rbind_inr in H as (at0 & Hat & H). apply getAtomWithIdx_inr in Hat.
  apply rbind_inr in H as (mol1 & Hr & H).
  apply IH in H. eapply Pres_trans; [|exact H].
  eapply Pres_replace; [done|]. intros a Ha. simplify_eq.
  pose proof (QueryAtom_of_step E true at0) as [Hs _].
  split.
  - eapply atomStep_trans; [|apply atomStep_setAtomQuery].
    eapply atomStep_trans; [exact Hs|].
    eapply atomStep_trans; [apply atomStep_setAtomProp|].
    destruct (_ && _) eqn:Hl; [|apply atomStep_refl].
    apply andb_true_iff in Hl as [H1 H2].
    apply atomStep_setMass. intros _. apply mass_ok_inject_Z. lia.
  - intros _ _. left. intros _ _. apply clean_setAtomQuery.
    unfold magicFree. simpl. apply not_elem_of_nil.
Qed.

Lemma ParseRGroupLabels_pres E mol text mol' :
  ParseRGroupLabels mol text = inr mol' -> Pres E true mol mol'.
Proof.
  unfold ParseRGroupLabels. intros H.
  apply rbind_inr in H as (beg & _ & H).
  apply rbind_inr in H as (u & _ & H).
  apply rbind_inr in H as (nent & Hn & H).
  by eapply ParseRGroupLabels_labels_pres.
Qed.

Lemma ParseAtomAlias_pres E mol text nextLine mol' :
  ParseAtomAlias mol text nextLine = inr mol' -> Pres E true mol mol'.
Proof.
  unfold ParseAtomAlias. intros H.
  apply rbind_inr in H as (beg & _ & H).
  apply rbind_inr in H as (u & _ & H).
  apply rbind_inr in H as (idx & _ & H).
  apply rbind_inr in H as (u1 & _ & H).
  eapply Pres_upd; [done| |done]. intros a. apply atomStep_setAtomProp.
Qed.

Lemma ParseAtomValue_pres E mol text mol' :
  ParseAtomValue mol text = inr mol' -> Pres E true mol mol'.
Proof.
  unfold ParseAtomValue. intros H.
  apply rbind_inr in H as (beg & _ & H).
  apply rbind_inr in H as (u & _ & H).
  apply rbind_inr in H as (idx & _ & H).
  apply rbind_inr in H as (u1 & _ & H).
  apply rbind_inr in H as (u2 & _ & H).
  apply rbind_inr in H as (v & _ & H).
  eapply Pres_upd; [done| |done]. intros a. apply atomStep_setAtomProp.
Qed.

(** *** The loop of the property block *)

Lemma lineBeg_head l s c :
  String.eqb (lineBeg l) s = true -> s2l s !! 0%nat = Some c -> char_at l 0 = c.
Proof.
  unfold lineBeg, char_at. intros H Hs. apply String.eqb_eq in H. subst s.
  rewrite s2l_l2s in Hs. rewrite lookup_take_lt in Hs by lia. by rewrite Hs.
Qed.

Lemma chargeStep_other l fc :
  String.eqb (lineBeg l) "M  CHG" = false ->
  String.eqb (lineBeg l) "M  RAD" = false ->
  chargeStep l fc = fc.
Proof. intros H1 H2. unfold chargeStep. destruct fc. by rewrite H1, H2. Qed.

Lemma chargeStep_not_M l fc : char_at l 0 <> "M"%char -> chargeStep l fc = fc.
Proof.
  intros H. apply chargeStep_other.
  - destruct (String.eqb (lineBeg l) "M  CHG") eqn:He; [|done].
    exfalso. apply H. by eapply lineBeg_head.
  - destruct (String.eqb (lineBeg l) "M  RAD") eqn:He; [|done].
    exfalso. apply H. by eapply lineBeg_head.
Qed.

Lemma chargeStep_beg l s fc :
  String.eqb (lineBeg l) s = true ->
  String.eqb s "M  CHG" = false -> String.eqb s "M  RAD" = false ->
  chargeStep l fc = fc.
Proof.
  intros H H1 H2. apply String.eqb_eq in H. subst s. by apply chargeStep_other.
Qed.


Lemma props_dispatch_spec E ps st st' mol' first' :
  props_dispatch E ps st = (st', inr (mol', first')) ->
  Pres E false (ps_mol ps) mol'
  /\ (first', charges mol')
     = chargeStep (ps_tempStr ps) (ps_firstChargeLine ps, charges (ps_mol ps)).
Proof.
  unfold props_dispatch. intros H.
  set (fc := (ps_firstChargeLine ps, charges (ps_mol ps))).
  assert (forall m, Pres E true (ps_mol ps) m ->
            chargeStep (ps_tempStr ps) fc = fc ->
            Pres E false (ps_mol ps) m
            /\ (ps_firstChargeLine ps, charges m) = chargeStep (ps_tempStr ps) fc)
    as Hsame.
  { intros m Hm ->. split; [by eapply Pres_weaken|].
    unfold fc, charges. by rewrite (Pres_charges _ _ _ Hm). }
  case_bool_decide as HA.
  { assert (chargeStep (ps_tempStr ps) fc = fc) as Hc.
    { apply chargeStep_not_M. by rewrite HA. }
    apply bind_inr in H as (st1 & u & _ & H).
    apply bind_inr in H as (st2 & nextLine & _ & H).
    destruct (negb _).
    - apply bind_inr in H as (st3 & m & Hm & H). apply lift_inr in Hm as [Hm ->].
      apply ret_inr in H as [[= <- <-] _].
      apply Hsame; [by eapply ParseAtomAlias_pres|done].
    - apply ret_inr in H as [[= <- <-] _]. apply Hsame; [apply Pres_refl|done]. }
  case_bool_decide as HG.
  { assert (chargeStep (ps_tempStr ps) fc = fc) as Hc.
    { apply chargeStep_not_M. by rewrite HG. }
    apply bind_inr in H as (st1 & u & _ & H).
    apply ret_inr in H as [[= <- <-] _]. apply Hsame; [apply Pres_refl|done]. }
  case_bool_decide as HV.
  { assert (chargeStep (ps_tempStr ps) fc = fc) as Hc.
    { apply chargeStep_not_M. by rewrite HV. }
    apply bind_inr in H as (st3 & m & Hm & H). apply lift_inr in Hm as [Hm ->].
    apply ret_inr in H as [[= <- <-] _].
    apply Hsame; [by eapply ParseAtomValue_pres|done]. }
  destruct (String.eqb _ "S  SKP") eqn:HSKP.
  { apply ret_inr in H as [[= <- <-] _].
    apply Hsame; [apply Pres_refl|by eapply chargeStep_beg]. }
  destruct (String.eqb _ "M  ALS") eqn:HALS.
  { apply bind_inr in H as (st3 & m & Hm & H). apply lift_inr in Hm as [Hm ->].
    apply ret_inr in H as [[= <- <-] _].
    apply Hsame; [by eapply ParseNewAtomList_pres|by eapply chargeStep_beg]. }
  destruct (String.eqb _ "M  ISO") eqn:HISO.
  { apply bind_inr in H as (st3 & m & Hm & H). apply lift_inr in Hm as [Hm ->].
    apply ret_inr in H as [[= <- <-] _].
    apply Hsame; [by eapply ParseIsotopeLine_pres|by eapply chargeStep_beg]. }
  destruct (String.eqb _ "M  RGP") eqn:HRGP.
  { apply bind_inr in H as (st3 & m & Hm & H). apply lift_inr in Hm as [Hm ->].
    apply ret_inr in H as [[= <- <-] _].
    apply Hsame; [by eapply ParseRGroupLabels_pres|by eapply chargeStep_beg]. }
  destruct (String.eqb _ "M  RBC") eqn:HRBC.
  { apply bind_inr in H as (st3 & m & Hm & H). apply lift_inr in Hm as [Hm ->].
    apply ret_inr in H as [[= <- <-] _].
    apply Hsame; [by eapply ParseRingBondCountLine_pres|by eapply chargeStep_beg]. }
  destruct (String.eqb _ "M  SUB") eqn:HSUB.
  { apply bind_inr in H as (st3 & m & Hm & H).
    apply ret_inr in H as [[= <- <-] _].
    apply Hsame; [by eapply ParseSubstitutionCountLine_pres
                 |by eapply chargeStep_beg]. }
  destruct (String.eqb _ "M  UNS") eqn:HUNS.
  { apply bind_inr in H as (st3 & m & Hm & H). apply lift_inr in Hm as [Hm ->].
    apply ret_inr in H as [[= <- <-] _].
    apply Hsame; [by eapply ParseUnsaturationLine_pres|by eapply chargeStep_beg]. }
  destruct (String.eqb _ "M  CHG") eqn:HCHG.
  { apply bind_inr in H as (st3 & m & Hm & H). apply lift_inr in Hm as [Hm ->].
    apply ret_inr in H as [[= <- <-] _].
    apply (ParseChargeLine_spec E) in Hm as [HP Hc]. split; [done|].
    unfold chargeStep, fc, charges. rewrite HCHG, Hc. done. }
  destruct (String.eqb _ "M  RAD") eqn:HRAD.
  { apply bind_inr in H as (st3 & m & Hm & H). apply lift_inr in Hm as [Hm ->].
    apply ret_inr in H as [[= <- <-] _].
    apply (ParseRadicalLine_spec E) in Hm as [HP Hc]. split; [done|].
    unfold chargeStep, fc, charges. rewrite HCHG, HRAD, Hc. done. }
  apply ret_inr in H as [[= <- <-] _].
  apply Hsame; [apply Pres_refl|by apply chargeStep_other].
Qed.

Lemma props_step_spec E ps st st' ps' :
  props_step E ps st = (st', inr ps') ->
  Pres E false (ps_mol ps) (ps_mol ps')
  /\ (ps_firstChargeLine ps', charges (ps_mol ps'))
     = chargeStep (ps_tempStr ps) (ps_firstChargeLine ps, charges (ps_mol ps)).
Proof.
  unfold props_step. intros H.
  apply bind_inr in H as (st1 & [m f] & Hd & H).
  apply bind_inr in H as (st2 & u & _ & H).
  apply bind_inr in H as (st3 & tempStr & _ & H).
  apply ret_inr in H as [<- _]. simpl.
  by eapply props_dispatch_spec.
Qed.

Lemma props_loop_spec E fuel ps st st' ps' :
  props_loop E fuel ps st = (st', inr ps') ->
  Pres E false (ps_mol ps) (ps_mol ps')
  /\ (ps_firstChargeLine ps', charges (ps_mol ps'))
     = fold_left (fun fc l => chargeStep l fc) (props_trace E fuel ps st)
         (ps_firstChargeLine ps, charges (ps_mol ps)).
Proof.
  revert ps st. induction fuel as [|fuel IH]; intros ps st H;
    cbn [props_loop props_trace] in *.
  - destruct (props_continue st ps); [done|]. simplify_eq.
    split; [apply Pres_refl|done].
  - destruct (props_continue st ps).
    + apply bind_inr in H as (st1 & ps1 & Hs & H). rewrite Hs.
      cbn [fold_left].
      apply props_step_spec in Hs as [HP Hc]. apply IH in H as [HP' Hc'].
      split; [by eapply Pres_trans|]. by rewrite <- Hc.
    + simplify_eq. split; [apply Pres_refl|done].
Qed.

Lemma props_start_spec E mol st st' ps :
  props_start mol st = (st', inr ps) ->
  Pres E true mol (ps_mol ps) /\ ps_firstChargeLine ps = true.
Proof.
  unfold props_start. intros H.
  apply bind_inr in H as (st1 & tempStr & _ & H).
  apply bind_inr in H as (st2 & u & _ & H).
  apply bind_inr in H as (st3 & m & Hm & H).
  apply ret_inr in H as [<- _]. simpl. split; [|done].
  destruct (_ && _).
  - apply lift_inr in Hm as [Hm _]. by eapply ParseOldAtomList_pres.
  - apply ret_inr in Hm as [<- _]. apply Pres_refl.
Qed.

Lemma ParseMolBlockProperties_run_spec E mol st st' ps :
  ParseMolBlockProperties_run E mol st = (st', inr ps) ->
  Pres E false mol (ps_mol ps)
  /\ charges (ps_mol ps) = chargesSpec (propRecords E mol st) true (charges mol).
Proof.
  unfold ParseMolBlockProperties_run, propRecords, chargesSpec. intros H.
  apply bind_inr in H as (st1 & ps0 & Hs & H). rewrite Hs.
  apply (props_start_spec E) in Hs as [HP0 Hf].
  apply props_loop_spec in H as [HP Hc].
  split.
  - eapply Pres_trans; [eapply Pres_weaken; exact HP0|done].
  - rewrite Hf in Hc. unfold charges in *.
    rewrite (Pres_charges _ _ _ HP0) in Hc. by rewrite <- Hc.
Qed.

(** *** The charge records against the spec's wording *)

Lemma map_fmap {A B} (f : A -> B) (l : list A) : map f l = f <$> l.
Proof. done. Qed.

Lemma listedCharge_mono pre post i c :
  listedCharge pre i c -> listedCharge (pre ++ post) i c.
Proof.
  intros (l & aid & Hl & ?). exists l, aid. split; [|done].
  apply elem_of_app. by left.
Qed.

Lemma applyCharges_lookup entries cs i c :
  applyCharges entries cs !! i = Some c ->
  cs !! i = Some c
  \/ (exists aid, (aid, c) ∈ entries /\ Z.to_nat (wrap_uint (aid - 1)) = i).
Proof.
  unfold applyCharges. revert cs.
  induction entries as [|[aid chg] es IH]; intros cs H; simpl in H; [by left|].
  apply IH in H as [H|(aid' & Hin & Hi)].
  - apply list_lookup_insert_Some in H as [(Hi & Hc & _)|[_ H]]; [|by left].
    right. exists aid. subst. split; [apply elem_of_cons; by left|done].
  - right. exists aid'. split; [apply elem_of_cons; by right|done].
Qed.

Lemma zeros_lookup (cs : list Z) i c : map (fun _ => 0) cs !! i = Some c -> c = 0.
Proof.
  rewrite map_fmap, list_lookup_fmap. destruct (cs !! i); simpl; congruence.
Qed.

Lemma fold_charge_inv recs pre first cs :
  (first = false ->
   forall i c, cs !! i = Some c -> c = 0 \/ listedCharge pre i c) ->
  let r := fold_left (fun fc l => chargeStep l fc) recs (first, cs) in
  (fst r = false ->
   forall i c, snd r !! i = Some c -> c = 0 \/ listedCharge (pre ++ recs) i c)
  /\ (fst r = true ->
      first = true /\ (forall l, l ∈ recs -> isChargeRecord l = false)).
Proof.
  revert pre first cs. induction recs as [|l rs IH]; intros pre first cs HQ.
  { simpl. rewrite app_nil_r. split; [done|]. intros ->. split; [done|].
    intros l Hl. by apply elem_of_nil in Hl. }
  cbn [fold_left].
  destruct (chargeStep l (first, cs)) as [first1 cs1] eqn:Hstep.
  assert (first1 = false ->
          forall i c, cs1 !! i = Some c -> c = 0 \/ listedCharge (pre ++ [l]) i c)
    as HQ1.
  { intros Hf1 i c Hc. unfold chargeStep in Hstep.
    assert (forall c', (if first then map (fun _ => 0) cs else cs) !! i = Some c' ->
              c' = 0 \/ listedCharge (pre ++ [l]) i c') as Hreset.
    { intros c' Hc'. destruct first.
      - left. by eapply zeros_lookup.
      - destruct (HQ eq_refl i c' Hc') as [?|?]; [by left|right].
        by apply listedCharge_mono. }
    destruct (String.eqb (lineBeg l) "M  CHG") eqn:HCHG.
    - injection Hstep as <- <-.
      apply applyCharges_lookup in Hc as [Hc|(aid & Hin & Hi)]; [by apply Hreset|].
      right. exists l, aid. split; [apply elem_of_app; right; by apply elem_of_cons; left|].
      done.
    - destruct (String.eqb (lineBeg l) "M  RAD").
      + injection Hstep as <- <-. by apply Hreset.
      + injection Hstep as <- <-.
        destruct (HQ Hf1 i c Hc) as [?|?]; [by left|right].
        by apply listedCharge_mono. }
  specialize (IH (pre ++ [l]) first1 cs1 HQ1).
  rewrite <- app_assoc in IH. simpl in IH.
  destruct IH as [IH1 IH2]. split; [done|].
  intros Hr. destruct (IH2 Hr) as [-> Hrs].
  unfold chargeStep in Hstep.
  destruct (String.eqb (lineBeg l) "M  CHG") eqn:HCHG; [by injection Hstep|].
  destruct (String.eqb (lineBeg l) "M  RAD"); [by injection Hstep|].
  injection Hstep as <- _. split; [done|].
  intros l' Hl'. apply elem_of_cons in Hl' as [->|Hl']; [done|by apply Hrs].
Qed.

Lemma chargesSpec_listed recs cs :
  (exists l, l ∈ recs /\ isChargeRecord l = true) ->
  forall i c, chargesSpec recs true cs !! i = Some c ->
    c = 0 \/ listedCharge recs i c.
Proof.
  intros (l & Hl & Hc) i c Hi. unfold chargesSpec in Hi.
  assert (true = false ->
          forall i c, cs !! i = Some c -> c = 0 \/ listedCharge [] i c) as H0
    by done.
  destruct (fold_charge_inv recs [] true cs H0) as [H1 H2].
  cbv zeta in H1, H2. rewrite app_nil_l in H1.
  apply H1; [|exact Hi].
  destruct (fst (fold_left _ recs (true, cs))) eqn:Hf; [|done].
  destruct (H2 eq_refl) as [_ H]. rewrite (H l Hl) in Hc. done.
Qed.

(** *** What follows the try block keeps the graph *)

Lemma calcExplicitValences_pres E n i mol :
  Pres E true mol (calcExplicitValences E n i mol).
Proof.
  revert i mol. induction n as [|n IH]; intros i mol; simpl; [apply Pres_refl|].
  eapply Pres_trans; [|apply IH].
  destruct (atoms mol !! i) as [a|] eqn:Ha; [|apply Pres_refl].
  apply Pres_insert with a; [done|apply atomStep_setExplicitValence|].
  intros _ _. left. by intros _ Hc.
Qed.


Lemma Query_ind' (P : Query -> Prop) :
  (forall t d n f v ch, Forall P ch -> P (mkQuery t d n f v ch)) ->
  forall q, P q.
Proof.
  intros H. fix IH 1. intros [t d n f v ch]. apply H.
  induction ch as [|c ch IHch]; constructor; [apply IH|exact IHch].
Qed.

Lemma mapRes_inr {A B} (f : A -> Res B) l l' :
  mapRes f l = inr l' -> Forall2 (fun a b => f a = inr b) l l'.
Proof.
  revert l'. induction l as [|a l IH]; intros l' H; simpl in H.
  { simplify_eq. constructor. }
  destruct (f a) as [e|b] eqn:Hb; [done|].
  destruct (mapRes f l) as [e|bs]; [done|]. simplify_eq.
  constructor; [done|by apply IH].
Qed.

Lemma completeQueryAndChildren_clean E df q q' :
  (forall f, df f <> MAGIC) ->
  completeQueryAndChildren E df MAGIC q = inr q' -> magicFree q'.
Proof.
  intros Hdf. revert q'. induction q as [t d n f v ch IH] using Query_ind'.
  intros q' H. simpl in H.
  apply rbind_inr in H as (v' & Hv & H).
  apply rbind_inr in H as (ch' & Hch & H). simplify_eq.
  apply mapRes_inr in Hch.
  unfold magicFree. simpl. rewrite elem_of_app. intros [Hm|Hm].
  - case_bool_decide as Hg.
    + destruct f; simplify_eq; simpl in Hm;
        apply list_elem_of_singleton in Hm; by eapply Hdf.
    + simplify_eq. unfold getVal in Hg. simpl in Hg.
      destruct v' as [x|]; simpl in *; [|by apply elem_of_nil in Hm].
      apply list_elem_of_singleton in Hm. congruence.
  - clear Hv. induction Hch as [|c c' ch ch' Hc Hch IHch]; simpl in Hm.
    { by apply elem_of_nil in Hm. }
    inversion IH; subst. apply elem_of_app in Hm as [Hm|Hm].
    + by eapply H1.
    + by apply IHch.
Qed.

Lemma CompleteMolQueries_from_spec E n i mol mol' :
  CompleteMolQueries_from E n i mol MAGIC = inr mol' ->
  bonds mol' = bonds mol /\ conformers mol' = conformers mol
  /\ Forall2 sameScalars (atoms mol) (atoms mol')
  /\ (forall j, (j < i \/ i + n <= j)%nat -> atoms mol' !! j = atoms mol !! j)
  /\ ((forall f m j, perceive E f m j <> MAGIC) ->
      forall j a', (i <= j < i + n)%nat -> atoms mol' !! j = Some a' -> clean a').
Proof.
  revert i mol. induction n as [|n IH]; intros i mol H; simpl in H.
  { simplify_eq. repeat split; try done.
    - apply Forall2_diag. by left.
    - intros _ j a' Hj. lia. }
  apply rbind_inr in H as (mol1 & H1 & H).
  apply IH in H as (Hb & Hc & Ha & Hout & Hin).
  assert (bonds mol1 = bonds mol /\ conformers mol1 = conformers mol
          /\ Forall2 sameScalars (atoms mol) (atoms mol1)
          /\ (forall j, j <> i -> atoms mol1 !! j = atoms mol !! j)
          /\ ((forall f m j, perceive E f m j <> MAGIC) ->
              forall a', atoms mol1 !! i = Some a' -> clean a')) as
    (Hb1 & Hc1 & Ha1 & Hout1 & Hin1).
  { destruct (atoms mol !! i) as [a|] eqn:Hai.
    - destruct (aquery a) as [q|] eqn:Hq.
      + apply rbind_inr in H1 as (q' & Hq' & H1). simplify_eq. simpl.
        repeat split; try done.
        * eapply Forall2_insert_self; [by left|done|]. right. eauto.
        * intros j Hj. by rewrite list_lookup_insert_ne.
        * intros Hp a'. rewrite list_lookup_insert_eq by (by eapply lookup_lt_Some).
          intros [= <-]. apply clean_setAtomQuery.
          eapply completeQueryAndChildren_clean; [|done]. intros f. apply Hp.
      + simplify_eq. repeat split; try done.
        * apply Forall2_diag. by left.
        * intros _ a' Ha'. simplify_eq. unfold clean. by rewrite Hq.
    - simplify_eq. repeat split; try done.
      + apply Forall2_diag. by left.
      + intros _ a' Ha'. congruence. }
  repeat split; try congruence.
  - eapply Forall2_trans'; [|exact Ha1|exact Ha].
    intros a b c [->|[q ->]] [->|[q' ->]]; [by left|right; eauto..].
  - intros j Hj. rewrite Hout by lia. apply Hout1. lia.
  - intros Hp j a' Hj Ha'.
    destruct (decide (j = i)) as [->|Hne].
    + rewrite Hout in Ha' by lia. by eapply Hin1.
    + eapply Hin; [done| |done]. lia.
Qed.

Lemma CompleteMolQueries_spec E mol mol' :
  CompleteMolQueries E mol MAGIC = inr mol' ->
  bonds mol' = bonds mol /\ conformers mol' = conformers mol
  /\ Forall2 sameScalars (atoms mol) (atoms mol')
  /\ ((forall f m j, perceive E f m j <> MAGIC) -> Forall clean (atoms mol')).
Proof.
  unfold CompleteMolQueries. intros H.
  apply CompleteMolQueries_from_spec in H as (Hb & Hc & Ha & _ & Hin).
  repeat split; try done.
  intros Hp. apply Forall_lookup. intros j a' Ha'.
  eapply Hin; [done| |done].
  apply lookup_lt_Some in Ha'. apply Forall2_length in Ha. lia.
Qed.

Lemma sameScalars_charge a a' : sameScalars a a' -> formalCharge a' = formalCharge a.
Proof. by intros [->|[q ->]]. Qed.

Lemma finishMol_spec E fc res cp rh mol :
  finishMol E fc res cp false rh = inr mol ->
  fc = true
  /\ bonds mol = bonds res /\ conformers mol = conformers res
  /\ charges mol = charges res
  /\ List.length (atoms mol) = List.length (atoms res)
  /\ (TableOK E -> Inv res -> Forall clean (atoms mol)).
Proof.
  unfold finishMol. destruct fc; [|done]. cbn [negb]. intros H.
  set (res1 := calcExplicitValences E _ 0 res) in *.
  pose proof (calcExplicitValences_pres E (List.length (atoms res)) 0 res) as HP.
  fold res1 in HP.
  pose proof (Pres_charges _ _ _ HP) as Hch.
  pose proof (Pres_length _ _ _ _ HP) as Hlen.
  pose proof HP as HP'.
  destruct HP as (Hb & Hc & Ha & Hf & Hq).
  cbn [rbind] in H.
  destruct (hasProp "_NeedsQueryScan" res1) eqn:Hn.
  - apply CompleteMolQueries_spec in H as (Hb' & Hc' & Ha' & Hcl).
    simpl in *. repeat split; try congruence.
    + unfold charges. rewrite <- Hch. clear -Ha'.
      induction Ha' as [|a b l k Hab _ IH]; simpl; [done|].
      by rewrite IH, (sameScalars_charge _ _ Hab).
    + apply Forall2_length in Ha'. lia.
    + intros (_ & _ & Hp) _. by apply Hcl.
  - simplify_eq. repeat split; try done.
    intros HE HI.
    destruct (Pres_Inv _ _ _ _ HE HP' HI) as (_ & _ & [?|Hs]); [done|].
    unfold needsScan in Hs. congruence.
Qed.

(** *** A successful run, taken apart *)

Lemma MolDataStreamToMol_inv E s rh st st' mol :
  MolDataStreamToMol E s rh st = (st', inr (Some mol)) ->
  exists st1 res nAtoms nBonds v fc res' cp,
    readCounts st = (st1, inr (Some (res, (nAtoms, nBonds, v))))
    /\ parseCTAB E nAtoms nBonds v res st1 = (st', inr (fc, res', cp))
    /\ finishMol E fc res' cp s rh = inr mol.
Proof.
  unfold MolDataStreamToMol. intros H.
  apply bind_inr in H as (st1 & hc & Hrc & H).
  destruct hc as [[res [[nAtoms nBonds] v]]|];
    [|apply ret_inr in H as [? _]; done].
  apply bind_inr in H as (st2 & [[fc res'] cp] & Hp & H).
  apply bind_inr in H as (st3 & m & Hf & H).
  apply lift_inr in Hf as [Hf ->]. apply ret_inr in H as [[= ->] ->].
  by exists st1, res, nAtoms, nBonds, v, fc, res', cp.
Qed.

Lemma MolDataStreamToMol_V2000 E s rh st st' mol g st1 :
  MolDataStreamToMol E s rh st = (st', inr (Some mol)) ->
  v2000Graph E st = Some (g, st1) ->
  exists ps cp,
    ParseMolBlockProperties_run E g st1 = (st', inr ps)
    /\ finishMol E (props_complete ps) (ps_mol ps) cp s rh = inr mol.
Proof.
  intros H Hg.
  apply MolDataStreamToMol_inv in H
    as (st0 & res & nAtoms & nBonds & v & fc & res' & cp & Hrc & Hp & Hf).
  unfold v2000Graph, bind in Hg. rewrite Hrc in Hg.
  case_bool_decide as Hv; [subst v|done].
  unfold parseCTAB in Hp. rewrite bool_decide_eq_true_2 in Hp by done.
  unfold ParseV2000MolBlock in Hp.
  apply bind_inr in Hp as (st2 & mb & Hmb & Hp). rewrite Hmb in Hg.
  injection Hg as <- <-.
  apply bind_inr in Hp as (st3 & fm & Hfm & Hp).
  apply ret_inr in Hp as [[= <- <- <-] <-].
  unfold ParseMolBlockProperties in Hfm.
  apply bind_inr in Hfm as (st4 & ps & Hps & Hfm).
  apply ret_inr in Hfm as [<- <-]. simpl in Hf. eauto.
Qed.

Lemma inputRecords_V2000 E st l :
  l ∈ inputRecords E st ->
  exists g st1, v2000Graph E st = Some (g, st1)
    /\ inputRecords E st = propRecords E g st1.
Proof.
  unfold inputRecords. destruct (v2000Graph E st) as [[g st1]|]; [eauto|].
  intros H. by apply elem_of_nil in H.
Qed.

(** C4: in a V2000 input, the formal charges of the molecule returned are
    those that the spec's wording gives for the property records of the
    input: the first [CHG] or [RAD] record resets every charge to 0 and
    only that one does, and each [CHG] record then sets the charges it
    lists.  So when the input has a [M  CHG] record, every atom's formal
    charge is 0 or the value of an [(aid, chg)] entry for that atom. *)
Theorem charge_records_fix_charges (E : Externals) (removeHsFlag : bool)
  (st st' : St) (mol : RWMol) :
  MolDataStreamToMol E false removeHsFlag st = (st', inr (Some mol)) ->
  (forall g st1, v2000Graph E st = Some (g, st1) ->
     charges mol = chargesSpec (inputRecords E st) true (charges g))
  /\ ((exists l, l ∈ inputRecords E st /\ isChargeRecord l = true) ->
      forall i a, atoms mol !! i = Some a ->
        formalCharge a = 0
        \/ listedCharge (inputRecords E st) i (formalCharge a)).
Proof.
  intros H.
  assert (forall g st1, v2000Graph E st = Some (g, st1) ->
            charges mol = chargesSpec (inputRecords E st) true (charges g)) as Hspec.
  { intros g st1 Hg.
    destruct (MolDataStreamToMol_V2000 _ _ _ _ _ _ _ _ H Hg) as (ps & cp & Hps & Hf).
    apply finishMol_spec in Hf as (_ & _ & _ & Hc & _).
    apply ParseMolBlockProperties_run_spec in Hps as [_ Hc'].
    unfold inputRecords. rewrite Hg. congruence. }
  split; [exact Hspec|].
  intros (l & Hl & Hc) i a Ha.
  destruct (inputRecords_V2000 _ _ _ Hl) as (g & st1 & Hg & _).
  apply (chargesSpec_listed _ (charges g)); [by exists l|].
  rewrite <- (Hspec g st1 Hg). unfold charges.
  by rewrite map_fmap, list_lookup_fmap, Ha.
Qed.

Lemma charge_records_fix_charges_witness :
  exists mol,
    snd (MolBlockToMol (sampleExternals 0 0) (nitroBlock "M  END") false false)
    = inr (Some mol)
    /\ charges mol = [1; -1; 0; 0].
Proof.
  unfold MolBlockToMol. fold (initialState (nitroBlock "M  END")).
  destruct (MolDataStreamToMol (sampleExternals 0 0) false false
              (initialState (nitroBlock "M  END")))
    as [st' r] eqn:Hrun.
  assert (exists mol, r = inr (Some mol)) as [mol ->].
  { vm_compute in Hrun. injection Hrun as _ <-. eauto. }
  exists mol. split; [done|].
  destruct (charge_records_fix_charges (sampleExternals 0 0) false
              (initialState (nitroBlock "M  END")) st' mol Hrun) as [Hspec _].
  destruct (v2000Graph (sampleExternals 0 0) (initialState (nitroBlock "M  END")))
    as [[g st1]|] eqn:Hg; [|vm_compute in Hg; discriminate].
  rewrite (Hspec g st1 eq_refl).
  vm_compute in Hg. injection Hg as <- <-. vm_compute. reflexivity.
Defined.

(** *** The V2000 atom line *)

Lemma wildcardAtom_ok symb :
  formalCharge (wildcardAtom symb) = 0
  /\ atomicNum (wildcardAtom symb) = 0
  /\ mass (wildcardAtom symb) = 0%Q
  /\ clean (wildcardAtom symb).
Proof.
  unfold wildcardAtom.
  destruct (String.eqb symb "*");
    [|destruct (String.eqb symb "Q"); [|destruct (String.eqb symb "A")]];
    (repeat split; try done); unfold clean, magicFree; simpl;
    rewrite MAGIC_value; intros H;
    repeat (apply elem_of_cons in H as [H|H]; [discriminate H|]);
    by apply elem_of_nil in H.
Qed.

Lemma R_mass_ok symb a :
  formalCharge (R_mass symb a) = formalCharge a
  /\ atomicNum (R_mass symb a) = atomicNum a
  /\ aquery (R_mass symb a) = aquery a
  /\ (mass (R_mass symb a) = mass a
      \/ exists k, 1 <= k <= 9 /\ mass (R_mass symb a) = inject_Z k).
Proof.
  unfold R_mass.
  repeat case_match; repeat split; try done;
    first [ by left
          | right; eexists; split; [|reflexivity]; lia ].
Qed.


Lemma tableMass_mass_ok m : tableMass m -> mass_ok m.
Proof. unfold tableMass, mass_ok, Qle. simpl. lia. Qed.

Lemma tableMass_inject_Z k : -1000000 <= k <= 1000000 -> tableMass (inject_Z k).
Proof. unfold tableMass, Qle. simpl. lia. Qed.

Lemma mass_plus_diff m d :
  tableMass m -> -10000 < d < 10000 -> mass_ok (Qred (m + inject_Z d)).
Proof.
  intros [H1 H2] Hd. apply mass_ok_Qred. unfold mass_ok.
  assert (-10000 <= inject_Z d /\ inject_Z d <= 10000)%Q as [H3 H4].
  { unfold Qle. simpl. lia. }
  split.
  - apply Qle_trans with (-1000000 + -10000)%Q; [done|].
    by apply Qplus_le_compat.
  - apply Qle_trans with (1000000 + 10000)%Q; [|done].
    by apply Qplus_le_compat.
Qed.

Lemma optIntField_default_bound text lo w zero v :
  optIntField text lo w zero = inr v -> (w <= 4)%nat ->
  -10000 < default 0 v < 10000.
Proof.
  intros H Hw. destruct v as [v|]; simpl; [|lia].
  by eapply optIntField_bound.
Qed.

Lemma setOptProp_scalars k v a :
  formalCharge (setOptProp k v a) = formalCharge a
  /\ atomicNum (setOptProp k v a) = atomicNum a
  /\ mass (setOptProp k v a) = mass a
  /\ aquery (setOptProp k v a) = aquery a.
Proof. by destruct v. Qed.

Lemma atom_ok_setOptProp k v a : atom_ok (setOptProp k v a) <-> atom_ok a.
Proof. by destruct v. Qed.

Lemma clean_setOptProp k v a : clean (setOptProp k v a) <-> clean a.
Proof. by destruct v. Qed.

Lemma symbolAtom_fresh E symb massDiff res :
  (if str_in symb ["L"; "A"; "Q"; "*"; "LP"; "R"; "R#"]
      || (String.leb "R0" symb && String.leb symb "R9") then
     let res :=
       if str_in symb ["A"; "Q"; "*"] then wildcardAtom symb
       else setAtomicNum 0 newAtom in
     let res :=
       if bool_decide (massDiff = 0) && bool_decide (char_at symb 0 = "R"%char)
       then R_mass symb res else res in
     inr res
   else if String.eqb symb "D" then
     inr (setMass (2014 # 1000) (setAtomicNum 1 newAtom))
   else if String.eqb symb "T" then
     inr (setMass (3016 # 1000) (setAtomicNum 1 newAtom))
   else
     let? n := lookupAtomicNumber E symb in
     inr (setMass (getAtomicWeight E n) (setAtomicNum n newAtom))) = inr res ->
  TableOK E -> freshAtom res.
Proof.
  intros H HE.
  destruct (_ || _).
  - injection H as <-.
    assert (forall r0, freshAtom r0 -> mass r0 = 0%Q ->
              freshAtom (if bool_decide (massDiff = 0)
                            && bool_decide (char_at symb 0 = "R"%char)
                         then R_mass symb r0 else r0)) as Hr.
    { intros r0 (Hc & Hn & Hm & Hq) Hm0.
      destruct (_ && _); [|done].
      destruct (R_mass_ok symb r0) as (H1 & H2 & H3 & H4).
      unfold freshAtom, clean. rewrite H1, H2, H3.
      split; [done|]. split; [done|]. split; [|exact Hq].
      destruct H4 as [->|(k & Hk & ->)]; [done|].
      apply tableMass_inject_Z. lia. }
    apply Hr.
    + match goal with |- context [if ?b then wildcardAtom _ else _] => destruct b end.
      * destruct (wildcardAtom_ok symb) as (H1 & H2 & H3 & H4).
        split; [done|]. split; [rewrite H2; unfold small; lia|].
        split; [by rewrite H3|done].
      * repeat split; try done.
    + match goal with |- context [if ?b then wildcardAtom _ else _] => destruct b end;
        [|done].
      apply wildcardAtom_ok.
  - destruct (String.eqb symb "D").
    { injection H as <-. by repeat split. }
    destruct (String.eqb symb "T").
    { injection H as <-. by repeat split. }
    apply rbind_inr in H as (n & Hn & [= <-]).
    pose proof (lookupAtomicNumber_small _ _ _ Hn HE) as Hsm.
    destruct HE as (_ & Hw & _). specialize (Hw n).
    split; [done|]. split; [done|]. split; [exact Hw|done].
Qed.

Lemma ParseMolFileAtomLine_ok E text a pos :
  ParseMolFileAtomLine E text = inr (a, pos) ->
  TableOK E -> atom_ok a /\ clean a.
Proof.
  unfold ParseMolFileAtomLine. intros H HE.
  case_match; [done|].
  apply rbind_inr in H as (p & _ & H).
  apply rbind_inr in H as (symb0 & _ & H).
  apply rbind_inr in H as (massDiff & HmD & H).
  apply rbind_inr in H as (chg & Hchg & H).
  apply rbind_inr in H as (hCount & _ & H).
  apply rbind_inr in H as (res & Hres & H).
  apply (symbolAtom_fresh E) in Hres as (Hc & Hn & Hm & Hq); [|done].
  apply optIntField_default_bound in HmD; [|lia].
  apply optIntField_default_bound in Hchg; [|lia].
  apply rbind_inr in H as (parity & _ & H).
  apply rbind_inr in H as (stereoCare & _ & H).
  apply rbind_inr in H as (totValence & _ & H).
  apply rbind_inr in H as (atomMapNumber & _ & H).
  apply rbind_inr in H as (inversionFlag & _ & H).
  apply rbind_inr in H as (exactChangeFlag & _ & H).
  injection H as <- _.
  rewrite !atom_ok_setOptProp, !clean_setOptProp.
  set (r1 := if bool_decide (default 0 chg <> 0) then _ else res).
  assert (small (formalCharge r1) /\ atomicNum r1 = atomicNum res
          /\ mass r1 = mass res /\ aquery r1 = aquery res) as (H1 & H2 & H3 & H4).
  { unfold r1. case_bool_decide; simpl; repeat split; try done;
      unfold small; rewrite ?Hc; lia. }
  set (r2 := if bool_decide (default 0 hCount = 1) then _ else r1).
  assert (formalCharge r2 = formalCharge r1 /\ atomicNum r2 = atomicNum r1
          /\ mass r2 = mass r1 /\ aquery r2 = aquery r1) as (H5 & H6 & H7 & H8).
  { unfold r2. by case_bool_decide. }
  case_bool_decide; unfold atom_ok, clean; simpl;
    rewrite H5, H6, H8, H7, H2, H3, H4.
  - split; [|exact Hq]. split; [done|]. split; [done|].
    by apply mass_plus_diff.
  - split; [|exact Hq]. split; [done|]. split; [done|].
    by apply tableMass_mass_ok.
Qed.

(** *** The V2000 atom and bond blocks *)

Lemma setAtomPos_length aid p c :
  (Z.to_nat aid < List.length (positions c))%nat ->
  List.length (positions (setAtomPos aid p c)) = List.length (positions c).
Proof.
  intros H. unfold setAtomPos. simpl. rewrite length_insert.
  destruct (Nat.leb_spec (List.length (positions c)) (Z.to_nat aid)); [lia|done].
Qed.

Lemma ParseMolBlockAtoms_spec E n : forall mol conf st st' mol' conf',
  ParseMolBlockAtoms E n mol conf st = (st', inr (mol', conf')) ->
  exists new, atoms mol' = atoms mol ++ new /\ List.length new = n
    /\ bonds mol' = bonds mol /\ mprops mol' = mprops mol
    /\ (conformers mol = [] -> conformers mol' = [])
    /\ ((List.length (atoms mol) + n <= List.length (positions conf))%nat ->
        List.length (positions conf') = List.length (positions conf))
    /\ (TableOK E -> Forall (fun a => atom_ok a /\ clean a) new).
Proof.
  induction n as [|n IH]; intros mol conf st st' mol' conf' H.
  - apply ret_inr in H as [[= <- <-] _]. exists []. rewrite app_nil_r.
    by repeat split.
  - cbn [ParseMolBlockAtoms] in H.
    apply bind_inr in H as (st1 & [] & _ & H).
    apply bind_inr in H as (st2 & tempStr & _ & H).
    apply bind_inr in H as (st3 & atEnd & _ & H).
    destruct atEnd; [by apply throw_inr in H|].
    apply bind_inr in H as (st4 & [a pos] & Hl & H).
    apply lift_inr in Hl as [Hl ->].
    unfold addAtom in H. cbn [fst snd] in H.
    apply IH in H as (new & Hat & Hlen & Hb & Hp & Hc & Hpos & Hok).
    cbn [atoms bonds mprops conformers] in *.
    exists (a :: new). rewrite Hat, <- app_assoc. simpl.
    split; [done|]. split; [by rewrite Hlen|]. split; [done|]. split; [done|].
    split; [|split].
    + intros Hn. apply Hc. by rewrite Hn.
    + intros Hn. rewrite Hpos.
      * apply setAtomPos_length. unfold getNumAtoms. lia.
      * rewrite setAtomPos_length by (unfold getNumAtoms; lia).
        rewrite length_app. simpl. lia.
    + intros HE. constructor; [|by apply Hok].
      by apply (ParseMolFileAtomLine_ok E tempStr a pos).
Qed.

Lemma addBond_inr m b m' :
  addBond m b = inr m' ->
  m' = with_bonds (bonds m ++ [b]) m
  /\ 0 <= beginAtomIdx b <= wrap_uint (getNumAtoms m - 1)
  /\ 0 <= endAtomIdx b <= wrap_uint (getNumAtoms m - 1)
  /\ beginAtomIdx b <> endAtomIdx b
  /\ existsb (sameEnds b) (bonds m) = false.
Proof.
  unfold addBond. intros H.
  apply rbind_inr in H as (u1 & H1 & H). apply RANGE_CHECK_inr in H1.
  apply rbind_inr in H as (u2 & H2 & H). apply RANGE_CHECK_inr in H2.
  apply rbind_inr in H as (u3 & H3 & H). apply PRECONDITION_inr in H3.
  apply rbind_inr in H as (u4 & H4 & H). apply PRECONDITION_inr in H4.
  injection H as <-. apply negb_true_iff in H3, H4.
  apply bool_decide_eq_false in H3. done.
Qed.

Lemma ends_fresh b bs :
  existsb (sameEnds b) bs = false -> ends b ∉ map ends bs.
Proof.
  intros H Hin. apply list_elem_of_In, in_map_iff in Hin as (b' & He & Hb').
  assert (existsb (sameEnds b) bs = true) as Ht; [|congruence].
  apply existsb_exists. exists b'. split; [done|].
  unfold ends in He. injection He as H1 H2.
  unfold sameEnds. rewrite H1, H2.
  by rewrite 2!bool_decide_eq_true_2 by done.
Qed.

Lemma bondsOK_add n m b m' :
  addBond m b = inr m' ->
  getNumAtoms m = n -> 1 <= n < 2 ^ 32 ->
  bondsOK n (bonds m) -> bondsOK n (bonds m').
Proof.
  intros H Hn Hr [HF HN].
  apply addBond_inr in H as (-> & Hb & He & Hne & Hex).
  rewrite Hn in Hb, He. unfold wrap_uint in Hb, He.
  rewrite Z.mod_small in Hb, He by lia.
  simpl. split.
  - apply Forall_app. split; [done|]. constructor; [|constructor].
    unfold bondInRange. lia.
  - rewrite map_app. simpl. apply NoDup_app. split; [done|]. split.
    + intros x Hx Hx'. apply list_elem_of_singleton in Hx'. subst x.
      by apply ends_fresh in Hex.
    + apply NoDup_singleton.
Qed.

(** No more bonds than pairs of atoms. *)
Lemma bondsOK_length n bs :
  bondsOK n bs -> 0 <= n -> Z.of_nat (List.length bs) <= n * n.
Proof.
  intros [HF HN] Hn.
  assert (map ends bs ⊆+ list_prod (seqZ 0 n) (seqZ 0 n)) as Hs.
  { apply NoDup_submseteq; [done|]. intros [x y] Hx.
    apply list_elem_of_In, in_map_iff in Hx as (b & He & Hb).
    apply list_elem_of_In in Hb.
    rewrite Forall_forall in HF. apply HF in Hb as (H1 & H2 & _).
    unfold ends in He. injection He as <- <-.
    apply list_elem_of_In, in_prod; apply list_elem_of_In, elem_of_seqZ; lia. }
  apply submseteq_length in Hs.
  rewrite length_map, length_prod, !length_seqZ in Hs. nia.
Qed.

Lemma sameCore_refl a : sameCore a a.
Proof. done. Qed.

Lemma sameCore_trans a b c : sameCore a b -> sameCore b c -> sameCore a c.
Proof.
  intros (H1 & H2 & H3 & H4) (H5 & H6 & H7 & H8).
  unfold sameCore. by rewrite H5, H6, H7, H8.
Qed.

Lemma sameCore_upd mol idx f mol' :
  updAtomWithIdx mol idx f = inr mol' ->
  (forall a, sameCore a (f a)) ->
  bonds mol' = bonds mol /\ conformers mol' = conformers mol
  /\ mprops mol' = mprops mol
  /\ Forall2 sameCore (atoms mol) (atoms mol').
Proof.
  intros H Hf. apply updAtomWithIdx_inr in H as (a & Ha & ->). simpl.
  repeat split; try done.
  apply Forall2_insert_self with a; [apply sameCore_refl|done|apply Hf].
Qed.

Lemma aromatized_refl a : aromatized a a.
Proof. by left. Qed.

Lemma aromatized_trans a b c : aromatized a b -> aromatized b c -> aromatized a c.
Proof. intros [->| ->] [->| ->]; by (left + right). Qed.

Lemma aromatized_sameCore a a' : aromatized a a' -> sameCore a a'.
Proof. by intros [->| ->]. Qed.

Lemma aromatized_upd mol idx mol' :
  updAtomWithIdx mol idx (setIsAromatic true) = inr mol' ->
  bonds mol' = bonds mol /\ conformers mol' = conformers mol
  /\ mprops mol' = mprops mol
  /\ Forall2 aromatized (atoms mol) (atoms mol').
Proof.
  intros H. apply updAtomWithIdx_inr in H as (a & Ha & ->). simpl.
  repeat split; try done.
  apply Forall2_insert_self with a; [apply aromatized_refl|done|by right].
Qed.

Lemma ParseMolBlockBonds_spec n : forall mol cp st st' mol' cp',
  ParseMolBlockBonds n mol cp st = (st', inr (mol', cp')) ->
  exists new, bonds mol' = bonds mol ++ new /\ List.length new = n
    /\ conformers mol' = conformers mol /\ mprops mol' = mprops mol
    /\ Forall2 aromatized (atoms mol) (atoms mol')
    /\ (1 <= getNumAtoms mol < 2 ^ 32 ->
        bondsOK (getNumAtoms mol) (bonds mol) ->
        bondsOK (getNumAtoms mol) (bonds mol')).
Proof.
  induction n as [|n IH]; intros mol cp st st' mol' cp' H.
  - apply ret_inr in H as [[= <- <-] _]. exists []. rewrite app_nil_r.
    split; [done|]. split; [done|]. split; [done|]. split; [done|].
    split; [apply Forall2_diag, aromatized_refl|done].
  - cbn [ParseMolBlockBonds] in H.
    apply bind_inr in H as (st1 & [] & _ & H).
    apply bind_inr in H as (st2 & tempStr & _ & H).
    apply bind_inr in H as (st3 & atEnd & _ & H).
    destruct atEnd; [by apply throw_inr in H|].
    apply bind_inr in H as (st4 & bond & _ & H).
    apply bind_inr in H as (st5 & [bond1 mol1] & Hbm & H).
    apply lift_inr in Hbm as [Hbm ->].
    apply bind_inr in H as (st6 & mol2 & Hadd & H).
    apply lift_inr in Hadd as [Hadd ->].
    assert (bonds mol1 = bonds mol /\ conformers mol1 = conformers mol
            /\ mprops mol1 = mprops mol
            /\ Forall2 aromatized (atoms mol) (atoms mol1)) as (Hb1 & Hc1 & Hp1 & Ha1).
    { destruct (bondType bond);
        try (injection Hbm as _ <-; repeat split; try done;
             apply Forall2_diag, aromatized_refl).
      apply rbind_inr in Hbm as (m1 & Hm1 & Hbm).
      apply rbind_inr in Hbm as (m2 & Hm2 & Hbm).
      injection Hbm as _ <-.
      apply aromatized_upd in Hm1 as (? & ? & ? & ?).
      apply aromatized_upd in Hm2 as (? & ? & ? & ?).
      repeat split; try congruence.
      eapply Forall2_trans'; [apply aromatized_trans|done|done]. }
    assert (getNumAtoms mol1 = getNumAtoms mol) as Hn1.
    { unfold getNumAtoms. by rewrite <- (Forall2_length _ _ _ Ha1). }
    pose proof Hadd as Hadd'.
    apply addBond_inr in Hadd' as (-> & _).
    apply IH in H as (new & Hb & Hlen & Hc & Hp & Ha & Hok).
    change (getNumAtoms (with_bonds (bonds mol1 ++ [bond1]) mol1))
      with (getNumAtoms mol1) in Hok.
    rewrite Hn1 in Hok.
    cbn [atoms bonds conformers mprops with_bonds] in *.
    exists (bond1 :: new).
    split; [by rewrite Hb, Hb1, <- app_assoc|].
    split; [simpl; by rewrite Hlen|].
    split; [congruence|]. split; [congruence|].
    split; [eapply Forall2_trans'; [apply aromatized_trans|done|done]|].
    intros Hr HOK. apply Hok; [done|].
    apply (bondsOK_add _ mol1 bond1 _ Hadd); [done|done|by rewrite Hb1].
Qed.

Lemma readHeader_inr st st' res :
  readHeader st = (st', inr (Some res)) ->
  atoms res = [] /\ bonds res = [] /\ conformers res = [].
Proof.
  unfold readHeader. intros H.
  apply bind_inr in H as (st1 & [] & _ & H).
  apply bind_inr in H as (st2 & t1 & _ & H).
  apply bind_inr in H as (st3 & atEnd & _ & H).
  destruct atEnd; [by apply ret_inr in H as [? _]|].
  apply bind_inr in H as (st4 & [] & _ & H).
  apply bind_inr in H as (st5 & t2 & _ & H).
  apply bind_inr in H as (st6 & [] & _ & H).
  apply bind_inr in H as (st7 & t3 & _ & H).
  apply ret_inr in H as [[= <-] _].
  repeat case_match; done.
Qed.

Lemma countsLine_inr tempStr nAtoms nBonds v :
  countsLine tempStr = inr (nAtoms, nBonds, v) ->
  -10000 < nAtoms < 10000 /\ -10000 < nBonds < 10000
  /\ (v = 2000 \/ v = 3000).
Proof.
  unfold countsLine. destruct (str_size tempStr <? 6)%nat; [done|]. intros H.
  apply rbind_inr in H as (a & Ha & H).
  apply rbind_inr in H as (b & Hb & H).
  apply rbind_inr in H as (u & _ & H).
  apply rbind_inr in H as (w & Hw & H).
  injection H as <- <- <-.
  apply read_int_field_bound in Ha; [|lia].
  apply read_int_field_bound in Hb; [|lia].
  repeat split; try lia.
  repeat case_match; simplify_eq;
    try (apply rbind_inr in Hw as (? & _ & Hw); repeat case_match; simplify_eq);
    by (left + right).
Qed.

Lemma readCounts_inr st st' res nAtoms nBonds v :
  readCounts st = (st', inr (Some (res, (nAtoms, nBonds, v)))) ->
  atoms res = [] /\ bonds res = [] /\ conformers res = []
  /\ -10000 < nAtoms < 10000 /\ -10000 < nBonds < 10000
  /\ (v = 2000 \/ v = 3000).
Proof.
  unfold readCounts. intros H.
  apply bind_inr in H as (st1 & hdr & Hh & H).
  destruct hdr as [res0|]; [|by apply ret_inr in H as [? _]].
  apply readHeader_inr in Hh.
  apply bind_inr in H as (st2 & [] & _ & H).
  apply bind_inr in H as (st3 & t & _ & H).
  apply bind_inr in H as (st4 & c & Hc & H).
  apply lift_inr in Hc as [Hc _].
  apply ret_inr in H as [[= <- ->] _].
  apply countsLine_inr in Hc. tauto.
Qed.

(** *** The V2000 graph *)

Lemma setDimension_inr mol conf mol' conf' :
  setDimension mol conf = (mol', conf') ->
  atoms mol' = atoms mol /\ bonds mol' = bonds mol
  /\ conformers mol' = conformers mol
  /\ positions conf' = positions conf.
Proof. unfold setDimension. repeat case_match; intros [= <- <-]; done. Qed.

Lemma addConformer_inr m c m' :
  addConformer m c = inr m' ->
  m' = with_conformers (conformers m ++ [c]) m
  /\ List.length (positions c) = List.length (atoms m).
Proof.
  unfold addConformer. intros H.
  apply rbind_inr in H as (u & Hu & H). apply PRECONDITION_inr in Hu.
  apply bool_decide_eq_true in Hu. by injection H as <-.
Qed.

Lemma sameCore_atom_ok a a' : sameCore a a' -> atom_ok a -> atom_ok a'.
Proof. intros (H1 & H2 & H3 & _). unfold atom_ok. by rewrite H1, H2, H3. Qed.

Lemma sameCore_clean a a' : sameCore a a' -> clean a -> clean a'.
Proof. intros (_ & _ & _ & H). unfold clean. by rewrite H. Qed.

Lemma ParseV2000Graph_spec E nA nB res cp st st' g cp' :
  ParseV2000Graph E nA nB res cp st = (st', inr (g, cp')) ->
  atoms res = [] -> bonds res = [] -> conformers res = [] ->
  -10000 < nA < 10000 -> -10000 < nB < 10000 ->
  0 < nA /\ 0 <= nB /\ wellShaped nA nB g /\ bondsOK nA (bonds g)
  /\ (TableOK E -> Forall atom_ok (atoms g) /\ Forall clean (atoms g)).
Proof.
  unfold ParseV2000Graph. intros H Hat Hbo Hco HnA HnB.
  destruct (Z.leb_spec nA 0) as [|HA]; [by apply throw_inr in H|].
  assert (wrap_uint nA = nA) as HwA by (unfold wrap_uint; apply Z.mod_small; lia).
  rewrite HwA in H.
  apply bind_inr in H as (st1 & [m1 c1] & Hatoms & H). cbn [fst snd] in H.
  destruct (setDimension m1 c1) as [m2 c2] eqn:Hdim.
  apply bind_inr in H as (st2 & m3 & Hconf & H).
  apply lift_inr in Hconf as [Hconf ->].
  apply ParseMolBlockAtoms_spec in Hatoms
    as (new & Hat1 & Hlen1 & Hbo1 & _ & Hco1 & Hpos1 & Hok1).
  rewrite Hat in Hat1. simpl in Hat1. specialize (Hco1 Hco).
  apply setDimension_inr in Hdim as (Hat2 & Hbo2 & Hco2 & Hpos2).
  apply addConformer_inr in Hconf as (-> & Hpos3).
  apply ParseMolBlockBonds_spec in H as (newb & Hbo4 & Hlen4 & Hco4 & _ & Hat4 & Hok4).
  assert (List.length (atoms m2) = Z.to_nat nA) as Hn2 by congruence.
  assert (forall l, getNumAtoms (with_conformers l m2) = nA) as HN.
  { intros l. unfold getNumAtoms. simpl. rewrite Hn2. lia. }
  rewrite HN in Hok4.
  cbn [atoms bonds conformers with_conformers] in *.
  rewrite Hbo2, Hbo1, Hbo in Hbo4. simpl in Hbo4.
  rewrite Hco2, Hco1 in Hco4. simpl in Hco4.
  assert (bondsOK nA (bonds g)) as HOK.
  { apply Hok4; [lia|]. rewrite Hbo2, Hbo1, Hbo. split; constructor. }
  pose proof (bondsOK_length _ _ HOK ltac:(lia)) as Hle.
  rewrite Hbo4, Hlen4 in Hle.
  assert (0 <= nB) as HB.
  { destruct (Z.lt_ge_cases nB 0) as [Hneg|]; [|done].
    unfold wrap_uint in Hle.
    rewrite <- (Z.mod_add nB 1 (2 ^ 32)) in Hle by lia.
    rewrite Z.mod_small in Hle by lia. nia. }
  assert (wrap_uint nB = nB) as HwB by (unfold wrap_uint; apply Z.mod_small; lia).
  rewrite HwB in Hlen4.
  pose proof (Forall2_length _ _ _ Hat4) as Hn4.
  split; [done|]. split; [done|]. split; [|split; [done|]].
  - unfold wellShaped, getNumAtoms, getNumBonds.
    rewrite <- Hn4, Hn2, Hbo4, Hlen4, Hco4.
    split; [lia|]. split; [lia|]. split.
    + exists c2. split; [done|]. congruence.
    + rewrite Z2Nat.id by lia. rewrite <- Hbo4. apply HOK.
  - intros HE. specialize (Hok1 HE).
    rewrite Hat2, Hat1 in Hat4.
    clear -Hat4 Hok1. induction Hat4 as [|a b l k Hab _ IH]; [done|].
    apply Forall_cons in Hok1 as [[H1 H2] Hok1].
    apply aromatized_sameCore in Hab.
    destruct (IH Hok1) as [IH1 IH2].
    split; constructor; eauto using sameCore_atom_ok, sameCore_clean.
Qed.

Lemma wellShaped_frame nA nB g mol :
  wellShaped nA nB g ->
  bonds mol = bonds g -> conformers mol = conformers g ->
  List.length (atoms mol) = List.length (atoms g) ->
  wellShaped nA nB mol.
Proof.
  unfold wellShaped, getNumAtoms, getNumBonds. intros H Hb Hc Ha.
  by rewrite Hb, Hc, Ha.
Qed.

(** What a successful run on a V2000 input goes through. *)
Lemma MolDataStreamToMol_V2000_inv E rh st st' mol :
  MolDataStreamToMol E false rh st = (st', inr (Some mol)) ->
  inputVersion st = Some 2000 ->
  exists st0 res nA nB st1 g cp ps cp',
    readCounts st = (st0, inr (Some (res, (nA, nB, 2000))))
    /\ ParseV2000Graph E nA nB res false st0 = (st1, inr (g, cp))
    /\ ParseMolBlockProperties_run E g st1 = (st', inr ps)
    /\ finishMol E (props_complete ps) (ps_mol ps) cp' false rh = inr mol.
Proof.
  intros H Hv.
  pose proof H as H'.
  apply MolDataStreamToMol_inv in H'
    as (st0 & res & nA & nB & v & fc & res' & cp & Hrc & Hp & Hf).
  unfold inputVersion in Hv. rewrite Hrc in Hv. injection Hv as ->.
  unfold parseCTAB in Hp. rewrite bool_decide_eq_true_2 in Hp by done.
  unfold ParseV2000MolBlock in Hp.
  apply bind_inr in Hp as (st1 & [g cp0] & Hg & Hp).
  assert (v2000Graph E st = Some (g, st1)) as HG.
  { unfold v2000Graph, bind. rewrite Hrc.
    rewrite bool_decide_eq_true_2 by done. by rewrite Hg. }
  destruct (MolDataStreamToMol_V2000 _ _ _ _ _ _ _ _ H HG) as (ps & cp' & Hps & Hfin).
  by exists st0, res, nA, nB, st1, g, cp0, ps, cp'.
Qed.

Lemma sampleExternals_TableOK u1 u2 : TableOK (sampleExternals u1 u2).
Proof.
  split; [|split]; simpl.
  - intros s n. unfold sampleTable. repeat case_match; intros [= <-]; lia.
  - intros n. unfold sampleWeight, Qle.
    repeat case_match; simpl; lia.
  - intros _ _ _. by rewrite MAGIC_value.
Qed.

(** X1: a V2000 input that parses (without the downstream passes) yields a
    molecule with as many atoms as the counts line declares, and at least
    one; as many bonds as it declares, the declared number not being
    negative; one conformer, with one position per atom; and bonds whose
    ends are two different atoms of the molecule. *)
Theorem v2000_parse_has_declared_shape (E : Externals) (removeHsFlag : bool)
  (st st' : St) (mol : RWMol) :
  MolDataStreamToMol E false removeHsFlag st = (st', inr (Some mol)) ->
  inputVersion st = Some 2000 ->
  exists nAtoms nBonds,
    declaredCounts E st = Some (nAtoms, nBonds)
    /\ 0 < nAtoms /\ 0 <= nBonds
    /\ wellShaped nAtoms nBonds mol.
Proof.
  intros H Hv.
  destruct (MolDataStreamToMol_V2000_inv _ _ _ _ _ H Hv)
    as (st0 & res & nA & nB & st1 & g & cp & ps & cp' & Hrc & Hg & Hps & Hf).
  exists nA, nB.
  split. { unfold declaredCounts. rewrite Hrc. by rewrite bool_decide_eq_true_2. }
  apply readCounts_inr in Hrc as (Hat & Hbo & Hco & HnA & HnB & _).
  apply ParseV2000Graph_spec in Hg as (HA & HB & Hw & _); try done.
  apply ParseMolBlockProperties_run_spec in Hps as [HP _].
  apply finishMol_spec in Hf as (_ & Hb' & Hc' & _ & Hl' & _).
  split; [done|]. split; [done|].
  destruct HP as (Hb & Hc & Ha & _).
  apply wellShaped_frame with g; [done|congruence|congruence|].
  apply Forall2_length in Ha. lia.
Qed.

Lemma v2000_parse_has_declared_shape_witness :
  exists mol,
    snd (MolDataStreamToMol (sampleExternals 0 0) false false
           (initialState (nitroBlock "M  END")))
    = inr (Some mol)
    /\ wellShaped 4 3 mol.
Proof.
  destruct (MolDataStreamToMol (sampleExternals 0 0) false false
              (initialState (nitroBlock "M  END")))
    as [st' r] eqn:Hrun.
  assert (exists mol, r = inr (Some mol)) as [mol ->].
  { vm_compute in Hrun. injection Hrun as _ <-. eauto. }
  exists mol. split; [done|].
  destruct (v2000_parse_has_declared_shape (sampleExternals 0 0) false
              (initialState (nitroBlock "M  END")) st' mol Hrun)
    as (nA & nB & Hd & _ & _ & Hw).
  { vm_compute. reflexivity. }
  vm_compute in Hd. injection Hd as <- <-. exact Hw.
Defined.

(** X2: in the molecule that a V2000 input parses to (without the
    downstream passes), no node of any atom's query tree stores the
    sentinel, provided the periodic table holds atomic numbers and weights
    below 10^6 and no perception function returns the sentinel itself. *)
Theorem v2000_parse_leaves_no_sentinel (E : Externals) (removeHsFlag : bool)
  (st st' : St) (mol : RWMol) :
  TableOK E ->
  MolDataStreamToMol E false removeHsFlag st = (st', inr (Some mol)) ->
  inputVersion st = Some 2000 ->
  Forall clean (atoms mol).
Proof.
  intros HE H Hv.
  destruct (MolDataStreamToMol_V2000_inv _ _ _ _ _ H Hv)
    as (st0 & res & nA & nB & st1 & g & cp & ps & cp' & Hrc & Hg & Hps & Hf).
  apply readCounts_inr in Hrc as (Hat & Hbo & Hco & HnA & HnB & _).
  apply ParseV2000Graph_spec in Hg as (HA & HB & Hw & _ & Hok); try done.
  destruct (Hok HE) as [Hok1 Hok2].
  apply ParseMolBlockProperties_run_spec in Hps as [HP _].
  apply finishMol_spec in Hf as (_ & _ & _ & _ & _ & Hcl).
  apply Hcl; [done|].
  apply (Pres_Inv E false g); [done|done|].
  split; [done|]. split; [|by left].
  destruct Hw as (_ & Hnb & _). unfold fewBonds, getNumBonds in *. lia.
Qed.

Lemma v2000_parse_leaves_no_sentinel_witness :
  exists mol,
    snd (MolDataStreamToMol (sampleExternals 0 0) false false
           (initialState ringBlock))
    = inr (Some mol)
    /\ Forall clean (atoms mol).
Proof.
  destruct (MolDataStreamToMol (sampleExternals 0 0) false false
              (initialState ringBlock))
    as [st' r] eqn:Hrun.
  assert (exists mol, r = inr (Some mol)) as [mol ->].
  { vm_compute in Hrun. injection Hrun as _ <-. eauto. }
  exists mol. split; [done|].
  apply (v2000_parse_leaves_no_sentinel (sampleExternals 0 0) false
           (initialState ringBlock) st' mol).
  - apply sampleExternals_TableOK.
  - exact Hrun.
  - vm_compute. reflexivity.
Defined.

(** *** The V3000 blocks *)











Lemma Frame_setBondBookmark mol i mark : Frame mol (setBondBookmark mol i mark).
Proof. done. Qed.














(** *** The completion pass *)

Lemma mapRes_id {A} (f : A -> Res A) l :
  Forall (fun a => f a = inr a) l -> mapRes f l = inr l.
Proof.
  induction 1 as [|a l Ha _ IH]; simpl; [done|]. by rewrite Ha, IH.
Qed.

Lemma completeQueryAndChildren_id E df q :
  castVal E <> MAGIC -> magicFree q ->
  completeQueryAndChildren E df MAGIC q = inr q.
Proof.
  intros Hc. induction q as [t d n f v ch IH] using Query_ind'.
  unfold magicFree. simpl. rewrite elem_of_app. intros Hm.
  rewrite bool_decide_eq_false_2.
  2:{ unfold getVal. simpl. destruct v as [x|]; simpl in *; [|done].
      intros ->. apply Hm. left. apply list_elem_of_here. }
  simpl. rewrite mapRes_id; [done|].
  rewrite Forall_forall in IH. apply Forall_forall. intros c Hin.
  apply IH; [done|]. intros Hx. apply Hm. right.
  apply list_elem_of_In, in_flat_map. exists c.
  split; by apply list_elem_of_In.
Qed.

Lemma with_atoms_id mol : with_atoms (atoms mol) mol = mol.
Proof. by destruct mol. Qed.

Lemma setAtomQuery_id a q : aquery a = Some q -> setAtomQuery q a = a.
Proof. destruct a. simpl. by intros ->. Qed.

Lemma CompleteMolQueries_from_id E n : forall i mol,
  castVal E <> MAGIC -> Forall clean (atoms mol) ->
  CompleteMolQueries_from E n i mol MAGIC = inr mol.
Proof.
  induction n as [|n IH]; intros i mol Hc Hcl; simpl; [done|].
  assert (match atoms mol !! i with
          | Some a =>
              match aquery a with
              | Some query =>
                  let? query := completeQueryAndChildren E
                                  (fun f => perceive E f mol i) MAGIC query in
                  inr (with_atoms (<[i := setAtomQuery query a]> (atoms mol)) mol)
              | None => inr mol
              end
          | None => inr mol
          end = inr mol) as ->.
  { destruct (atoms mol !! i) as [a|] eqn:Ha; [|done].
    destruct (aquery a) as [q|] eqn:Hq; [|done].
    rewrite Forall_forall in Hcl.
    assert (clean a) as Hca by (eapply Hcl, list_elem_of_lookup_2; done).
    unfold clean in Hca. rewrite Hq in Hca.
    rewrite completeQueryAndChildren_id by done. simpl.
    rewrite setAtomQuery_id by done.
    by rewrite list_insert_id, with_atoms_id. }
  simpl. by apply IH.
Qed.

(** X4: the completion pass leaves no sentinel behind.  When it succeeds,
    and no perception function returns the sentinel itself, no node of any
    atom's query tree stores the sentinel afterwards; the pass touches
    nothing but the query trees: bonds and conformers are the same, and
    each atom is the same up to its query. *)
Theorem completion_pass_resolves_sentinels (E : Externals) (mol mol' : RWMol) :
  CompleteMolQueries E mol MAGIC = inr mol' ->
  (forall f m j, perceive E f m j <> MAGIC) ->
  Forall clean (atoms mol')
  /\ Forall2 sameScalars (atoms mol) (atoms mol')
  /\ bonds mol' = bonds mol /\ conformers mol' = conformers mol.
Proof.
  intros H Hp. apply CompleteMolQueries_spec in H as (Hb & Hc & Ha & Hcl).
  split; [by apply Hcl|done].
Qed.

Lemma completion_pass_resolves_sentinels_witness :
  exists mol',
    CompleteMolQueries (sampleExternals 0 0)
      (with_atoms [setAtomQuery (makeAtomRingBondCountQuery MAGIC) newAtom]
         newRWMol) MAGIC = inr mol'
    /\ Forall clean (atoms mol').
Proof.
  destruct (CompleteMolQueries (sampleExternals 0 0)
      (with_atoms [setAtomQuery (makeAtomRingBondCountQuery MAGIC) newAtom]
         newRWMol) MAGIC) as [e|mol'] eqn:Hrun; [vm_compute in Hrun; discriminate|].
  exists mol'. split; [done|].
  apply (completion_pass_resolves_sentinels (sampleExternals 0 0) _ mol' Hrun).
  intros f m j. simpl. by rewrite MAGIC_value.
Defined.

(** X5: on a molecule whose query trees hold no sentinel the completion
    pass changes nothing and does not fail, provided that reading the value
    of a node that stores none does not happen to give the sentinel. *)
Theorem completion_pass_is_identity_without_sentinel (E : Externals)
  (mol : RWMol) :
  castVal E <> MAGIC ->
  Forall clean (atoms mol) ->
  CompleteMolQueries E mol MAGIC = inr mol.
Proof. intros Hc Hcl. by apply CompleteMolQueries_from_id. Qed.

Lemma completion_pass_is_identity_without_sentinel_witness :
  CompleteMolQueries (sampleExternals 0 0)
    (with_atoms [QueryAtom_num 6; setAtomicNum 8 newAtom] newRWMol) MAGIC
  = inr (with_atoms [QueryAtom_num 6; setAtomicNum 8 newAtom] newRWMol).
Proof.
  apply (completion_pass_is_identity_without_sentinel (sampleExternals 0 0)).
  - simpl. by rewrite MAGIC_value.
  - repeat constructor. unfold clean, magicFree. simpl. rewrite MAGIC_value.
    intros H. apply list_elem_of_singleton in H. discriminate H.
Defined.

(** *** Promotion, seen from outside *)

Lemma getAtomWithIdx_insert mol idx a a' :
  getAtomWithIdx mol idx = inr a ->
  getAtomWithIdx (with_atoms (<[Z.to_nat idx := a']> (atoms mol)) mol) idx
  = inr a'.
Proof.
  unfold getAtomWithIdx, getNumAtoms. simpl. rewrite length_insert.
  destruct (RANGE_CHECK _ _ _); [done|]. simpl.
  destruct (atoms mol !! Z.to_nat idx) eqn:Hl; [|done]. intros _.
  rewrite list_lookup_insert_eq; [done|]. by eapply lookup_lt_Some.
Qed.

Lemma hasQuery_setAtomQuery q a : hasQuery (setAtomQuery q a) = true.
Proof. done. Qed.

Lemma replaceAtomWithQueryAtom_inr mol idx mol' :
  replaceAtomWithQueryAtom mol idx = inr mol' ->
  exists a a',
    getAtomWithIdx mol idx = inr a
    /\ mol' = with_atoms (<[Z.to_nat idx := a']> (atoms mol)) mol
    /\ hasQuery a' = true
    /\ sameScalars a a'
    /\ (hasQuery a = true -> a' = a).
Proof.
  unfold replaceAtomWithQueryAtom. intros H.
  apply rbind_inr in H as (a & Ha & H). exists a.
  pose proof (getAtomWithIdx_inr _ _ _ Ha) as Hl.
  destruct (hasQuery a) eqn:Hq.
  { injection H as <-. exists a.
    rewrite list_insert_id, with_atoms_id by done.
    repeat split; try done. by left. }
  apply rbind_inr in H as (qa1 & H1 & H).
  apply rbind_inr in H as (qa2 & H2 & H).
  apply replaceAtom_inr in H as (a0 & _ & ->).
  exists qa2.
  assert (exists q1, qa1 = setAtomQuery q1 a) as [q1 ->].
  { destruct (bool_decide _); [|injection H1 as <-; by eexists].
    apply expandAtomQuery_inr in H1 as (q & _ & ->). by eexists. }
  assert (exists q2, qa2 = setAtomQuery q2 a) as [q2 ->].
  { destruct (hasAtomProp _ a); [|injection H2 as <-; by eexists].
    apply expandAtomQuery_inr in H2 as (q & _ & ->). by eexists. }
  split; [done|]. split; [done|]. split; [done|].
  split; [right; by eexists|].
  intros Hq'. congruence.
Qed.

(** X6: promoting an atom to a query atom happens in place.  After
    [replaceAtomWithQueryAtom] the atom at the index carries a query and is
    otherwise the atom it was (atomic number, charge, mass, radicals, flags
    and properties); an atom that already had a query is left as it is;
    every other atom, the bonds and the conformers are untouched; and
    promoting once more changes nothing. *)
Theorem promotion_is_in_place (mol : RWMol) (idx : Z) (mol' : RWMol) :
  replaceAtomWithQueryAtom mol idx = inr mol' ->
  exists a a',
    atoms mol !! Z.to_nat idx = Some a
    /\ atoms mol' = <[Z.to_nat idx := a']> (atoms mol)
    /\ hasQuery a' = true
    /\ sameScalars a a'
    /\ (hasQuery a = true -> mol' = mol)
    /\ bonds mol' = bonds mol /\ conformers mol' = conformers mol
    /\ replaceAtomWithQueryAtom mol' idx = inr mol'.
Proof.
  intros H.
  apply replaceAtomWithQueryAtom_inr in H as (a & a' & Ha & -> & Hq & Hs & Hid).
  exists a, a'.
  pose proof (getAtomWithIdx_inr _ _ _ Ha) as Hl.
  repeat split; try done.
  - intros Hqa. rewrite (Hid Hqa).
    by rewrite list_insert_id, with_atoms_id.
  - unfold replaceAtomWithQueryAtom.
    rewrite (getAtomWithIdx_insert _ _ _ a' Ha). simpl. by rewrite Hq.
Qed.

Lemma promotion_is_in_place_witness :
  exists mol' a',
    replaceAtomWithQueryAtom twoAtoms 1 = inr mol'
    /\ atoms mol' = [setAtomicNum 6 newAtom; a']
    /\ hasQuery a' = true
    /\ sameScalars (setAtomicNum 8 newAtom) a'.
Proof.
  destruct (replaceAtomWithQueryAtom twoAtoms 1) as [e|mol'] eqn:Hrun;
    [vm_compute in Hrun; discriminate|].
  destruct (promotion_is_in_place twoAtoms 1 mol' Hrun)
    as (a & a' & Ha & Hat & Hq & Hs & _).
  vm_compute in Ha. injection Ha as <-.
  exists mol', a'. by rewrite Hat.
Defined.

(** *** The query records refine, and only refine *)

Lemma sameScalars_refl a : sameScalars a a.
Proof. by left. Qed.

Lemma sameScalars_trans a b c :
  sameScalars a b -> sameScalars b c -> sameScalars a c.
Proof. intros [->|[q ->]] [->|[q' ->]]; [by left|right; eauto..]. Qed.

Lemma Refines_refl mol : Refines mol mol.
Proof. repeat split. apply Forall2_diag, sameScalars_refl. Qed.

Lemma Refines_trans m1 m2 m3 : Refines m1 m2 -> Refines m2 m3 -> Refines m1 m3.
Proof.
  intros (? & ? & H1) (? & ? & H2). repeat split; try congruence.
  eapply Forall2_trans'; [apply sameScalars_trans|done|done].
Qed.

Lemma Refines_setProp k v mol : Refines mol (setProp k v mol).
Proof. repeat split. apply Forall2_diag, sameScalars_refl. Qed.

Lemma Refines_insert mol i a a' :
  atoms mol !! i = Some a -> sameScalars a a' ->
  Refines mol (with_atoms (<[i := a']> (atoms mol)) mol).
Proof.
  intros Hl Hs. repeat split. simpl.
  by apply Forall2_insert_self with a; [apply sameScalars_refl|..].
Qed.

Lemma Refines_promote mol idx mol' :
  replaceAtomWithQueryAtom mol idx = inr mol' -> Refines mol mol'.
Proof.
  intros H.
  apply replaceAtomWithQueryAtom_inr in H as (a & a' & Ha & -> & _ & Hs & _).
  apply getAtomWithIdx_inr in Ha. by apply Refines_insert with a.
Qed.

Lemma Refines_addAtomQuery mol idx q mol' :
  addAtomQuery mol idx q = inr mol' -> Refines mol mol'.
Proof.
  unfold addAtomQuery. intros H.
  apply rbind_inr in H as (a & Ha & H).
  apply rbind_inr in H as (mol1 & H1 & H).
  apply rbind_inr in H as (a1 & Ha1 & H).
  apply rbind_inr in H as (a2 & Ha2 & H). injection H as <-.
  eapply Refines_trans.
  - destruct (hasQuery a); [injection H1 as <-; apply Refines_refl|].
    by apply Refines_promote in H1.
  - apply getAtomWithIdx_inr in Ha1.
    apply expandAtomQuery_inr in Ha2 as (q0 & _ & ->).
    apply Refines_insert with a1; [done|]. right. by eexists.
Qed.

Lemma Refines_UNS_entries text n : forall spos mol mol',
  ParseUnsaturationLine_entries text n spos mol = inr mol' -> Refines mol mol'.
Proof.
  induction n as [|n IH]; intros spos mol mol' H; simpl in H.
  { injection H as <-. apply Refines_refl. }
  apply rbind_inr in H as (aid & _ & H).
  apply rbind_inr in H as (atom & _ & H).
  apply rbind_inr in H as (present & _ & H).
  destruct present; [|by eapply IH].
  apply rbind_inr in H as (count & _ & H).
  case_bool_decide; [by eapply IH|].
  case_bool_decide; [|done].
  apply rbind_inr in H as (mol1 & Hm & H).
  apply IH in H. apply Refines_addAtomQuery in Hm.
  by eapply Refines_trans.
Qed.

Lemma Refines_RBC_entries text n : forall spos mol mol',
  ParseRingBondCountLine_entries text n spos mol = inr mol' -> Refines mol mol'.
Proof.
  induction n as [|n IH]; intros spos mol mol' H; simpl in H.
  { injection H as <-. apply Refines_refl. }
  apply rbind_inr in H as (aid & _ & H).
  apply rbind_inr in H as (atom & _ & H).
  apply rbind_inr in H as (present & _ & H).
  destruct present; [|by eapply IH].
  apply rbind_inr in H as (count & _ & H).
  case_bool_decide; [by eapply IH|].
  apply rbind_inr in H as ([q m0] & Hq & H).
  apply rbind_inr in H as (mol1 & Hm & H).
  apply IH in H. apply Refines_addAtomQuery in Hm.
  assert (Refines mol m0) as HR0.
  { repeat case_match; simplify_eq;
      first [apply Refines_refl | apply Refines_setProp]. }
  eauto using Refines_trans.
Qed.

Lemma Refines_SUB_entries text n : forall spos mol st st' mol',
  ParseSubstitutionCountLine_entries text n spos mol st = (st', inr mol') ->
  Refines mol mol'.
Proof.
  induction n as [|n IH]; intros spos mol st st' mol' H; simpl in H.
  { apply ret_inr in H as [<- _]. apply Refines_refl. }
  apply bind_inr in H as (st1 & aid & _ & H).
  apply bind_inr in H as (st2 & atom & _ & H).
  apply bind_inr in H as (st3 & present & _ & H).
  destruct present; [|by eapply IH].
  apply bind_inr in H as (st4 & count & _ & H).
  case_bool_decide; [by eapply IH|].
  apply bind_inr in H as (st5 & q & _ & H).
  apply bind_inr in H as (st6 & mol1 & Hm & H).
  apply lift_inr in Hm as [Hm _].
  apply IH in H. apply Refines_addAtomQuery in Hm.
  by eapply Refines_trans.
Qed.

(** X8: the records that refine a query ([M  SUB], [M  UNS], [M  RBC]) do
    nothing else.  When one of them is accepted, the bonds and the
    conformers are the same, no atom is added or removed, and each atom is
    the atom it was up to its query: atomic number, charge, mass, radical
    electrons, flags and properties are kept. *)
Theorem query_records_only_refine (mol : RWMol) (text : string) (mol' : RWMol) :
  (ParseUnsaturationLine mol text = inr mol'
   \/ ParseRingBondCountLine mol text = inr mol'
   \/ exists st st', ParseSubstitutionCountLine mol text st = (st', inr mol')) ->
  Refines mol mol'.
Proof.
  intros [H|[H|(st & st' & H)]].
  - unfold ParseUnsaturationLine in H.
    apply rbind_inr in H as (beg & _ & H).
    apply rbind_inr in H as (u & _ & H).
    apply rbind_inr in H as (nent & _ & H).
    by eapply Refines_UNS_entries.
  - unfold ParseRingBondCountLine in H.
    apply rbind_inr in H as (beg & _ & H).
    apply rbind_inr in H as (u & _ & H).
    apply rbind_inr in H as (nent & _ & H).
    by eapply Refines_RBC_entries.
  - unfold ParseSubstitutionCountLine in H.
    apply bind_inr in H as (st1 & beg & _ & H).
    apply bind_inr in H as (st2 & u & _ & H).
    apply bind_inr in H as (st3 & nent & _ & H).
    by eapply Refines_SUB_entries.
Qed.

Lemma query_records_only_refine_witness :
  exists mol',
    ParseRingBondCountLine twoAtoms "M  RBC  1   2   3" = inr mol'
    /\ Refines twoAtoms mol'.
Proof.
  destruct (ParseRingBondCountLine twoAtoms "M  RBC  1   2   3")
    as [e|mol'] eqn:Hrun; [vm_compute in Hrun; discriminate|].
  exists mol'. split; [done|].
  apply (query_records_only_refine twoAtoms "M  RBC  1   2   3" mol').
  right. left. exact Hrun.
Defined.

(** *** The property block as a whole *)

(** X7: the property block of a V2000 input never adds or removes an atom
    or a bond, and never touches a bond or a conformer, whatever records
    it holds. *)
Theorem property_block_keeps_the_graph (E : Externals) (mol : RWMol)
  (st st' : St) (fileComplete : bool) (mol' : RWMol) :
  ParseMolBlockProperties E mol st = (st', inr (fileComplete, mol')) ->
  bonds mol' = bonds mol
  /\ conformers mol' = conformers mol
  /\ List.length (atoms mol') = List.length (atoms mol).
Proof.
  unfold ParseMolBlockProperties. intros H.
  apply bind_inr in H as (st1 & ps & Hps & H).
  apply ret_inr in H as [[= <- <-] _].
  apply ParseMolBlockProperties_run_spec in Hps as [HP _].
  pose proof (Pres_length _ _ _ _ HP). destruct HP as (? & ? & _). done.
Qed.

Lemma property_block_keeps_the_graph_witness :
  exists st' mol',
    ParseMolBlockProperties (sampleExternals 0 0) twoAtoms
      (mkSt (mkStream ["M  CHG  1   1   1"; "M  ISO  1   2  18"; "M  END"] "" false) 0 [])
    = (st', inr (true, mol'))
    /\ List.length (atoms mol') = 2%nat.
Proof.
  destruct (ParseMolBlockProperties (sampleExternals 0 0) twoAtoms
      (mkSt (mkStream ["M  CHG  1   1   1"; "M  ISO  1   2  18"; "M  END"] "" false) 0 []))
    as [st' [e|[fc mol']]] eqn:Hrun; [vm_compute in Hrun; discriminate|].
  assert (fc = true) as -> by (vm_compute in Hrun; by injection Hrun as _ <- _).
  exists st', mol'. split; [done|].
  by destruct (property_block_keeps_the_graph _ _ _ _ _ _ Hrun) as (_ & _ & ->).
Defined.

Lemma ignoredRecord_dispatch E ps st :
  ignoredRecord (ps_tempStr ps) = true ->
  props_dispatch E ps st = (st, inr (ps_mol ps, ps_firstChargeLine ps)).
Proof.
  unfold ignoredRecord, str_in. intros H.
  apply andb_true_iff in H as [Hc H]. apply bool_decide_eq_true in Hc.
  apply negb_true_iff in H. simpl in H.
  repeat (apply orb_false_iff in H as [? H]).
  unfold props_dispatch. rewrite Hc.
  rewrite !bool_decide_eq_false_2 by done.
  by repeat match goal with Hx : String.eqb _ _ = false |- _ => rewrite Hx; clear Hx end.
Qed.

Lemma ignoredRecord_continue ps st :
  ignoredRecord (ps_tempStr ps) = true ->
  props_continue st ps = negb (eofbit (inStream st)).
Proof.
  unfold ignoredRecord, str_in, props_continue. intros H.
  apply andb_true_iff in H as [Hc H]. apply bool_decide_eq_true in Hc.
  apply negb_true_iff in H. simpl in H.
  apply orb_false_iff in H as [-> _]. simpl.
  rewrite andb_true_r.
  assert (String.eqb (l2s (take 4 (s2l (ps_tempStr ps)))) "$$$$" = false) as ->;
    [|by rewrite andb_true_r].
  apply String.eqb_neq. intros He. unfold char_at in Hc.
  destruct (s2l (ps_tempStr ps)) as [|c l]; [done|].
  simpl in *. by injection He as -> _.
Qed.

Lemma ignoredRecord_step E mol cur first l ls r ln log :
  ignoredRecord cur = true ->
  props_step E (mkPropState mol cur first)
    (mkSt (mkStream (l :: ls) r false) ln log)
  = (mkSt (mkStream ls r false) (wrap_uint (ln + 1)) log,
     inr (mkPropState mol (strip_cr l) first)).
Proof.
  intros H. unfold props_step, bind.
  by rewrite ignoredRecord_dispatch.
Qed.

Lemma props_loop_skips E more r : forall ls mol first cur fuel ln log,
  ignoredRecord cur = true ->
  Forall (fun l => ignoredRecord (strip_cr l) = true) ls ->
  (List.length ls < fuel)%nat ->
  exists ln',
    props_loop E fuel (mkPropState mol cur first)
      (mkSt (mkStream (ls ++ "M  END" :: more) r false) ln log)
    = (mkSt (mkStream more r false) ln' log,
       inr (mkPropState mol "M  END" first)).
Proof.
  induction ls as [|l ls IH]; intros mol first cur fuel ln log Hc Hls Hf;
    (destruct fuel as [|fuel]; [simpl in Hf; lia|]);
    cbn [props_loop]; rewrite ignoredRecord_continue by done;
    cbn [inStream eofbit negb]; unfold bind; simpl app;
    rewrite ignoredRecord_step by done.
  - exists (wrap_uint (ln + 1)). by destruct fuel.
  - apply Forall_cons in Hls as [Hl Hls].
    apply IH; [done|done|simpl in Hf; lia].
Qed.

(** X9: records that the property block does not know are skipped in
    silence.  A block made of [M] records with unknown tags and closed by
    [M  END] is read to its end, is reported complete, leaves the molecule
    as it was and logs nothing; the stream is left just after [M  END]. *)
Theorem unknown_records_are_skipped (E : Externals) (mol : RWMol)
  (ls more : list string) (r : string) (ln : Z) (log : list string) :
  Forall (fun l => ignoredRecord (strip_cr l) = true) ls ->
  exists ln',
    ParseMolBlockProperties E mol
      (mkSt (mkStream (ls ++ "M  END" :: more) r false) ln log)
    = (mkSt (mkStream more r false) ln' log, inr (true, mol)).
Proof.
  intros Hls. unfold ParseMolBlockProperties, ParseMolBlockProperties_run.
  destruct ls as [|l ls].
  - exists (wrap_uint (ln + 1)). reflexivity.
  - apply Forall_cons in Hls as [Hl Hls].
    assert (props_start mol
              (mkSt (mkStream ((l :: ls) ++ "M  END" :: more) r false) ln log)
            = (mkSt (mkStream (ls ++ "M  END" :: more) r false)
                 (wrap_uint (ln + 1)) log,
               inr (mkPropState mol (strip_cr l) true))) as Hs.
    { unfold props_start, bind. simpl.
      pose proof Hl as Hl'. unfold ignoredRecord in Hl'.
      apply andb_true_iff in Hl' as [Hc _]. apply bool_decide_eq_true in Hc.
      rewrite Hc. reflexivity. }
    destruct (props_loop_skips E more r ls mol true (strip_cr l)
                (S (List.length (ls ++ "M  END" :: more)))
                (wrap_uint (ln + 1)) log Hl Hls) as [ln' Hloop].
    { rewrite length_app. simpl. lia. }
    exists ln'. unfold bind at 1 2. rewrite Hs.
    unfold lines_left. cbn [inStream eofbit pending].
    rewrite Hloop. reflexivity.
Qed.

Lemma unknown_records_are_skipped_witness :
  exists ln',
    ParseMolBlockProperties (sampleExternals 0 0) twoAtoms
      (mkSt (mkStream (["M  STY  1   1 SUP"; "M  SAL   1  2   1   2"]
                       ++ "M  END" :: ["$$$$"]) "" false) 7 [])
    = (mkSt (mkStream ["$$$$"] "" false) ln' [], inr (true, twoAtoms)).
Proof.
  apply (unknown_records_are_skipped (sampleExternals 0 0) twoAtoms
           ["M  STY  1   1 SUP"; "M  SAL   1  2   1   2"] ["$$$$"] "" 7 []).
  repeat constructor.
Defined.

(** *** Inputs that hold no molecule *)

Lemma split_lines_no_newline l : forall cur,
  ascii_of_nat 10 ∉ l -> split_lines cur l = ([], l2s (rev cur ++ l)).
Proof.
  induction l as [|c l IH]; intros cur H; simpl.
  - by rewrite app_nil_r.
  - apply not_elem_of_cons in H as [Hc Hl].
    destruct (Ascii.eqb_spec c (ascii_of_nat 10)) as [->|_]; [done|].
    rewrite IH by done. simpl. by rewrite <- app_assoc.
Qed.

(** X10: an input that holds no newline holds no molecule.  The first read
    hits the end of the input, and the parser returns no molecule and
    raises no error, whatever the text and the flags. *)
Theorem input_without_newline_is_no_molecule (E : Externals) (molBlock : string)
  (sanitize removeHsFlag : bool) :
  ascii_of_nat 10 ∉ s2l molBlock ->
  snd (MolBlockToMol E molBlock sanitize removeHsFlag) = inr None.
Proof.
  intros H. unfold MolBlockToMol, istringstream.
  rewrite split_lines_no_newline by done. reflexivity.
Qed.

Lemma input_without_newline_is_no_molecule_witness :
  snd (MolBlockToMol (sampleExternals 0 0) "  1  0  0  0  0  0  0  0  0  0999 V2000"
         true true) = inr None.
Proof.
  apply (input_without_newline_is_no_molecule (sampleExternals 0 0)).
  vm_compute. intros H.
  repeat (apply elem_of_cons in H as [H|H]; [discriminate H|]).
  by apply elem_of_nil in H.
Defined.

(** *** The counts line *)

Lemma toInt_cases input a :
  (exists v, toInt input a = inr v) \/ toInt input a = inl bad_lexical_cast.
Proof. unfold toInt. repeat case_match; eauto. Qed.

Lemma optCount_cases tempStr spos :
  (exists v, optCount tempStr spos = inr v)
  \/ optCount tempStr spos = inl bad_lexical_cast.
Proof.
  unfold optCount. destruct (Nat.leb_spec (spos + 3) (str_size tempStr)); [|eauto].
  unfold substr. destruct (Nat.leb_spec spos (str_size tempStr)); [|lia].
  simpl. apply toInt_cases.
Qed.

Lemma ignore_tail_optCounts tempStr :
  ignore_tail
    (let? _nLists := optCount tempStr 6 in
     let? _chiralFlag := optCount tempStr 12 in
     let? _nsText := optCount tempStr 15 in
     let? _nRxnComponents := optCount tempStr 18 in
     let? _nReactants := optCount tempStr 21 in
     let? _nProducts := optCount tempStr 24 in
     optCount tempStr 27) = inr tt.
Proof.
  repeat match goal with
  | |- context [optCount tempStr ?p] =>
      destruct (optCount_cases tempStr p) as [[? ->]| ->]; simpl; [|done]
  end; done.
Qed.

Lemma substr_agree t1 t2 pos n :
  str_size t1 = str_size t2 ->
  take n (drop pos (s2l t1)) = take n (drop pos (s2l t2)) ->
  substr t1 pos n = substr t2 pos n.
Proof. unfold substr. by intros -> ->. Qed.

Lemma read_int_field_agree t1 t2 pos n :
  substr t1 pos n = substr t2 pos n ->
  read_int_field t1 pos n = read_int_field t2 pos n.
Proof. unfold read_int_field, cannot_convert. by intros ->. Qed.

(** X11: the counts line is read at columns 0 to 5 and from column 34 on,
    and nowhere else.  Two counts lines of the same length that agree on
    those columns decode alike, to the same counts and version or to the
    same error: nothing in the optional fields can change the outcome. *)
Theorem counts_line_ignores_optional_fields (t1 t2 : string) :
  str_size t1 = str_size t2 ->
  take 6 (s2l t1) = take 6 (s2l t2) ->
  drop 34 (s2l t1) = drop 34 (s2l t2) ->
  countsLine t1 = countsLine t2.
Proof.
  intros Hs H6 H34. unfold countsLine.
  rewrite !ignore_tail_optCounts. rewrite <- Hs.
  destruct (Nat.ltb_spec (str_size t1) 6) as [Hlt|Hge].
  { assert (t1 = t2) as ->; [|done].
    rewrite <- (l2s_s2l t1), <- (l2s_s2l t2). f_equal.
    rewrite <- (take_ge (s2l t1) 6), <- (take_ge (s2l t2) 6); [done|..];
      unfold str_size in *; lia. }
  assert (substr t1 0 3 = substr t2 0 3) as H0.
  { apply substr_agree; [done|]. simpl.
    change (take 3 (s2l t1) = take 3 (s2l t2)).
    assert (forall l : list ascii, take 3 l = take 3 (take 6 l)) as Ht.
    { intros l. by rewrite take_take. }
    by rewrite (Ht (s2l t1)), (Ht (s2l t2)), H6. }
  assert (substr t1 3 3 = substr t2 3 3) as H3.
  { apply substr_agree; [done|].
    rewrite !take_drop_commute. simpl. by rewrite H6. }
  assert (substr t1 34 5 = substr t2 34 5) as H5.
  { apply substr_agree; [done|]. by rewrite H34. }
  assert (char_at t1 34 = char_at t2 34) as Hc.
  { unfold char_at.
    rewrite <- (Nat.add_0_r 34), <- !lookup_drop. by rewrite H34. }
  rewrite (read_int_field_agree _ _ _ _ H0), (read_int_field_agree _ _ _ _ H3).
  by rewrite H5, Hc.
Qed.

Lemma counts_line_ignores_optional_fields_witness :
  countsLine "  4  3 an SD producer wrote this  V2000"
  = countsLine "  4  3  0  0  0  0  0  0  0  0999 V2000".
Proof.
  apply counts_line_ignores_optional_fields; vm_compute; reflexivity.
Defined.

(** *** What an atom line can fail on *)

Lemma toInt_spaces input : toInt input true = inr (atoi input).
Proof. unfold toInt. by rewrite andb_false_r. Qed.

Lemma toDouble_spaces input : toDouble input true = inr (atof input).
Proof. unfold toDouble. by rewrite andb_false_r. Qed.

Lemma substr_ok s pos n :
  (pos <= str_size s)%nat -> substr s pos n = inr (l2s (take n (drop pos (s2l s)))).
Proof.
  intros H. unfold substr. by destruct (Nat.leb_spec pos (str_size s)); [|lia].
Qed.

Lemma optIntField_value text lo w zero :
  optIntField text lo w zero
  = inr (if (lo + w <=? str_size text)%nat
         then let f := l2s (take w (drop lo (s2l text))) in
              if bool_decide (f ≠ zero) then Some (atoi f) else None
         else None).
Proof.
  unfold optIntField.
  destruct (Nat.leb_spec (lo + w) (str_size text)); [|done].
  rewrite substr_ok by lia. simpl.
  case_bool_decide; [|done]. by rewrite toInt_spaces.
Qed.

Lemma coordinates_ok text :
  (34 <= str_size text)%nat ->
  catch_blc
    (let? fx := substr text 0 10 in
     let? x := toDouble fx true in
     let? fy := substr text 10 10 in
     let? y := toDouble fy true in
     let? fz := substr text 20 10 in
     let? z := toDouble fz true in
     inr (x, y, z))
    (inr (FileParseException "Cannot process coordinates."))
  = inr (atof (l2s (take 10 (drop 0 (s2l text)))),
         atof (l2s (take 10 (drop 10 (s2l text)))),
         atof (l2s (take 10 (drop 20 (s2l text))))).
Proof.
  intros H. rewrite !substr_ok by lia. simpl.
  by rewrite !toDouble_spaces.
Qed.

Lemma specialSymbol_alt symb :
  specialSymbol symb
  = (str_in symb ["L"; "A"; "Q"; "*"; "LP"; "R"; "R#"]
     || (String.leb "R0" symb && String.leb symb "R9"))
    || String.eqb symb "D" || String.eqb symb "T".
Proof.
  unfold specialSymbol, str_in. simpl.
  generalize (String.eqb symb "L"), (String.eqb symb "A"), (String.eqb symb "Q"),
    (String.eqb symb "*"), (String.eqb symb "LP"), (String.eqb symb "R"),
    (String.eqb symb "R#"), (String.eqb symb "D"), (String.eqb symb "T"),
    (String.leb "R0" symb && String.leb symb "R9").
  intros. repeat match goal with b : bool |- _ => destruct b end; reflexivity.
Qed.

Lemma symbolSwitch_cases E symb massDiff :
  match
    (if str_in symb ["L"; "A"; "Q"; "*"; "LP"; "R"; "R#"]
        || (String.leb "R0" symb && String.leb symb "R9") then
       let res :=
         if str_in symb ["A"; "Q"; "*"] then wildcardAtom symb
         else setAtomicNum 0 newAtom in
       let res :=
         if bool_decide (massDiff = 0) && bool_decide (char_at symb 0 = "R"%char)
         then R_mass symb res else res in
       inr res
     else if String.eqb symb "D" then
       inr (setMass (2014 # 1000) (setAtomicNum 1 newAtom))
     else if String.eqb symb "T" then
       inr (setMass (3016 # 1000) (setAtomicNum 1 newAtom))
     else
       let? n := lookupAtomicNumber E symb in
       inr (setMass (getAtomicWeight E n) (setAtomicNum n newAtom)))
  with
  | inr res =>
      formalCharge res = 0
      /\ (specialSymbol symb = true \/ is_Some (getAtomicNumber E symb))
  | inl e =>
      e = Invariant ("Element '" +:+ symb +:+ "' not found")
      /\ specialSymbol symb = false /\ getAtomicNumber E symb = None
  end.
Proof.
  rewrite specialSymbol_alt.
  destruct (_ || _) eqn:Hb; cbv beta iota zeta.
  { split; [|by left].
    destruct (bool_decide (massDiff = 0) && _); cbv beta iota zeta.
    - rewrite (proj1 (R_mass_ok _ _)).
      destruct (str_in symb ["A"; "Q"; "*"]); [apply wildcardAtom_ok|done].
    - destruct (str_in symb ["A"; "Q"; "*"]); [apply wildcardAtom_ok|done]. }
  destruct (String.eqb symb "D"); cbv beta iota zeta; [split; [done|by left]|].
  destruct (String.eqb symb "T"); cbv beta iota zeta; [split; [done|by left]|].
  unfold lookupAtomicNumber.
  destruct (getAtomicNumber E symb) as [n|]; simpl; [|done].
  split; [done|right; eauto].
Qed.

Lemma symbolSwitch_inr E symb massDiff res :
  (if str_in symb ["L"; "A"; "Q"; "*"; "LP"; "R"; "R#"]
       || (String.leb "R0" symb && String.leb symb "R9") then
      let res :=
        if str_in symb ["A"; "Q"; "*"] then wildcardAtom symb
        else setAtomicNum 0 newAtom in
      let res :=
        if bool_decide (massDiff = 0) && bool_decide (char_at symb 0 = "R"%char)
        then R_mass symb res else res in
      inr res
    else if String.eqb symb "D" then
      inr (setMass (2014 # 1000) (setAtomicNum 1 newAtom))
    else if String.eqb symb "T" then
      inr (setMass (3016 # 1000) (setAtomicNum 1 newAtom))
    else
      let? n := lookupAtomicNumber E symb in
      inr (setMass (getAtomicWeight E n) (setAtomicNum n newAtom))) = inr res ->
  formalCharge res = 0
  /\ (specialSymbol symb = true \/ is_Some (getAtomicNumber E symb)).
Proof.
  intros H. pose proof (symbolSwitch_cases E symb massDiff) as Hsw.
  by rewrite H in Hsw.
Qed.

Lemma symbolSwitch_inl E symb massDiff e :
  (if str_in symb ["L"; "A"; "Q"; "*"; "LP"; "R"; "R#"]
       || (String.leb "R0" symb && String.leb symb "R9") then
      let res :=
        if str_in symb ["A"; "Q"; "*"] then wildcardAtom symb
        else setAtomicNum 0 newAtom in
      let res :=
        if bool_decide (massDiff = 0) && bool_decide (char_at symb 0 = "R"%char)
        then R_mass symb res else res in
      inr res
    else if String.eqb symb "D" then
      inr (setMass (2014 # 1000) (setAtomicNum 1 newAtom))
    else if String.eqb symb "T" then
      inr (setMass (3016 # 1000) (setAtomicNum 1 newAtom))
    else
      let? n := lookupAtomicNumber E symb in
      inr (setMass (getAtomicWeight E n) (setAtomicNum n newAtom))) = inl e ->
  specialSymbol symb = false /\ getAtomicNumber E symb = None.
Proof.
  intros H. pose proof (symbolSwitch_cases E symb massDiff) as Hsw.
  rewrite H in Hsw. tauto.
Qed.

Lemma rbind_inl {A B} (m : Res A) (f : A -> Res B) e :
  rbind m f = inl e -> m = inl e \/ exists a, m = inr a /\ f a = inl e.
Proof. destruct m; simpl; [by intros [= ->]; left|]. eauto. Qed.

Lemma atomSymbol_substr text symb0 :
  substr text 31 3 = inr symb0 ->
  match find_char " "%char (s2l symb0) with
  | Some k => l2s (take k (s2l symb0))
  | None => symb0
  end = atomSymbol text.
Proof.
  unfold substr, atomSymbol. destruct (_ <=? _)%nat; [|done]. by intros [= <-].
Qed.

Lemma atom_line_inr E text a pos :
  ParseMolFileAtomLine E text = inr (a, pos) ->
  (34 <= str_size text)%nat
  /\ (specialSymbol (atomSymbol text) = true
      \/ is_Some (getAtomicNumber E (atomSymbol text)))
  /\ formalCharge a = (if bool_decide (chargeCode text = 0) then 0
                       else 4 - chargeCode text).
Proof.
  unfold ParseMolFileAtomLine. intros H.
  destruct (Nat.ltb_spec (str_size text) 34) as [Hlt|Hge]; [done|].
  split; [done|].
  apply rbind_inr in H as (p & _ & H).
  apply rbind_inr in H as (symb0 & Hsy & H).
  apply atomSymbol_substr in Hsy. rewrite Hsy in H.
  apply rbind_inr in H as (massDiff & _ & H).
  apply rbind_inr in H as (chg & Hchg & H).
  apply rbind_inr in H as (hCount & _ & H).
  apply rbind_inr in H as (res & Hres & H).
  apply symbolSwitch_inr in Hres as [Hc Hs].
  split; [done|].
  apply rbind_inr in H as (parity & _ & H).
  apply rbind_inr in H as (stereoCare & _ & H).
  apply rbind_inr in H as (totValence & _ & H).
  apply rbind_inr in H as (atomMapNumber & _ & H).
  apply rbind_inr in H as (inversionFlag & _ & H).
  apply rbind_inr in H as (exactChangeFlag & _ & H).
  injection H as <- _.
  rewrite !(proj1 (setOptProp_scalars _ _ _)).
  assert (default 0 chg = chargeCode text) as Hcc.
  { rewrite optIntField_value in Hchg.
    apply (f_equal (fun r : Res (option Z) =>
                      match r with inr v => v | inl _ => None end)) in Hchg.
    cbv beta iota in Hchg. subst chg.
    unfold chargeCode.
    destruct (36 + 3 <=? str_size text)%nat; [|reflexivity]. cbv zeta.
    case_bool_decide as Hz; [reflexivity|]. simpl.
    by rewrite Hz. }
  rewrite Hcc.
  destruct (decide (chargeCode text = 0)) as [Hz|Hnz].
  - rewrite (bool_decide_eq_false_2 (chargeCode text <> 0)) by (intros Hx; done).
    rewrite (bool_decide_eq_true_2 (chargeCode text = 0)) by done.
    repeat match goal with
    | |- context [if bool_decide ?P then _ else _] =>
        destruct (bool_decide P); simpl
    end; exact Hc.
  - rewrite (bool_decide_eq_true_2 (chargeCode text <> 0)) by done.
    rewrite (bool_decide_eq_false_2 (chargeCode text = 0)) by done.
    repeat match goal with
    | |- context [if bool_decide ?P then _ else _] =>
        destruct (bool_decide P); simpl
    end; reflexivity.
Qed.

Lemma atom_line_inl E text e :
  ParseMolFileAtomLine E text = inl e ->
  (str_size text < 34)%nat
  \/ (specialSymbol (atomSymbol text) = false
      /\ getAtomicNumber E (atomSymbol text) = None).
Proof.
  unfold ParseMolFileAtomLine. intros H.
  destruct (Nat.ltb_spec (str_size text) 34) as [Hlt|Hge]; [by left|right].
  rewrite coordinates_ok in H by done. cbn [rbind] in H.
  rewrite substr_ok in H by lia. cbn [rbind] in H.
  fold (atomSymbol text) in H.
  rewrite !optIntField_value in H. cbn [rbind] in H.
  apply rbind_inl in H as [H|(res & _ & H)]; [|done].
  by apply symbolSwitch_inl in H.
Qed.

(** X12: what an atom line can fail on.  A V2000 atom line is accepted
    exactly when it is at least 34 characters long and its symbol is
    special or known to the periodic table.  Special are [L], [A], [Q],
    [*], [LP], [R], [R#], [D], [T] and every symbol between [R0] and [R9]
    in the order of strings, which includes [R10] and [R5x].  Nothing in
    the coordinate columns or in the numeric columns can make the line
    fail. *)
Theorem atom_line_fails_only_on_length_or_symbol (E : Externals) (text : string) :
  (exists a pos, ParseMolFileAtomLine E text = inr (a, pos))
  <-> (34 <= str_size text)%nat
      /\ (specialSymbol (atomSymbol text) = true
          \/ is_Some (getAtomicNumber E (atomSymbol text))).
Proof.
  split.
  - intros (a & pos & H). apply atom_line_inr in H. tauto.
  - intros [Hlen Hs].
    destruct (ParseMolFileAtomLine E text) as [e|[a pos]] eqn:H; [|eauto].
    apply atom_line_inl in H as [H|[H1 H2]]; [lia|].
    destruct Hs as [Hs|[n Hs]]; congruence.
Qed.

Lemma atom_line_fails_only_on_length_or_symbol_witness :
  exists a pos,
    ParseMolFileAtomLine (sampleExternals 0 0)
      "  not a number, nor this one   R# garbage" = inr (a, pos).
Proof.
  apply (atom_line_fails_only_on_length_or_symbol (sampleExternals 0 0)).
  split; [vm_compute; lia|]. left. vm_compute. reflexivity.
Defined.

(** X13: the charge column of a V2000 atom line is a code, not a charge.
    The atom decoded from a line has formal charge 0 when the code in
    columns 36 to 38 is 0 or absent, and 4 minus the code otherwise; no
    code is rejected. *)
Theorem atom_line_charge_code (E : Externals) (text : string) (a : Atom)
  (pos : Point3D) :
  ParseMolFileAtomLine E text = inr (a, pos) ->
  formalCharge a
  = if bool_decide (chargeCode text = 0) then 0 else 4 - chargeCode text.
Proof. intros H. by apply atom_line_inr in H as (_ & _ & H). Qed.

Lemma atom_line_charge_code_witness :
  exists a pos,
    ParseMolFileAtomLine (sampleExternals 0 0)
      "    0.0000    0.0000    0.0000 N   0  3  0  0  0  0  0  0  0  0  0  0"
    = inr (a, pos)
    /\ formalCharge a = 1.
Proof.
  destruct (ParseMolFileAtomLine (sampleExternals 0 0)
      "    0.0000    0.0000    0.0000 N   0  3  0  0  0  0  0  0  0  0  0  0")
    as [e|[a pos]] eqn:Hrun; [vm_compute in Hrun; discriminate|].
  exists a, pos. split; [done|].
  by rewrite (atom_line_charge_code _ _ _ _ Hrun).
Defined.

(** *** What a bond line can fail on *)

Lemma toInt_false_value input :
  toInt input false
  = if blankStart input then inl bad_lexical_cast else inr (atoi input).
Proof.
  unfold toInt, blankStart. simpl. rewrite andb_true_r.
  destruct (bool_decide (char_at input 0 = " "%char)); simpl;
    [|by rewrite andb_false_r].
  destruct (blank input) eqn:Hb.
  - rewrite (atoi_blank _ Hb). simpl.
    apply trim_copy_empty in Hb. by rewrite Hb.
  - destruct (bool_decide (atoi input = 0)); simpl; [|done].
    destruct (bool_decide (str_size _ = _)) eqn:Ht; [|done].
    apply bool_decide_eq_true in Ht.
    apply trim_copy_empty in Ht. congruence.
Qed.

Lemma read_int_field_value text lo :
  (lo <= str_size text)%nat ->
  read_int_field text lo 3
  = if blankStart (field3 text lo)
    then inl (FileParseException ("Cannot convert " +:+ field3 text lo +:+ " to int"))
    else inr (atoi (field3 text lo)).
Proof.
  intros H. unfold read_int_field, cannot_convert.
  rewrite substr_ok by done. simpl. fold (field3 text lo).
  rewrite toInt_false_value. by destruct (blankStart _).
Qed.

Lemma bondOfType_total bType st :
  exists st' b, bondOfType bType st = (st', inr b).
Proof. unfold bondOfType, bind, ret, BOOST_LOG. repeat case_match; eauto. Qed.

Lemma bondField_cases text lo :
  exists r, bondField text lo = inr r.
Proof.
  unfold bondField. destruct (Nat.leb_spec (lo + 3) (str_size text)); [|eauto].
  rewrite substr_ok by lia. simpl. eauto.
Qed.

Lemma bondStereo_ok text res : exists res', bondStereo text res = inr res'.
Proof.
  unfold bondStereo. destruct (bondField_cases text 9) as [[f|] ->]; simpl; [|eauto].
  rewrite toInt_false_value. destruct (blankStart f); simpl; eauto.
Qed.

Lemma bondReactStatus_ok text res :
  exists res', bondReactStatus text res = inr res'.
Proof.
  unfold bondReactStatus.
  destruct (bondField_cases text 18) as [[f|] ->]; simpl; [|eauto].
  rewrite toInt_false_value. destruct (blankStart f); simpl; eauto.
Qed.

Lemma bondTopology_cases text res :
  if topologyRejected text
  then exists e, bondTopology text res = inl e
  else exists res', bondTopology text res = inr res'.
Proof.
  unfold topologyRejected, bondTopology.
  destruct (bondField_cases text 15) as [[f|] ->]; simpl; [|eauto].
  destruct (toInt f false) as [e|v] eqn:Hv; simpl.
  { apply toInt_error in Hv as ->. eauto. }
  repeat case_bool_decide; subst; simpl; eauto.
  repeat case_match; simpl; eauto; lia.
Qed.

Lemma bondTail_cases text res :
  if topologyRejected text
  then exists e, bondTail text res = inl e
  else exists res', bondTail text res = inr res'.
Proof.
  unfold bondTail.
  destruct (bondStereo_ok text res) as [r1 ->]. simpl.
  pose proof (bondTopology_cases text r1) as Ht.
  destruct (topologyRejected text).
  - destruct Ht as [e ->]. simpl. eauto.
  - destruct Ht as [r2 ->]. simpl. apply bondReactStatus_ok.
Qed.

(** X14: what a bond line can fail on.  A V2000 bond line is accepted
    exactly when it is at least 9 characters long, none of its first
    three fields (the two atom indices and the bond type) is blank, and its
    topology field (columns 15 to 17) is absent, is the text [  0], is
    blank, or reads as 1 or 2.  Blank means: starts with a space and holds
    nothing but white space.  A field reads as [atoi] reads it, so that a
    topology field that starts with no number reads as 0 and is rejected.
    No atom index, no bond type, no stereo code and no reacting-centre
    status is ever rejected. *)
Theorem bond_line_accepted_iff (text : string) (st : St) :
  (exists st' b, ParseMolFileBondLine text st = (st', inr b))
  <-> bondLineAccepted text = true.
Proof.
  unfold bondLineAccepted, ParseMolFileBondLine.
  destruct (Nat.ltb_spec (str_size text) 9) as [Hlt|Hge].
  { destruct (Nat.leb_spec 9 (str_size text)) as [Hx|Hx]; [lia|]. simpl.
    split; [intros (st' & b & H); done|done]. }
  destruct (Nat.leb_spec 9 (str_size text)) as [Hx|Hx]; [|lia]. simpl.
  unfold bind, lift.
  rewrite !read_int_field_value by lia.
  destruct (blankStart (field3 text 0)); simpl;
    [split; [intros (st' & b & H); done|done]|].
  destruct (blankStart (field3 text 3)); simpl;
    [split; [intros (st' & b & H); done|done]|].
  destruct (blankStart (field3 text 6)); simpl;
    [split; [intros (st' & b & H); done|done]|].
  destruct (bondOfType_total (atoi (field3 text 6)) st) as (st1 & b0 & ->).
  match goal with
  | |- context [bondTail text ?r] => pose proof (bondTail_cases text r) as Ht
  end.
  destruct (topologyRejected text); simpl.
  - destruct Ht as [e ->]. split; [intros (st' & b & H); done|done].
  - destruct Ht as [r ->]. split; [done|eauto].
Qed.

Lemma bond_line_accepted_iff_witness :
  exists st' b,
    ParseMolFileBondLine "  1  2 77 99" (mkSt (mkStream [] "" false) 0 [])
    = (st', inr b).
Proof.
  apply (bond_line_accepted_iff "  1  2 77 99"). vm_compute. reflexivity.
Defined.

(** *** One line per atom, one line per bond *)

Lemma Consumed_0 st st' :
  inStream st' = inStream st -> line st' = line st -> Consumed 0 st st'.
Proof.
  intros Hs Hl. unfold Consumed. rewrite Hs, Hl, Z.add_0_r.
  repeat split; try done. lia.
Qed.

Lemma wrap_uint_succ z n :
  wrap_uint z = wrap_uint (wrap_uint (n + 1) + 0) ->
  wrap_uint z = wrap_uint (n + 1).
Proof.
  intros ->. unfold wrap_uint. rewrite Z.add_0_r. apply Z.mod_mod. lia.
Qed.

Lemma Consumed_S n st l ls st' :
  pending (inStream st) = l :: ls ->
  Consumed n (mkSt (mkStream ls (rest (inStream st)) false)
                (wrap_uint (line st + 1)) (rdWarningLog st)) st' ->
  eofbit (inStream st) = false ->
  Consumed (S n) st st'.
Proof.
  intros Hp (Hn & Hd & Hr & He & Hl) He0. unfold Consumed. simpl in *.
  rewrite Hp, He0. simpl. repeat split; try done; [lia|].
  rewrite Hl. unfold wrap_uint.
  rewrite Zplus_mod_idemp_l. f_equal. lia.
Qed.

Lemma read_line_inr {A} (e : exn) (k : string -> M A) st st' r :
  (exec incr_line; do t <- getLine; do atEnd <- eof;
   if atEnd then throw e else k t) st = (st', inr r) ->
  exists l ls,
    pending (inStream st) = l :: ls
    /\ eofbit (inStream st) = false
    /\ k (strip_cr l)
         (mkSt (mkStream ls (rest (inStream st)) false)
            (wrap_uint (line st + 1)) (rdWarningLog st)) = (st', inr r).
Proof.
  unfold bind, incr_line, getLine, eof. simpl.
  destruct (eofbit (inStream st)) eqn:He; simpl; [by rewrite He|].
  destruct (pending (inStream st)) as [|l ls]; simpl; [done|].
  intros H. eauto.
Qed.

Lemma ParseMolBlockAtoms_consumes E n : forall mol conf st st' r,
  ParseMolBlockAtoms E n mol conf st = (st', inr r) ->
  Consumed n st st'.
Proof.
  induction n as [|n IH]; intros mol conf st st' r H.
  - apply ret_inr in H as [_ ->]. by apply Consumed_0.
  - cbn [ParseMolBlockAtoms] in H.
    apply read_line_inr in H as (l & ls & Hp & He & H).
    apply bind_inr in H as (st1 & ap & Hap & H).
    apply lift_inr in Hap as [_ ->].
    destruct (addAtom mol ap.1) as [m aid].
    apply IH in H. by eapply Consumed_S.
Qed.

Lemma bondOfType_stream bType st st' b :
  bondOfType bType st = (st', inr b) ->
  inStream st' = inStream st /\ line st' = line st.
Proof.
  unfold bondOfType, bind, ret, BOOST_LOG.
  repeat case_match; by intros [= <- _].
Qed.

Lemma ParseMolFileBondLine_stream text st st' b :
  ParseMolFileBondLine text st = (st', inr b) ->
  inStream st' = inStream st /\ line st' = line st.
Proof.
  unfold ParseMolFileBondLine. destruct (_ <? _)%nat; [done|]. intros H.
  apply bind_inr in H as (st1 & i1 & H1 & H). apply lift_inr in H1 as [_ ->].
  apply bind_inr in H as (st2 & i2 & H2 & H). apply lift_inr in H2 as [_ ->].
  apply bind_inr in H as (st3 & bt & H3 & H). apply lift_inr in H3 as [_ ->].
  apply bind_inr in H as (st4 & b0 & H4 & H).
  apply lift_inr in H as [_ ->]. by apply bondOfType_stream in H4.
Qed.

Lemma ParseMolBlockBonds_consumes n : forall mol cp st st' r,
  ParseMolBlockBonds n mol cp st = (st', inr r) ->
  Consumed n st st'.
Proof.
  induction n as [|n IH]; intros mol cp st st' r H.
  - apply ret_inr in H as [_ ->]. by apply Consumed_0.
  - cbn [ParseMolBlockBonds] in H.
    apply read_line_inr in H as (l & ls & Hp & He & H).
    apply bind_inr in H as (st1 & bond & Hb & H).
    apply ParseMolFileBondLine_stream in Hb as [Hs1 Hl1].
    apply bind_inr in H as (st2 & [bond1 mol1] & Hbm & H).
    apply lift_inr in Hbm as [_ ->].
    apply bind_inr in H as (st3 & mol2 & Hadd & H).
    apply lift_inr in Hadd as [_ ->].
    apply IH in H. eapply Consumed_S; [done| |done].
    destruct H as (Hn & Hd & Hr & Hee & Hl).
    rewrite Hs1, Hl1 in *. simpl in *. by repeat split.
Qed.

Lemma Consumed_trans n m st1 st2 st3 :
  Consumed n st1 st2 -> Consumed m st2 st3 -> Consumed (n + m) st1 st3.
Proof.
  intros (Hn & Hd & Hr & He & Hl) (Hn' & Hd' & Hr' & He' & Hl').
  unfold Consumed. rewrite Hd, length_drop in Hn'.
  rewrite Hd', Hd, drop_drop, Hr', Hr, He', He.
  repeat split; try done; [lia|].
  rewrite Hl'. unfold wrap_uint in *.
  rewrite <- Zplus_mod_idemp_l, Hl, Zplus_mod_idemp_l. f_equal. lia.
Qed.

(** X15: the atom and bond blocks of a V2000 input take one line per atom
    and one line per bond.  When the graph has been read, the input held
    at least that many lines, the stream is positioned on the line that
    follows the last bond line, and the line counter has advanced by the
    number of atoms plus the number of bonds; so an input that stops
    before the declared counts are reached never parses. *)
Theorem graph_blocks_take_one_line_each (E : Externals) (nAtoms nBonds : Z)
  (res : RWMol) (chiralityPossible : bool) (st st' : St) (r : RWMol * bool) :
  ParseV2000Graph E nAtoms nBonds res chiralityPossible st = (st', inr r) ->
  Consumed (Z.to_nat (wrap_uint nAtoms) + Z.to_nat (wrap_uint nBonds)) st st'.
Proof.
  unfold ParseV2000Graph. intros H.
  destruct (nAtoms <=? 0); [by apply throw_inr in H|].
  apply bind_inr in H as (st1 & mc & Ha & H).
  apply ParseMolBlockAtoms_consumes in Ha.
  destruct (setDimension mc.1 mc.2) as [m c].
  apply bind_inr in H as (st2 & m' & Hc & H).
  apply lift_inr in Hc as [_ ->].
  apply ParseMolBlockBonds_consumes in H.
  by eapply Consumed_trans.
Qed.

Lemma graph_blocks_take_one_line_each_witness :
  exists st' r,
    ParseV2000Graph (sampleExternals 0 0) 1 0 newRWMol false
      (mkSt (mkStream
               ["    0.0000    0.0000    0.0000 C   0  0  0  0  0  0  0  0  0  0  0  0";
                "M  END"] "" false) 4 [])
    = (st', inr r)
    /\ pending (inStream st') = ["M  END"].
Proof.
  destruct (ParseV2000Graph (sampleExternals 0 0) 1 0 newRWMol false
      (mkSt (mkStream
               ["    0.0000    0.0000    0.0000 C   0  0  0  0  0  0  0  0  0  0  0  0";
                "M  END"] "" false) 4 []))
    as [st' [e|r]] eqn:Hrun; [vm_compute in Hrun; discriminate|].
  exists st', r. split; [done|].
  by destruct (graph_blocks_take_one_line_each _ _ _ _ _ _ _ _ Hrun)
    as (_ & -> & _).
Defined.

(** ** C1: the shape of a parsed molecule *)






(** ** C3: the sentinel of the deferred queries *)







